(** * The text-to-speech job services (edge-tts-service and espeak-tts-service)

    A shallow embedding of the job lifecycle of [edge-tts-service/app.py] and
    [espeak-tts-service/app.py]: the Redis job store with its expiry, the
    cache directory, the request handlers [create_job], [get_job_status],
    [get_segment_audio], [delete_job], and the background executor
    [process_job_sync] with its [process_job_with_new_redis].  The handlers
    that are suspended at an [await] between two operations of theirs
    ([delete_job], [get_segment_audio]) are run both whole and in their two
    parts, the parts interleaved with the rest.

    The two services share their text; where they differ (key prefix, file
    extension, media type, segment fields, synthesis engine) the model
    branches on the [engine] of the service.  What only one of them has is
    in a module of its name: [Edge.process_job] and [Edge.list_voices];
    [Espeak.get_available_voices], [Espeak.list_voices],
    [Espeak.convert_text_to_phonemes] and [Espeak.get_job_audio]. *)

From Stdlib Require Import ZArith NArith Lia.
From Stdlib.Init Require Import Byte.
From Stdlib.Floats Require Import SpecFloat.
From stdpp Require Import gmap strings list pretty.

Local Open Scope string_scope.
Local Open Scope list_scope.
Local Open Scope Z_scope.

(** ** Python values *)

(** A Python [str] holding free text is a sequence of code points.
    Identifiers, keys, paths and messages are kept as [string]. *)
Definition pystr := list N.

(** [str.isspace] for one character: the code points Python 3 treats as
    white space. *)
Definition isspace (c : N) : bool :=
  ((9 <=? c) && (c <=? 13) || (28 <=? c) && (c <=? 32)
   || (c =? 133) || (c =? 160) || (c =? 5760)
   || (8192 <=? c) && (c <=? 8202)
   || (c =? 8232) || (c =? 8233) || (c =? 8239) || (c =? 8287)
   || (c =? 12288))%N.

Fixpoint lstrip (s : pystr) : pystr :=
  match s with
  | [] => []
  | c :: rest => if isspace c then lstrip rest else s
  end.

Definition rstrip (s : pystr) : pystr := rev (lstrip (rev s)).

(** [str.strip()] *)
Definition strip (s : pystr) : pystr := rstrip (lstrip s).

(** Truth value of an [Optional[str]]: [None] and the empty string are
    false. *)
Definition truthy (o : option string) : bool :=
  match o with
  | Some s => negb (String.eqb s "")
  | None => false
  end.

(** ** Configuration *)

Variant backend := EdgeTTS | EspeakNG.

Record service := Service {
  engine : backend;
  CACHE_DIR : string;
  DEFAULT_VOICE : string;
}.

Definition edge_service : service :=
  {| engine := EdgeTTS; CACHE_DIR := "/data/cache";
     DEFAULT_VOICE := "en-US-AriaNeural" |}.

Definition espeak_service : service :=
  {| engine := EspeakNG; CACHE_DIR := "/data/cache";
     DEFAULT_VOICE := "en-us" |}.

Definition JOB_EXPIRY_SECONDS : Z := 3600.

(** ** Job records *)

(** A Python [float] is a double precision number of IEEE 754. *)
Definition float : Type := spec_float.

(** [a / b] for two integers, [b] positive: the [float] nearest to the
    quotient, ties to even.  (Python raises [OverflowError] where this gives
    an infinity, for a quotient of 2^1024 and more.) *)
Definition truediv (a : Z) (b : positive) : float :=
  match a with
  | Z0 => S754_zero false
  | Zpos p => SFdiv 53 1024 (S754_finite false p 0) (S754_finite false b 0)
  | Zneg p => SFdiv 53 1024 (S754_finite true p 0) (S754_finite false b 0)
  end.

(** A [float] that is a number: neither an infinity nor a NaN. *)
Definition is_finite (x : float) : bool :=
  match x with
  | S754_zero _ | S754_finite _ _ _ => true
  | _ => false
  end.

(** One word boundary of the edge stream, with its offset and its duration
    in milliseconds. *)
Record word_timing := WordTiming {
  wt_text : string;
  wt_offset : float;
  wt_duration : float;
}.

Record segment := Segment {
  seg_id : string;
  seg_index : Z;
  seg_status : string;
  seg_audio_url : string;
  seg_file_size : Z;
  seg_format : string;
  seg_word_timings : option (list word_timing);
}.

Record job_data := JobData {
  jd_job_id : string;
  jd_status : string;
  jd_created_at : string;
  jd_text_length : nat;
  jd_voice : option string;
  jd_prefer_phonemes : option bool;
  jd_segments : list segment;
  jd_error : option string;
}.

Definition set_status (st : string) (j : job_data) : job_data :=
  {| jd_job_id := jd_job_id j; jd_status := st;
     jd_created_at := jd_created_at j; jd_text_length := jd_text_length j;
     jd_voice := jd_voice j; jd_prefer_phonemes := jd_prefer_phonemes j;
     jd_segments := jd_segments j; jd_error := jd_error j |}.

Definition set_segments (sgs : list segment) (j : job_data) : job_data :=
  {| jd_job_id := jd_job_id j; jd_status := jd_status j;
     jd_created_at := jd_created_at j; jd_text_length := jd_text_length j;
     jd_voice := jd_voice j; jd_prefer_phonemes := jd_prefer_phonemes j;
     jd_segments := sgs; jd_error := jd_error j |}.

Definition set_error (msg : string) (j : job_data) : job_data :=
  {| jd_job_id := jd_job_id j; jd_status := jd_status j;
     jd_created_at := jd_created_at j; jd_text_length := jd_text_length j;
     jd_voice := jd_voice j; jd_prefer_phonemes := jd_prefer_phonemes j;
     jd_segments := jd_segments j; jd_error := Some msg |}.

Record SynthesisRequest := Request {
  req_text : pystr;
  req_voice : option string;
  req_model_id : option string;
  req_prefer_phonemes : option bool;
  req_reading_profile : option string;
}.

(** ** The world: Redis, the cache directory, the clock *)

Variant event :=
  | EvGet (key : string)
  | EvSet (key : string) (value : job_data) (ex : Z)
  | EvDel (key : string)
  | EvExists (path : string)
  | EvStat (path : string)
  | EvOpen (path : string)
  | EvWrite (path : string) (data : list byte)
  | EvUnlink (path : string)
  | EvSynth (voice : string) (text : pystr).

(** Redis keeps with each key the instant at which it expires.  The files of
    the cache directory are a map from path to content.  [faults] is the
    schedule of store failures: every store or file operation consumes one
    entry and raises when the entry carries a message.  [trace] records the
    operations that took effect, oldest first. *)
Record world := World {
  redis : gmap string (job_data * Z);
  fs : gmap string (list byte);
  clock : Z;
  faults : list (option string);
  trace : list event;
}.

Definition empty_world : world :=
  {| redis := ∅; fs := ∅; clock := 0; faults := []; trace := [] |}.

(** ** Exceptions and the handler monad *)

Variant exn :=
  | HTTPException (status_code : Z) (detail : string)
  | Exception (msg : string).

(** [str(e)] *)
Definition str (e : exn) : string :=
  match e with
  | Exception msg => msg
  | HTTPException code detail => pretty code +:+ ": " +:+ detail
  end.

Variant result (A : Type) :=
  | Ok (a : A)
  | Raise (e : exn).
Arguments Ok {A} a.
Arguments Raise {A} e.

Definition M (A : Type) : Type := world -> result A * world.

Definition ret {A} (a : A) : M A := fun w => (Ok a, w).

Definition bind {A B} (m : M A) (k : A -> M B) : M B :=
  fun w => match m w with
           | (Ok a, w') => k a w'
           | (Raise e, w') => (Raise e, w')
           end.

Definition raise {A} (e : exn) : M A := fun w => (Raise e, w).

(** [try: body except Exception as e: handler e] *)
Definition try_except {A} (body : M A) (handler : exn -> M A) : M A :=
  fun w => match body w with
           | (Ok a, w') => (Ok a, w')
           | (Raise e, w') => handler e w'
           end.

Notation "'let*' x ':=' c 'in' k" := (bind c (fun x => k))
  (at level 10, x pattern, c at level 100, k at level 200).
Notation "c '>>' k" := (bind c (fun _ => k))
  (at level 90, right associativity).

(** [for x in xs: body x] *)
Fixpoint for_each {A} (xs : list A) (body : A -> M unit) : M unit :=
  match xs with
  | [] => ret tt
  | x :: rest => body x >> for_each rest body
  end.

(** *** Updating the world *)

Definition add_trace (evs : list event) (w : world) : world :=
  {| redis := redis w; fs := fs w; clock := clock w; faults := faults w;
     trace := trace w ++ evs |}.

Definition set_redis (r : gmap string (job_data * Z)) (w : world) : world :=
  {| redis := r; fs := fs w; clock := clock w; faults := faults w;
     trace := trace w |}.

Definition set_fs (f : gmap string (list byte)) (w : world) : world :=
  {| redis := redis w; fs := f; clock := clock w; faults := faults w;
     trace := trace w |}.

Definition set_faults (fl : list (option string)) (w : world) : world :=
  {| redis := redis w; fs := fs w; clock := clock w; faults := fl;
     trace := trace w |}.

(** Time passing while nothing is written. *)
Definition advance (d : Z) (w : world) : world :=
  {| redis := redis w; fs := fs w; clock := clock w + d;
     faults := faults w; trace := trace w |}.

Definition log (e : event) : M unit :=
  fun w => (Ok tt, add_trace [e] w).

(** One entry of the failure schedule is consumed per operation. *)
Definition fault : M unit :=
  fun w => match faults w with
           | [] => (Ok tt, w)
           | Some msg :: rest => (Raise (Exception msg), set_faults rest w)
           | None :: rest => (Ok tt, set_faults rest w)
           end.

(** *** Redis *)

(** A key is visible until its expiry instant has passed. *)
Definition live (w : world) (key : string) : option job_data :=
  match redis w !! key with
  | Some (v, expires) => if (clock w <=? expires)%Z then Some v else None
  | None => None
  end.

(** [await r.get(key)] followed by [json.loads] *)
Definition r_get (key : string) : M (option job_data) :=
  fault >> log (EvGet key) >> fun w => (Ok (live w key), w).

(** [await r.set(key, json.dumps(value), ex=ex)] *)
Definition r_set (key : string) (value : job_data) (ex : Z) : M unit :=
  fault >> log (EvSet key value ex) >>
  fun w => (Ok tt, set_redis (<[key := (value, clock w + ex)]> (redis w)) w).

(** [await r.delete(key)] *)
Definition r_delete (key : string) : M unit :=
  fault >> log (EvDel key) >>
  fun w => (Ok tt, set_redis (delete key (redis w)) w).

(** *** The cache directory *)

(** [path.exists()] *)
Definition path_exists (path : string) : M bool :=
  fault >> log (EvExists path) >>
  fun w => (Ok (bool_decide (is_Some (fs w !! path))), w).

(** [path.stat().st_size] *)
Definition stat_size (path : string) : M Z :=
  fault >> log (EvStat path) >>
  fun w => match fs w !! path with
           | Some data => (Ok (Z.of_nat (length data)), w)
           | None => (Raise (Exception "No such file or directory"), w)
           end.

(** [open(path, "wb")]: the file is created or truncated. *)
Definition open_wb (path : string) : M unit :=
  fault >> log (EvOpen path) >>
  fun w => (Ok tt, set_fs (<[path := []]> (fs w)) w).

(** [f.write(data)] on a file opened for writing: the data is appended. *)
Definition write (path : string) (data : list byte) : M unit :=
  fault >> log (EvWrite path data) >>
  fun w => (Ok tt,
            set_fs (<[path := default [] (fs w !! path) ++ data]> (fs w)) w).

(** [path.unlink()] *)
Definition unlink (path : string) : M unit :=
  fault >> log (EvUnlink path) >>
  fun w => match fs w !! path with
           | Some _ => (Ok tt, set_fs (delete path (fs w)) w)
           | None => (Raise (Exception "No such file or directory"), w)
           end.

(** ** The synthesis engines *)

(** What [communicate.stream()] of edge-tts yields. *)
Variant chunk :=
  | AudioChunk (data : list byte)
  | WordBoundary (text : string) (offset duration : Z)
  | OtherChunk.

(** The stream yields its chunks and then ends, or raises. *)
Record edge_stream := EdgeStream {
  stream_chunks : list chunk;
  stream_raised : option string;
}.

(** What the espeak-ng side of [synthesize_text] meets: the answer of the
    phonemize API ([None] on any failure), and [subprocess.run], which
    returns an exit code, the engine having left a file at the [-w] path or
    not, or raises (time-out, missing program). *)
Variant espeak_exit :=
  | Exited (returncode : Z) (wav : option (list byte))
  | Failed (msg : string).

Record espeak_run := EspeakRun {
  phonemes : option pystr;
  run_exit : espeak_exit;
}.

Definition outcome (b : backend) : Type :=
  match b with
  | EdgeTTS => edge_stream
  | EspeakNG => espeak_run
  end.

Definition audio_of (chunks : list chunk) : list (list byte) :=
  omap (fun c => match c with AudioChunk data => Some data | _ => None end)
       chunks.

Definition timings_of (chunks : list chunk) : list word_timing :=
  omap (fun c => match c with
                 | WordBoundary t o d =>
                     Some (WordTiming t (truediv o 10000) (truediv d 10000))
                 | _ => None
                 end) chunks.

(** The offsets and durations of the stream are within the range of
    [float]: no division of the loop raises [OverflowError]. *)
Definition in_range (chunks : list chunk) : bool :=
  forallb (fun t => is_finite (wt_offset t) && is_finite (wt_duration t))
          (timings_of chunks).

(** The engine process writes its output file itself. *)
Definition engine_writes (path : string) (data : list byte) : M unit :=
  fun w => (Ok tt, set_fs (<[path := data]> (fs w))
                          (add_trace [EvWrite path data] w)).

(** [generate_segment_id] *)
Definition generate_segment_id (job_id : string) (index : Z) : string :=
  job_id +:+ "-seg-" +:+ pretty index.

Record FileResponse := MkFileResponse {
  fr_path : string;
  fr_media_type : string;
  fr_filename : string;
}.

Record created := Created {
  cr_job_id : string;
  cr_status : string;
  cr_message : string;
}.

(** The arguments [create_job] hands to [background_tasks.add_task]. *)
Record task := Task {
  task_job_id : string;
  task_text : pystr;
  task_voice : string;
  task_prefer_phonemes : bool;
}.

(** The connection that the executor makes for itself:
    [redis.from_url(...)] gives the client or raises, and [await r.close()]
    returns or raises.  Neither reads or writes a key. *)
Record connection := Connection {
  from_url_raises : option string;
  close_raises : option string;
}.

(** [r = redis.from_url(...)], then [try: body finally: await r.close()] *)
Definition with_connection {A} (c : connection) (body : M A) : M A :=
  match from_url_raises c with
  | Some msg => raise (Exception msg)
  | None =>
      fun w =>
        let (answer, w') := body w in
        match close_raises c with
        | Some msg => (Raise (Exception msg), w')
        | None => (answer, w')
        end
  end.

(** An id without a slash, as those of [uuid4] are. *)
Fixpoint plain (id : string) : bool :=
  match id with
  | EmptyString => true
  | String c rest => negb (String.eqb (String c "") "/") && plain rest
  end.

Section Service.

Context (svc : service).

Definition key_prefix : string :=
  match engine svc with
  | EdgeTTS => "edge-tts:job:"
  | EspeakNG => "espeak-tts:job:"
  end.

Definition job_key (job_id : string) : string := key_prefix +:+ job_id.

Definition cache_ext : string :=
  match engine svc with
  | EdgeTTS => ".mp3"
  | EspeakNG => ".wav"
  end.

Definition media_type : string :=
  match engine svc with
  | EdgeTTS => "audio/mpeg"
  | EspeakNG => "audio/wav"
  end.

(** [get_cache_path]: [CACHE_DIR / f"{segment_id}.mp3"]; the job id is not
    used.  [CACHE_DIR svc] is the directory as pathlib prints it, and the
    segment id is [plain], as the ids are that [generate_segment_id] makes
    from those of [uuid4]: for such a name pathlib's [/] appends a slash
    and the name to the directory. *)
Definition get_cache_path (job_id segment_id : string) : string :=
  CACHE_DIR svc +:+ "/" +:+ segment_id +:+ cache_ext.

Definition store_job (job_id : string) (job_data : job_data) : M unit :=
  r_set (job_key job_id) job_data JOB_EXPIRY_SECONDS.

Definition get_job (job_id : string) : M (option job_data) :=
  r_get (job_key job_id).

(** *** edge-tts: [synthesize_text_with_timing] *)
Definition synthesize_text_with_timing (text : pystr) (voice : string)
    (output_path : string) (o : edge_stream) : M (bool * list word_timing) :=
  try_except
    (log (EvSynth voice text) >>
     match stream_raised o with
     | Some msg => raise (Exception msg)
     | None =>
         let audio_chunks := audio_of (stream_chunks o) in
         match audio_chunks with
         | _ :: _ =>
             open_wb output_path >>
             for_each audio_chunks (write output_path) >>
             ret (true, timings_of (stream_chunks o))
         | [] => ret (false, [])
         end
     end)
    (fun e => ret (false, [])).

(** *** espeak-ng: [synthesize_text] *)
Definition synthesize_text (text : pystr) (voice : string)
    (output_path : string) (prefer_phonemes : bool) (o : espeak_run)
    : M bool :=
  try_except
    (let synthesis_text :=
       if prefer_phonemes then
         match phonemes o with
         | Some (c :: p) => c :: p
         | _ => text
         end
       else text in
     log (EvSynth voice synthesis_text) >>
     let* returncode :=
       match run_exit o with
       | Failed msg => raise (Exception msg)
       | Exited rc wav =>
           match wav with
           | Some data => engine_writes output_path data
           | None => ret tt
           end >> ret rc
       end in
     if negb (returncode =? 0) then ret false
     else
       let* there := path_exists output_path in
       if there then
         let* st_size := stat_size output_path in ret (0 <? st_size)
       else ret false)
    (fun e => ret false).

Definition synthesize (text : pystr) (voice : string) (output_path : string)
    (prefer_phonemes : bool)
    : outcome (engine svc) -> M (bool * list word_timing) :=
  match engine svc as b return outcome b -> M (bool * list word_timing) with
  | EdgeTTS => fun o => synthesize_text_with_timing text voice output_path o
  | EspeakNG => fun o =>
      let* success := synthesize_text text voice output_path prefer_phonemes o in
      ret (success, [])
  end.

(** *** The executor: [process_job_with_new_redis] *)

(** The function makes a connection of its own, runs a [try] statement
    and closes the connection in the [finally] clause.  All that reads or
    writes is in the [try] statement with its [except] clause, which is
    what [process_job_with_new_redis] below stands for; the connection
    comes in with [process_job_sync]. *)

Definition completed_segment (job_id segment_id : string) (file_size : Z)
    (word_timings : list word_timing) : segment :=
  {| seg_id := segment_id;
     seg_index := 0;
     seg_status := "completed";
     seg_audio_url :=
       "/v1/tts/jobs/" +:+ job_id +:+ "/segments/" +:+ segment_id +:+ "/audio";
     seg_file_size := file_size;
     seg_format := media_type;
     seg_word_timings :=
       match engine svc with
       | EdgeTTS => Some word_timings
       | EspeakNG => None
       end |}.

(** The first part of the [try] block: the record is read again and, when
    it is there, written back as [processing]. *)
Definition accept_job (job_id : string) : M (option job_data) :=
  let key := job_key job_id in
  let* data := r_get key in
  match data with
  | None => ret None
  | Some job_data =>
      let job_data := set_status "processing" job_data in
      r_set key job_data JOB_EXPIRY_SECONDS >>
      ret (Some job_data)
  end.

(** The second part of the [try] block: the engine is called and the
    terminal record is written from the executor's own copy of the
    record. *)
Definition run_synthesis (job_id : string) (text : pystr)
    (prefer_phonemes : bool) (job_data : job_data)
    (o : outcome (engine svc)) : M unit :=
  let key := job_key job_id in
  let segment_id := generate_segment_id job_id 0 in
  let output_path := get_cache_path job_id segment_id in
  let* (success, word_timings) :=
    synthesize text (default (DEFAULT_VOICE svc) (jd_voice job_data))
               output_path prefer_phonemes o in
  let* there := (if success then path_exists output_path else ret false) in
  let* job_data :=
    if there then
      let* file_size := stat_size output_path in
      ret (set_segments
             [completed_segment job_id segment_id file_size word_timings]
             (set_status "completed" job_data))
    else
      ret (set_error "Synthesis failed" (set_status "failed" job_data)) in
  r_set key job_data JOB_EXPIRY_SECONDS.

(** The [except Exception as e] clause. *)
Definition on_error (job_id : string) (e : exn) : M unit :=
  try_except
    (let key := job_key job_id in
     let* data := r_get key in
     match data with
     | Some job_data =>
         r_set key (set_error (str e) (set_status "failed" job_data))
               JOB_EXPIRY_SECONDS
     | None => ret tt
     end)
    (fun e2 => ret tt).

(** The [try] statement of [process_job_with_new_redis], with its
    [except] clause.  [r = redis.from_url(...)] before it and
    [finally: await r.close()] after it read and write nothing; they are in
    [with_connection], and the function as a whole is [process_job_sync]
    below. *)
Definition process_job_with_new_redis (job_id : string) (text : pystr)
    (voice : string) (prefer_phonemes : bool) (o : outcome (engine svc))
    : M unit :=
  try_except
    (let* accepted := accept_job job_id in
     match accepted with
     | None => ret tt
     | Some job_data => run_synthesis job_id text prefer_phonemes job_data o
     end)
    (on_error job_id).

(** [process_job_sync], the task that [create_job] hands to the
    background: it runs the whole of [process_job_with_new_redis] in an
    event loop of its own, that is the connection [c] made, the [try]
    statement, and the connection closed. *)
Definition process_job_sync (c : connection) (job_id : string) (text : pystr)
    (voice : string) (prefer_phonemes : bool) (o : outcome (engine svc))
    : M unit :=
  with_connection c
    (process_job_with_new_redis job_id text voice prefer_phonemes o).

(** *** The request handlers *)

(** [create_job]; the fresh UUID of [generate_job_id] and the time stamp of
    [datetime.utcnow().isoformat()] are given. *)
Definition create_job (request : SynthesisRequest) (new_id utcnow : string)
    : M (created * task) :=
  if bool_decide (req_text request = []) || bool_decide (strip (req_text request) = [])
  then raise (HTTPException 400 "Text is required")
  else
    let voice :=
      if truthy (req_voice request) then default "" (req_voice request)
      else if truthy (req_model_id request) then default "" (req_model_id request)
      else DEFAULT_VOICE svc in
    let job_id := new_id in
    let prefer := default false (req_prefer_phonemes request) in
    let job_data :=
      {| jd_job_id := job_id;
         jd_status := "pending";
         jd_created_at := utcnow;
         jd_text_length := length (req_text request);
         jd_voice := Some voice;
         jd_prefer_phonemes :=
           match engine svc with
           | EdgeTTS => None
           | EspeakNG => Some prefer
           end;
         jd_segments := [];
         jd_error := None |} in
    store_job job_id job_data >>
    ret ({| cr_job_id := job_id; cr_status := "pending";
            cr_message := "Job created successfully" |},
         {| task_job_id := job_id; task_text := strip (req_text request);
            task_voice := voice; task_prefer_phonemes := prefer |}).

Definition get_job_status (job_id : string) : M job_data :=
  let* job_data := get_job job_id in
  match job_data with
  | None => raise (HTTPException 404 "Job not found")
  | Some job_data => ret job_data
  end.

Definition get_segment_audio (job_id segment_id : string) : M FileResponse :=
  let* job_data := get_job job_id in
  match job_data with
  | None => raise (HTTPException 404 "Job not found")
  | Some job_data =>
      if negb (String.eqb (jd_status job_data) "completed") then
        raise (HTTPException 400
                 ("Job is " +:+ jd_status job_data +:+ ", not completed"))
      else
        match find (fun seg => String.eqb (seg_id seg) segment_id)
                   (jd_segments job_data) with
        | None => raise (HTTPException 404 "Segment not found")
        | Some segment =>
            let audio_path := get_cache_path job_id segment_id in
            let* there := path_exists audio_path in
            if negb there then
              raise (HTTPException 404 "Audio file not found")
            else
              ret {| fr_path := audio_path;
                     fr_media_type := media_type;
                     fr_filename := segment_id +:+ cache_ext |}
        end
  end.

Definition delete_job (job_id : string) : M string :=
  let* job_data := get_job job_id in
  match job_data with
  | None => raise (HTTPException 404 "Job not found")
  | Some job_data =>
      for_each (jd_segments job_data) (fun seg =>
        let audio_path := get_cache_path job_id (seg_id seg) in
        let* there := path_exists audio_path in
        if there then unlink audio_path else ret tt) >>
      r_delete (job_key job_id) >>
      ret "Job deleted successfully"
  end.

(** *** The handlers at their [await]s *)

(** [delete_job] up to [await r.delete(key)]: the record is read and the
    files of its segments are removed. *)
Definition delete_job_files (job_id : string) : M unit :=
  let* job_data := get_job job_id in
  match job_data with
  | None => raise (HTTPException 404 "Job not found")
  | Some job_data =>
      for_each (jd_segments job_data) (fun seg =>
        let audio_path := get_cache_path job_id (seg_id seg) in
        let* there := path_exists audio_path in
        if there then unlink audio_path else ret tt)
  end.

(** [delete_job] from [await r.delete(key)] on. *)
Definition delete_job_record (job_id : string) : M string :=
  r_delete (job_key job_id) >>
  ret "Job deleted successfully".

(** [get_segment_audio] from the answer of [await get_job(r, job_id)] on. *)
Definition serve_segment (job_id segment_id : string)
    (job_data : option job_data) : M FileResponse :=
  match job_data with
  | None => raise (HTTPException 404 "Job not found")
  | Some job_data =>
      if negb (String.eqb (jd_status job_data) "completed") then
        raise (HTTPException 400
                 ("Job is " +:+ jd_status job_data +:+ ", not completed"))
      else
        match find (fun seg => String.eqb (seg_id seg) segment_id)
                   (jd_segments job_data) with
        | None => raise (HTTPException 404 "Segment not found")
        | Some segment =>
            let audio_path := get_cache_path job_id segment_id in
            let* there := path_exists audio_path in
            if negb there then
              raise (HTTPException 404 "Audio file not found")
            else
              ret {| fr_path := audio_path;
                     fr_media_type := media_type;
                     fr_filename := segment_id +:+ cache_ext |}
        end
  end.

End Service.

(** ** Reading the trace *)

(** The status values written under [key], oldest first. *)
Definition statuses_written (key : string) (tr : list event) : list string :=
  omap (fun e => match e with
                 | EvSet k value _ =>
                     if String.eqb k key then Some (jd_status value) else None
                 | _ => None
                 end) tr.

(** The expiry arguments of the writes. *)
Definition expiries_written (tr : list event) : list Z :=
  omap (fun e => match e with EvSet _ _ ex => Some ex | _ => None end) tr.

(** Does the event touch the cache directory? *)
Definition touches_cache (e : event) : bool :=
  match e with
  | EvExists _ | EvStat _ | EvOpen _ | EvWrite _ _ | EvUnlink _ => true
  | _ => false
  end.

Definition is_synth (e : event) : bool :=
  match e with EvSynth _ _ => true | _ => false end.

Definition is_file_write (path : string) (e : event) : bool :=
  match e with
  | EvWrite p _ => String.eqb p path
  | _ => false
  end.

Definition publishes (key : string) (e : event) : bool :=
  match e with
  | EvSet k value _ => String.eqb k key && String.eqb (jd_status value) "completed"
  | _ => false
  end.

(** Every write of a [completed] record under [key] comes after a write of
    the file at [path]. *)
Fixpoint written_before_published (path key : string) (seen : bool)
    (tr : list event) : bool :=
  match tr with
  | [] => true
  | e :: rest =>
      (negb (publishes key e) || seen)
      && written_before_published path key (seen || is_file_write path e) rest
  end.

(** ** Status order *)

Definition status_rank (st : string) : option nat :=
  if String.eqb st "pending" then Some 0%nat
  else if String.eqb st "processing" then Some 1%nat
  else if String.eqb st "completed" then Some 2%nat
  else if String.eqb st "failed" then Some 2%nat
  else None.

Definition is_terminal (st : string) : bool :=
  String.eqb st "completed" || String.eqb st "failed".

(** A status sequence moves forward: every value is one of the four, each
    next one has a higher rank, and nothing follows a terminal value. *)
Fixpoint moves_forward (l : list string) : bool :=
  match l with
  | [] => true
  | st :: rest =>
      match status_rank st with
      | None => false
      | Some r =>
          match rest with
          | [] => true
          | st' :: _ =>
              negb (is_terminal st)
              && match status_rank st' with
                 | Some r' => (r <? r')%nat
                 | None => false
                 end
              && moves_forward rest
          end
      end
  end.

(** ** The running system *)

(** The handlers and the executors of the background tasks interleave.  An
    executor is suspended while the engine works, so it takes two steps:
    [accept_job] and, later, [run_synthesis] with whatever the store holds
    by then. *)
Variant phase :=
  | Queued (t : task)
  | Running (t : task) (job_data : job_data)
  | Finished.

Record system := System {
  sys_world : world;
  sys_tasks : gmap string phase;
}.

Section System.

Context (svc : service).

Variant label :=
  | DoCreate (request : SynthesisRequest) (new_id utcnow : string)
  | DoAccept (job_id : string)
  | DoSynthesize (job_id : string) (o : outcome (engine svc))
  | DoStatus (job_id : string)
  | DoAudio (job_id segment_id : string)
  | DoDelete (job_id : string)
  | DoTick (d : Z).

(** One step.  [None]: the step cannot happen ([uuid4] does not repeat an
    id; an executor exists only for a job that was created, and runs
    once; time does not go back).  An executor whose connection cannot be
    made reads and writes nothing: its task stays [Queued]. *)
Definition sys_step (l : label) (s : system) : option system :=
  match l with
  | DoCreate request new_id utcnow =>
      match sys_tasks s !! new_id with
      | Some _ => None
      | None =>
          match create_job svc request new_id utcnow (sys_world s) with
          | (Ok (_, t), w') =>
              Some {| sys_world := w';
                      sys_tasks := <[new_id := Queued t]> (sys_tasks s) |}
          | (Raise _, w') =>
              Some {| sys_world := w'; sys_tasks := sys_tasks s |}
          end
      end
  | DoAccept job_id =>
      match sys_tasks s !! job_id with
      | Some (Queued t) =>
          match accept_job svc job_id (sys_world s) with
          | (Ok (Some job_data), w') =>
              Some {| sys_world := w';
                      sys_tasks := <[job_id := Running t job_data]> (sys_tasks s) |}
          | (Ok None, w') =>
              Some {| sys_world := w';
                      sys_tasks := <[job_id := Finished]> (sys_tasks s) |}
          | (Raise e, w') =>
              Some {| sys_world := snd (on_error svc job_id e w');
                      sys_tasks := <[job_id := Finished]> (sys_tasks s) |}
          end
      | _ => None
      end
  | DoSynthesize job_id o =>
      match sys_tasks s !! job_id with
      | Some (Running t job_data) =>
          let w' :=
            snd (try_except
                   (run_synthesis svc job_id (task_text t)
                      (task_prefer_phonemes t) job_data o)
                   (on_error svc job_id) (sys_world s)) in
          Some {| sys_world := w';
                  sys_tasks := <[job_id := Finished]> (sys_tasks s) |}
      | _ => None
      end
  | DoStatus job_id =>
      Some {| sys_world := snd (get_job_status svc job_id (sys_world s));
              sys_tasks := sys_tasks s |}
  | DoAudio job_id segment_id =>
      Some {| sys_world :=
                snd (get_segment_audio svc job_id segment_id (sys_world s));
              sys_tasks := sys_tasks s |}
  | DoDelete job_id =>
      Some {| sys_world := snd (delete_job svc job_id (sys_world s));
              sys_tasks := sys_tasks s |}
  | DoTick d =>
      if 0 <=? d then
        Some {| sys_world := advance d (sys_world s);
                sys_tasks := sys_tasks s |}
      else None
  end.

Fixpoint sys_run (ls : list label) (s : system) : option system :=
  match ls with
  | [] => Some s
  | l :: rest =>
      match sys_step l s with
      | Some s' => sys_run rest s'
      | None => None
      end
  end.

(** The service starts at instant [t] with an empty store and an empty
    cache directory; [failures] is the schedule of store failures ahead. *)
Definition boot (t : Z) (failures : list (option string)) : system :=
  {| sys_world := {| redis := ∅; fs := ∅; clock := t; faults := failures;
                     trace := [] |};
     sys_tasks := ∅ |}.

End System.

(** ** Auxiliary notions *)

(** The operations made while the engine is called: on the engine and on
    the cache directory, none on Redis, and no removal of a file. *)
Definition is_engine_event (e : event) : bool :=
  match e with
  | EvSynth _ _ | EvOpen _ | EvWrite _ _ | EvExists _ | EvStat _ => true
  | _ => false
  end.

(** The keys read from Redis. *)
Definition keys_read (tr : list event) : list string :=
  omap (fun e => match e with EvGet k => Some k | _ => None end) tr.

(** No file is lost from [f] to [f'], and every file that appeared was
    written by one of [evs]. *)
Definition files_follow (f f' : gmap string (list byte)) (evs : list event)
    : Prop :=
  (forall q, is_Some (f !! q) -> is_Some (f' !! q))
  /\ (forall q, is_Some (f' !! q) ->
                is_Some (f !! q) \/ existsb (is_file_write q) evs = true).

(** What the loop of [delete_job] does to the files, and the operations it
    makes, read off the record's segments. *)
Fixpoint delete_files (svc : service) (job_id : string) (segs : list segment)
    (f : gmap string (list byte)) : gmap string (list byte) * list event :=
  match segs with
  | [] => (f, [])
  | seg :: rest =>
      let audio_path := get_cache_path svc job_id (seg_id seg) in
      if bool_decide (is_Some (f !! audio_path)) then
        let (f', evs) := delete_files svc job_id rest (delete audio_path f) in
        (f', EvExists audio_path :: EvUnlink audio_path :: evs)
      else
        let (f', evs) := delete_files svc job_id rest f in
        (f', EvExists audio_path :: evs)
  end.

(** The record [job_data] of [job_id] is served for the whole expiry window
    counted from the instant of [w], and not after it. *)
Definition fresh_window (svc : service) (w : world) (job_id : string)
    (job_data : job_data) : Prop :=
  forall d, 0 <= d ->
    fst (get_job_status svc job_id (advance d w))
    = if d <=? JOB_EXPIRY_SECONDS then Ok job_data
      else Raise (HTTPException 404 "Job not found").

(** ** What holds of every state of the running system *)

(** The cache file of the one segment of a job. *)
Definition seg_path (svc : service) (job_id : string) : string :=
  get_cache_path svc job_id (generate_segment_id job_id 0).

(** The segments of a record are the job's own, in the service's format. *)
Definition segments_own (svc : service) (job_id : string)
    (job_data : job_data) : Prop :=
  forall seg, seg ∈ jd_segments job_data ->
    seg_id seg = generate_segment_id job_id 0
    /\ seg_format seg = media_type svc.

(** Every stored record lists its own segments only, and a [completed]
    one has a segment whose file is in the cache directory. *)
Definition inv_records (svc : service) (w : world) : Prop :=
  forall j job_data expires,
    redis w !! job_key svc j = Some (job_data, expires) ->
    segments_own svc j job_data
    /\ (jd_status job_data = "completed" ->
        jd_segments job_data <> []
        /\ is_Some (fs w !! seg_path svc j)).

(** Every file was written. *)
Definition inv_files (w : world) : Prop :=
  forall q, is_Some (fs w !! q) -> existsb (is_file_write q) (trace w) = true.

(** No [completed] record was written before its file. *)
Definition inv_order (svc : service) (w : world) : Prop :=
  forall j,
    written_before_published (seg_path svc j) (job_key svc j) false (trace w)
    = true.

(** The copy of the record that a suspended executor holds lists the
    job's own segments only. *)
Definition inv_tasks (svc : service) (s : system) : Prop :=
  forall j t job_data,
    sys_tasks s !! j = Some (Running t job_data) ->
    segments_own svc j job_data.

Definition sys_inv (svc : service) (s : system) : Prop :=
  faults (sys_world s) = []
  /\ inv_records svc (sys_world s)
  /\ inv_files (sys_world s)
  /\ inv_order svc (sys_world s)
  /\ inv_tasks svc s.

(** ** Status order, whatever fails *)

(** The writes to Redis in a trace: key and status, oldest first. *)
Definition sets_written (tr : list event) : list (string * string) :=
  omap (fun e => match e with
                 | EvSet k value _ => Some (k, jd_status value)
                 | _ => None
                 end) tr.

(** A computation that, whatever fails, only adds to the trace and writes
    nothing to Redis. *)
Definition quiet {A} (m : M A) : Prop :=
  forall w, exists evs,
    trace (snd (m w)) = trace w ++ evs /\ sets_written evs = [].

(** A computation that, whatever fails, only adds to the trace, and whose
    answer and writes to Redis satisfy [Q]. *)
Definition writes {A} (m : M A)
    (Q : result A -> list (string * string) -> Prop) : Prop :=
  forall w, exists evs,
    trace (snd (m w)) = trace w ++ evs /\ Q (fst (m w)) (sets_written evs).

(** The status values written for a job, by the phase of its executor,
    when store operations may fail. *)
Definition phase_statuses_any (ph : option phase) (l : list string) : Prop :=
  match ph with
  | None => l = []
  | Some (Queued _) => l = ["pending"]
  | Some (Running _ _) => l = ["pending"; "processing"]
  | Some Finished =>
      l = ["pending"] \/ l = ["pending"; "failed"]
      \/ l = ["pending"; "processing"]
      \/ l = ["pending"; "processing"; "completed"]
      \/ l = ["pending"; "processing"; "failed"]
  end.

Definition inv_statuses (svc : service) (s : system) : Prop :=
  forall j,
    phase_statuses_any (sys_tasks s !! j)
      (statuses_written (job_key svc j) (trace (sys_world s))).

(** A computation that, whatever fails, only adds to the trace, and whose
    writes to Redis are all made with the expiry of the services. *)
Definition expiring {A} (m : M A) : Prop :=
  forall w, exists evs,
    trace (snd (m w)) = trace w ++ evs
    /\ Forall (fun ex => ex = JOB_EXPIRY_SECONDS) (expiries_written evs).

(** ** Sample runs *)

(** The text "Hello world". *)
Definition hello : pystr :=
  [72; 101; 108; 108; 111; 32; 119; 111; 114; 108; 100]%N.

Definition hello_request : SynthesisRequest :=
  {| req_text := hello; req_voice := None; req_model_id := None;
     req_prefer_phonemes := None; req_reading_profile := None |}.

(** Three spaces. *)
Definition blank_request : SynthesisRequest :=
  {| req_text := [32; 32; 32]%N; req_voice := None; req_model_id := None;
     req_prefer_phonemes := None; req_reading_profile := None |}.

Definition hello_stream : edge_stream :=
  {| stream_chunks :=
       [AudioChunk [x49; x44; x33]%byte;
        WordBoundary "Hello" 1000000 3500000;
        AudioChunk [xff; xfb]%byte;
        WordBoundary "world" 5000000 4000000];
     stream_raised := None |}.

(** The stream breaks with a message before any audio. *)
Definition broken_stream : edge_stream :=
  {| stream_chunks := []; stream_raised := Some "Connection reset by peer" |}.

(** The stream yields one audio chunk without a byte, and ends. *)
Definition silent_stream : edge_stream :=
  {| stream_chunks := [AudioChunk []]; stream_raised := None |}.

(** espeak-ng exits with 0 and leaves a file of four bytes. *)
Definition hello_wav : espeak_run :=
  {| phonemes := None;
     run_exit := Exited 0 (Some [x52; x49; x46; x46]%byte) |}.

(** The edge service after [create_job] for "Hello world". *)
Definition pending_world : world :=
  snd (create_job edge_service hello_request "job-1" "2024-05-01T10:00:00"
         empty_world).

(** ... and after the executor ran, with each of the three streams. *)
Definition completed_world : world :=
  snd (process_job_with_new_redis edge_service "job-1" hello
         "en-US-AriaNeural" false hello_stream pending_world).

Definition failed_world : world :=
  snd (process_job_with_new_redis edge_service "job-1" hello
         "en-US-AriaNeural" false broken_stream pending_world).

Definition silent_world : world :=
  snd (process_job_with_new_redis edge_service "job-1" hello
         "en-US-AriaNeural" false silent_stream pending_world).

(** The same run as steps of the system. *)
Definition hello_run : list (label edge_service) :=
  [DoCreate edge_service hello_request "job-1" "2024-05-01T10:00:00";
   DoStatus edge_service "job-1";
   DoAccept edge_service "job-1";
   DoTick edge_service 2;
   DoSynthesize edge_service "job-1" hello_stream;
   DoAudio edge_service "job-1" "job-1-seg-0"].

Definition hello_system : system :=
  default (boot 0 []) (sys_run edge_service hello_run (boot 0 [])).

(** A run in which Redis fails at the executor's [processing] write. *)
Definition refused_run : list (label edge_service) :=
  [DoCreate edge_service hello_request "job-1" "2024-05-01T10:00:00";
   DoAccept edge_service "job-1"].

Definition refused_failures : list (option string) :=
  [None; None; Some "Connection reset by peer"].

Definition refused_system : system :=
  default (boot 0 refused_failures)
    (sys_run edge_service refused_run (boot 0 refused_failures)).

(** ** Lines and words *)

(** [s.split(sep)] for a separator of one character: the pieces between
    the separators, empty ones included. *)
Fixpoint split_on (sep : N) (s : pystr) : list pystr :=
  match s with
  | [] => [[]]
  | c :: rest =>
      if (c =? sep)%N then [] :: split_on sep rest
      else match split_on sep rest with
           | line :: more => (c :: line) :: more
           | [] => [[c]]
           end
  end.

(** [s.split()]: the maximal runs of characters that are not white
    space. *)
Fixpoint split (s : pystr) : list pystr :=
  match s with
  | [] => []
  | c :: rest =>
      if isspace c then split rest
      else match rest with
           | [] => [[c]]
           | d :: _ =>
               if isspace d then [c] :: split rest
               else match split rest with
                    | word :: more => (c :: word) :: more
                    | [] => [[c]]
                    end
           end
  end.

(** The other direction, to state what the parsers read: words joined by
    one space, lines joined by one line feed. *)
Fixpoint unwords (words : list pystr) : pystr :=
  match words with
  | [] => []
  | [word] => word
  | word :: more => word ++ 32%N :: unwords more
  end.

Fixpoint unlines (lines : list pystr) : pystr :=
  match lines with
  | [] => []
  | [line] => line
  | line :: more => line ++ 10%N :: unlines more
  end.

(** A word: not empty, and free of white space. *)
Definition is_word (s : pystr) : bool :=
  negb (bool_decide (s = [])) && forallb (fun c => negb (isspace c)) s.

(** ** What only the edge service has *)

Module Edge.

(** What [edge_tts.list_voices()] gives: the voices, each a dictionary, or
    an exception. *)
Variant voices_outcome :=
  | Voices (voices : list (gmap string string))
  | VoicesFailed (msg : string).

Record VoiceInfo := MkVoiceInfo {
  id : string;
  name : string;
  short_name : string;
  gender : string;
  locale : string;
}.

Record voices_response := VoicesResponse {
  voices : list VoiceInfo;
  count : nat;
}.

(** [v[key]]: a missing key raises [KeyError(key)], whose text is the key
    between quotes. *)
Definition getitem (v : gmap string string) (key : string) : M string :=
  match v !! key with
  | Some x => ret x
  | None => raise (Exception ("'" +:+ key +:+ "'"))
  end.

(** The loop of [list_voices]. *)
Fixpoint voices_loop (voices : list (gmap string string))
    (result : list VoiceInfo) : M (list VoiceInfo) :=
  match voices with
  | [] => ret result
  | v :: rest =>
      let* i := getitem v "ShortName" in
      let* n := getitem v "FriendlyName" in
      let* s := getitem v "ShortName" in
      let* g := getitem v "Gender" in
      let* l := getitem v "Locale" in
      voices_loop rest
        (result ++ [{| id := i; name := n; short_name := s; gender := g;
                       locale := l |}])
  end.

Definition list_voices (o : voices_outcome) : M voices_response :=
  try_except
    (let* voices :=
       match o with
       | Voices vs => ret vs
       | VoicesFailed msg => raise (Exception msg)
       end in
     let* result := voices_loop voices [] in
     ret {| voices := result; count := length result |})
    (fun e =>
       raise (HTTPException 500 ("Failed to list voices: " +:+ str e))).

(** The fields that [list_voices] reads are all in the dictionary. *)
Definition has_fields (v : gmap string string) : bool :=
  forallb (fun key => bool_decide (is_Some (v !! key)))
          ["ShortName"; "FriendlyName"; "Gender"; "Locale"].

(** [process_job], the executor on the shared connection: the voice is
    the one it is called with, and its [except] clause is not guarded. *)
Definition process_job (svc : service) (job_id : string) (text : pystr)
    (voice : string) (o : edge_stream) : M unit :=
  try_except
    (let* job_data := get_job svc job_id in
     match job_data with
     | None => ret tt
     | Some job_data =>
         let job_data := set_status "processing" job_data in
         store_job svc job_id job_data >>
         let segment_id := generate_segment_id job_id 0 in
         let output_path := get_cache_path svc job_id segment_id in
         let* (success, word_timings) :=
           synthesize_text_with_timing text voice output_path o in
         let* there :=
           (if success then path_exists output_path else ret false) in
         let* job_data :=
           if there then
             let* file_size := stat_size output_path in
             ret (set_segments
                    [{| seg_id := segment_id;
                        seg_index := 0;
                        seg_status := "completed";
                        seg_audio_url :=
                          "/v1/tts/jobs/" +:+ job_id +:+ "/segments/"
                          +:+ segment_id +:+ "/audio";
                        seg_file_size := file_size;
                        seg_format := "audio/mpeg";
                        seg_word_timings := Some word_timings |}]
                    (set_status "completed" job_data))
           else
             ret (set_error "Synthesis failed" (set_status "failed" job_data)) in
         store_job svc job_id job_data
     end)
    (fun e =>
       let* job_data := get_job svc job_id in
       match job_data with
       | Some job_data =>
           store_job svc job_id
             (set_error (str e) (set_status "failed" job_data))
       | None => ret tt
       end).

End Edge.

(** ** What only the espeak service has *)

Module Espeak.

(** What [subprocess.run(['espeak-ng', '--voices'], ...)] gives: the exit
    code with the captured output, or an exception (time-out, no such
    program). *)
Variant voices_run :=
  | VoicesExited (returncode : Z) (stdout : pystr)
  | VoicesRunFailed (msg : string).

Record VoiceInfo := MkVoiceInfo {
  id : pystr;
  name : pystr;
  language : pystr;
}.

Record voices_response := VoicesResponse {
  voices : list VoiceInfo;
  count : nat;
}.

(** One line of the table: priority, language, age and gender, voice
    name, file, other languages. *)
Definition voice_of_line (line : pystr) : option VoiceInfo :=
  let parts := split line in
  if (4 <=? length parts)%nat then
    let language := nth 1 parts [] in
    let voice_name := nth 3 parts [] in
    Some {| id := voice_name; name := voice_name; language := language |}
  else None.

Definition get_available_voices (o : voices_run) : list VoiceInfo :=
  match o with
  | VoicesRunFailed _ => []
  | VoicesExited returncode stdout =>
      if negb (returncode =? 0) then []
      else
        let lines := split_on 10 (strip stdout) in
        omap voice_of_line (tail lines)
  end.

Definition list_voices (o : voices_run) : M voices_response :=
  try_except
    (let voices := get_available_voices o in
     ret {| voices := voices; count := length voices |})
    (fun e =>
       raise (HTTPException 500 ("Failed to list voices: " +:+ str e))).

(** What the phonemize API answers to the request of
    [convert_text_to_phonemes]: a status and a body, read only when the
    status is 200 (a JSON object of strings, [None] when it does not
    parse); or the request times out, or fails otherwise. *)
Variant phonemize_outcome :=
  | Responded (status : Z) (json : option (gmap string pystr))
  | TimedOut
  | RequestFailed (msg : string).

Definition convert_text_to_phonemes (text : pystr) (o : phonemize_outcome)
    : option pystr :=
  match o with
  | Responded status json =>
      if status =? 200 then
        match json with
        | Some data =>
            match data !! "phonemes" with
            | Some (c :: phonemes) => Some (c :: phonemes)
            | _ => None
            end
        | None => None
        end
      else None
  | TimedOut => None
  | RequestFailed _ => None
  end.

(** [get_job_audio]: the audio of the whole job, which is that of its
    first segment. *)
Definition get_job_audio (svc : service) (job_id : string) : M FileResponse :=
  let* job_data := get_job svc job_id in
  match job_data with
  | None => raise (HTTPException 404 "Job not found")
  | Some job_data =>
      if negb (String.eqb (jd_status job_data) "completed") then
        raise (HTTPException 400
                 ("Job is " +:+ jd_status job_data +:+ ", not completed"))
      else
        match jd_segments job_data with
        | [] => raise (HTTPException 404 "No segments found")
        | first :: _ =>
            let segment_id := seg_id first in
            let audio_path := get_cache_path svc job_id segment_id in
            let* there := path_exists audio_path in
            if negb there then
              raise (HTTPException 404 "Audio file not found")
            else
              ret {| fr_path := audio_path;
                     fr_media_type := "audio/wav";
                     fr_filename := job_id +:+ ".wav" |}
        end
  end.

End Espeak.

(** ** Reasoning about a computation whatever fails *)

(** [Q] holds of the answer and of the world that [m] leaves. *)
Definition wp {A} (m : M A) (Q : result A -> world -> Prop) (w : world)
    : Prop :=
  Q (fst (m w)) (snd (m w)).

(** The store of a world: Redis, the cache directory and the clock, as
    against the failure schedule and the trace. *)
Definition same_store (w w' : world) : Prop :=
  redis w' = redis w /\ fs w' = fs w /\ clock w' = clock w.

(** What a computation does to the store when it works on the file at
    [p] only and does not remove it: Redis, the clock and the other files
    are as they were. *)
Definition touches_only (p : string) (w w' : world) : Prop :=
  redis w' = redis w /\ clock w' = clock w
  /\ (forall q, q <> p -> fs w' !! q = fs w !! q)
  /\ (is_Some (fs w !! p) -> is_Some (fs w' !! p)).


(** ** The shape of the stored records *)

(** The record of job [j] as the services write it: with the job's id
    and a voice; not yet finished, it lists no segment and has no error;
    [failed], it has an error and lists no segment; [completed], it has no
    error and lists the one segment of the job, in the format of the
    service. *)
Definition record_shape (svc : service) (j : string) (jd : job_data) : Prop :=
  jd_job_id jd = j
  /\ is_Some (jd_voice jd)
  /\ ((jd_status jd = "pending" \/ jd_status jd = "processing")
      /\ jd_segments jd = [] /\ jd_error jd = None
      \/ jd_status jd = "failed"
         /\ jd_segments jd = [] /\ is_Some (jd_error jd)
      \/ jd_status jd = "completed" /\ jd_error jd = None
         /\ exists file_size word_timings,
              0 <= file_size
              /\ (engine svc = EspeakNG -> 0 < file_size)
              /\ jd_segments jd
                 = [completed_segment svc j (generate_segment_id j 0)
                      file_size word_timings]).

(** Records exist for created jobs only and have the shape above; while
    the executor of a job has not started the record is [pending], and
    while the executor is suspended the record is the executor's own
    [processing] copy. *)
Definition inv_shape (svc : service) (s : system) : Prop :=
  forall j,
    match sys_tasks s !! j with
    | None => redis (sys_world s) !! job_key svc j = None
    | Some ph =>
        (forall jd expires,
           redis (sys_world s) !! job_key svc j = Some (jd, expires) ->
           record_shape svc j jd
           /\ match ph with
              | Queued _ => jd_status jd = "pending"
              | Running _ copy => jd = copy
              | Finished => True
              end)
        /\ match ph with
           | Running _ copy =>
               record_shape svc j copy /\ jd_status copy = "processing"
           | _ => True
           end
    end.

(** The size that a record gives for a segment is the size of the
    segment's file, as long as the file is there. *)
Definition inv_sizes (svc : service) (w : world) : Prop :=
  forall j jd expires seg data,
    redis w !! job_key svc j = Some (jd, expires) ->
    seg ∈ jd_segments jd ->
    fs w !! seg_path svc j = Some data ->
    seg_file_size seg = Z.of_nat (length data).

Definition inv_store (svc : service) (s : system) : Prop :=
  inv_shape svc s /\ inv_sizes svc (sys_world s).

(** The state of a job that is over: its executor has finished, its
    record, if it is still served, lists no segment, and a file is at its
    cache path. *)
Definition forgotten (svc : service) (j : string) (data : list byte)
    (s : system) : Prop :=
  sys_tasks s !! j = Some Finished
  /\ (forall jd, live (sys_world s) (job_key svc j) = Some jd ->
                 jd_segments jd = [])
  /\ fs (sys_world s) !! seg_path svc j = Some data.


(** ** Handlers that overlap *)

(** A request handler gives way at each [await], and the executors run in
    threads of their own.  [delete_job] awaits Redis once more after it has
    removed the files, and [get_segment_audio] looks for the file after it
    has awaited the record: other handlers and executors can run in
    between.  The steps of [sys_step] are the handlers run from end to
    end; here come the two that are suspended on the way. *)
Variant suspended :=
  | Deleting (job_id : string)
  | Serving (job_id segment_id : string) (job_data : option job_data).

Record overlapped := Overlapped {
  ov_system : system;
  ov_suspended : list suspended;
}.

(** Is the event the removal of the file at [path]? *)
Definition is_unlink (path : string) (e : event) : bool :=
  match e with
  | EvUnlink p => String.eqb p path
  | _ => false
  end.

Section Overlap.

Context (svc : service).

Variant ov_label :=
  | Whole (l : label svc)
  | DeleteFiles (job_id : string)
  | ReadRecord (job_id segment_id : string)
  | Resume (i : nat).

Definition ov_world (w : world) (s : overlapped) : system :=
  {| sys_world := w; sys_tasks := sys_tasks (ov_system s) |}.

(** One step: a step of [sys_step]; or [delete_job] up to its second
    [await], suspended there unless it has raised; or [get_segment_audio]
    up to the answer of Redis, suspended there with the record it has
    read unless the read has raised; or the [i]-th suspended handler
    running to its end. *)
Definition ov_step (l : ov_label) (s : overlapped) : option overlapped :=
  let w := sys_world (ov_system s) in
  match l with
  | Whole l =>
      match sys_step svc l (ov_system s) with
      | Some s' => Some {| ov_system := s'; ov_suspended := ov_suspended s |}
      | None => None
      end
  | DeleteFiles job_id =>
      match delete_job_files svc job_id w with
      | (Ok _, w') =>
          Some {| ov_system := ov_world w' s;
                  ov_suspended := ov_suspended s ++ [Deleting job_id] |}
      | (Raise _, w') =>
          Some {| ov_system := ov_world w' s;
                  ov_suspended := ov_suspended s |}
      end
  | ReadRecord job_id segment_id =>
      match get_job svc job_id w with
      | (Ok job_data, w') =>
          Some {| ov_system := ov_world w' s;
                  ov_suspended :=
                    ov_suspended s ++ [Serving job_id segment_id job_data] |}
      | (Raise _, w') =>
          Some {| ov_system := ov_world w' s;
                  ov_suspended := ov_suspended s |}
      end
  | Resume i =>
      match ov_suspended s !! i with
      | Some (Deleting job_id) =>
          Some {| ov_system :=
                    ov_world (snd (delete_job_record svc job_id w)) s;
                  ov_suspended := delete i (ov_suspended s) |}
      | Some (Serving job_id segment_id job_data) =>
          Some {| ov_system :=
                    ov_world
                      (snd (serve_segment svc job_id segment_id job_data w)) s;
                  ov_suspended := delete i (ov_suspended s) |}
      | None => None
      end
  end.

Fixpoint ov_run (ls : list ov_label) (s : overlapped) : option overlapped :=
  match ls with
  | [] => Some s
  | l :: rest =>
      match ov_step l s with
      | Some s' => ov_run rest s'
      | None => None
      end
  end.

(** The service starts with no handler under way. *)
Definition ov_boot (t : Z) (failures : list (option string)) : overlapped :=
  {| ov_system := boot t failures; ov_suspended := [] |}.

(** Is the step a [delete_job] for the job, whole or up to its second
    [await]? *)
Definition deletes (job_id : string) (l : ov_label) : bool :=
  match l with
  | Whole (DoDelete _ j) | DeleteFiles j => String.eqb j job_id
  | _ => false
  end.

End Overlap.

(** A record that is sound for job [j]: its segments are the job's own
    and, when it is [completed], it lists one, whose file is in the cache
    directory unless it was removed from there. *)
Definition sound (svc : service) (j : string) (job_data : job_data)
    (w : world) : Prop :=
  segments_own svc j job_data
  /\ (jd_status job_data = "completed" ->
      jd_segments job_data <> []
      /\ (is_Some (fs w !! seg_path svc j)
          \/ existsb (is_unlink (seg_path svc j)) (trace w) = true)).

(** What holds of every state of the service with its handlers
    overlapping, when no store operation fails: the stored records and
    those that suspended handlers have read are sound. *)
Definition ov_inv (svc : service) (s : overlapped) : Prop :=
  let w := sys_world (ov_system s) in
  faults w = []
  /\ inv_files w /\ inv_order svc w
  /\ inv_tasks svc (ov_system s)
  /\ (forall j job_data expires,
        redis w !! job_key svc j = Some (job_data, expires) ->
        sound svc j job_data w)
  /\ (forall j segment_id job_data,
        Serving j segment_id (Some job_data) ∈ ov_suspended s ->
        sound svc j job_data w).

(** The records that suspended handlers have read have the shape of the
    stored ones. *)
Definition inv_copies (svc : service) (s : overlapped) : Prop :=
  forall j segment_id job_data,
    Serving j segment_id (Some job_data) ∈ ov_suspended s ->
    record_shape svc j job_data.

(** ** More sample runs *)

(** The code points of a text in ASCII. *)
Fixpoint pystr_of (s : string) : pystr :=
  match s with
  | EmptyString => []
  | String c rest => Ascii.N_of_ascii c :: pystr_of rest
  end.

(** "Hello world" between two spaces and a line feed, for the voice of
    [model_id]. *)
Definition padded_request : SynthesisRequest :=
  {| req_text := [32; 32]%N ++ hello ++ [10]%N;
     req_voice := Some "";
     req_model_id := Some "en-GB-SoniaNeural";
     req_prefer_phonemes := None;
     req_reading_profile := None |}.

(** The espeak service after [create_job] for "Hello world" and after the
    executor ran. *)
Definition espeak_run_labels : list (label espeak_service) :=
  [DoCreate espeak_service hello_request "job-1" "2024-05-01T10:00:00";
   DoAccept espeak_service "job-1";
   DoSynthesize espeak_service "job-1" hello_wav].

Definition espeak_system : system :=
  default (boot 0 [])
    (sys_run espeak_service espeak_run_labels (boot 0 [])).

(** The edge service one hour and a second after the run of
    "Hello world", and what clients may try then. *)
Definition expired_run : list (label edge_service) :=
  hello_run ++ [DoTick edge_service 3601].

Definition expired_system : system :=
  default (boot 0 []) (sys_run edge_service expired_run (boot 0 [])).

Definition late_run : list (label edge_service) :=
  [DoDelete edge_service "job-1";
   DoAudio edge_service "job-1" "job-1-seg-0";
   DoCreate edge_service hello_request "job-2" "2024-05-01T11:00:02";
   DoAccept edge_service "job-2";
   DoSynthesize edge_service "job-2" silent_stream;
   DoDelete edge_service "job-2"].

Definition late_system : system :=
  default (boot 0 []) (sys_run edge_service late_run expired_system).

(** What clients may do after the run of "Hello world". *)
Definition reading_run : list (label edge_service) :=
  [DoStatus edge_service "job-1";
   DoTick edge_service 10;
   DoAudio edge_service "job-1" "job-1-seg-0"].

Definition reading_system : system :=
  default (boot 0 []) (sys_run edge_service reading_run hello_system).





(** After the run of "Hello world" a client asks for the audio and
    another one for the deletion of the job; the first has the record, the
    second has removed the file, and both await Redis. *)
Definition overlapping_run : list (ov_label edge_service) :=
  map (Whole edge_service) hello_run
  ++ [ReadRecord edge_service "job-1" "job-1-seg-0";
      DeleteFiles edge_service "job-1"].

Definition overlapping_system : overlapped :=
  default (ov_boot 0 []) (ov_run edge_service overlapping_run (ov_boot 0 [])).

(** After the run of "Hello world" a client asks for the audio, and time
    passes before Redis answers. *)
Definition served_run : list (ov_label edge_service) :=
  map (Whole edge_service) hello_run
  ++ [ReadRecord edge_service "job-1" "job-1-seg-0";
      Whole edge_service (DoTick edge_service 1)].

Definition served_system : overlapped :=
  default (ov_boot 0 []) (ov_run edge_service served_run (ov_boot 0 [])).

(** A table as [espeak-ng --voices] prints it, with a line that is too
    short. *)
Definition voices_header : pystr :=
  pystr_of "Pty Language Age/Gender VoiceName File Other Languages".

Definition voices_rows : list (list pystr) :=
  [map pystr_of ["5"; "af"; "--/M"; "Afrikaans"; "gmw/af"];
   map pystr_of ["2"; "en-gb"];
   map pystr_of ["2"; "en-us"; "--/M"; "English_(America)"; "gmw/en-US";
                 "(en"; "3)"]].

(** * Properties *)

(** ** White space *)

Lemma lstrip_nil_iff (s : pystr) : lstrip s = [] <-> forallb isspace s = true.
Proof.
  induction s as [|c s IH]; cbn; [tauto|].
  destruct (isspace c); cbn; [exact IH|]. split; discriminate.
Qed.

Lemma forallb_lstrip (s : pystr) :
  forallb isspace (lstrip s) = forallb isspace s.
Proof.
  induction s as [|c s IH]; cbn; [reflexivity|].
  destruct (isspace c) eqn:E; cbn; [exact IH|]. now rewrite E.
Qed.

Lemma forallb_rev {A} (f : A -> bool) (l : list A) :
  forallb f (rev l) = forallb f l.
Proof.
  induction l as [|x l IH]; cbn; [reflexivity|].
  rewrite forallb_app, IH. cbn. rewrite andb_true_r. apply andb_comm.
Qed.

Lemma rstrip_nil_iff (s : pystr) : rstrip s = [] <-> forallb isspace s = true.
Proof.
  unfold rstrip. rewrite <- (forallb_rev isspace s), <- lstrip_nil_iff.
  split; intros H.
  - apply (f_equal (@rev N)) in H. now rewrite rev_involutive in H.
  - now rewrite H.
Qed.

Lemma strip_nil_iff (s : pystr) : strip s = [] <-> forallb isspace s = true.
Proof. unfold strip. now rewrite rstrip_nil_iff, forallb_lstrip. Qed.

(** The test of [create_job]: the text is refused exactly when it is empty
    or white space only. *)
Lemma blank_rejected (s : pystr) :
  bool_decide (s = []) || bool_decide (strip s = []) = forallb isspace s.
Proof.
  destruct (forallb isspace s) eqn:E.
  - apply strip_nil_iff in E.
    rewrite (bool_decide_true (strip s = [])) by exact E.
    apply orb_true_r.
  - apply orb_false_iff. split; apply bool_decide_false; intros H.
    + subst s. discriminate.
    + apply strip_nil_iff in H. congruence.
Qed.

(** ** Keys and paths *)

Lemma append_inj_r (p a b : string) : p +:+ a = p +:+ b -> a = b.
Proof.
  induction p as [|c p IH]; intros H; [exact H|].
  change (String c (p +:+ a) = String c (p +:+ b)) in H.
  injection H. exact IH.
Qed.

Lemma append_length (a b : string) :
  String.length (a +:+ b) = (String.length a + String.length b)%nat.
Proof. induction a as [|c a IH]; simpl; [reflexivity|]. now rewrite IH. Qed.

Lemma append_inj_l (s a b : string) : a +:+ s = b +:+ s -> a = b.
Proof.
  revert b. induction a as [|c a IH]; intros [|d b] H.
  - reflexivity.
  - apply (f_equal String.length) in H. rewrite !append_length in H.
    cbn [String.length] in H. lia.
  - apply (f_equal String.length) in H. rewrite !append_length in H.
    cbn [String.length] in H. lia.
  - change (String c (a +:+ s) = String d (b +:+ s)) in H.
    injection H as -> H. f_equal. auto.
Qed.

Lemma job_key_inj svc (a b : string) : job_key svc a = job_key svc b -> a = b.
Proof. apply append_inj_r. Qed.

Lemma generate_segment_id_inj (a b : string) (i : Z) :
  generate_segment_id a i = generate_segment_id b i -> a = b.
Proof. apply append_inj_l. Qed.

Lemma get_cache_path_inj svc (j j' a b : string) :
  get_cache_path svc j a = get_cache_path svc j' b -> a = b.
Proof.
  unfold get_cache_path. intros H.
  apply append_inj_r in H. apply append_inj_r in H. now apply append_inj_l in H.
Qed.

(** The file of a job's segment belongs to that job alone. *)
Lemma segment_path_inj svc (a b : string) :
  get_cache_path svc a (generate_segment_id a 0)
  = get_cache_path svc b (generate_segment_id b 0) -> a = b.
Proof.
  intros H. apply get_cache_path_inj in H.
  now apply generate_segment_id_inj in H.
Qed.

(** ** The operations when no store failure is ahead *)

Ltac world_cbv :=
  cbv [bind ret raise try_except log fault r_get r_set r_delete path_exists
       stat_size open_wb write unlink engine_writes add_trace set_redis set_fs
       set_faults advance live redis fs clock faults trace].

Ltac no_faults w H :=
  let r := fresh "r" in let f := fresh "f" in let c := fresh "c" in
  let fl := fresh "fl" in let tr := fresh "tr" in
  destruct w as [r f c fl tr]; cbn in H; subst fl; world_cbv.

Lemma bind_ok {A B} (m : M A) (k : A -> M B) w a w1 :
  m w = (Ok a, w1) -> bind m k w = k a w1.
Proof. intros H. unfold bind. now rewrite H. Qed.

Lemma try_ok {A} (m : M A) (h : exn -> M A) w a w1 :
  m w = (Ok a, w1) -> try_except m h w = (Ok a, w1).
Proof. intros H. unfold try_except. now rewrite H. Qed.

Lemma r_get_nf k w :
  faults w = [] -> r_get k w = (Ok (live w k), add_trace [EvGet k] w).
Proof. intros H. no_faults w H. reflexivity. Qed.

Lemma r_set_nf k v ex w :
  faults w = [] ->
  r_set k v ex w
  = (Ok tt, set_redis (<[k := (v, clock w + ex)]> (redis w))
                      (add_trace [EvSet k v ex] w)).
Proof. intros H. no_faults w H. reflexivity. Qed.

Lemma r_delete_nf k w :
  faults w = [] ->
  r_delete k w
  = (Ok tt, set_redis (delete k (redis w)) (add_trace [EvDel k] w)).
Proof. intros H. no_faults w H. reflexivity. Qed.

Lemma path_exists_nf p w :
  faults w = [] ->
  path_exists p w
  = (Ok (bool_decide (is_Some (fs w !! p))), add_trace [EvExists p] w).
Proof. intros H. no_faults w H. reflexivity. Qed.

Lemma stat_size_nf p w data :
  faults w = [] -> fs w !! p = Some data ->
  stat_size p w = (Ok (Z.of_nat (length data)), add_trace [EvStat p] w).
Proof. intros H E. no_faults w H. cbn in E. rewrite E. reflexivity. Qed.

Lemma open_wb_nf p w :
  faults w = [] ->
  open_wb p w
  = (Ok tt, set_fs (<[p := []]> (fs w)) (add_trace [EvOpen p] w)).
Proof. intros H. no_faults w H. reflexivity. Qed.

Lemma write_nf p data w :
  faults w = [] ->
  write p data w
  = (Ok tt, set_fs (<[p := default [] (fs w !! p) ++ data]> (fs w))
                   (add_trace [EvWrite p data] w)).
Proof. intros H. no_faults w H. reflexivity. Qed.

Lemma unlink_nf p w data :
  faults w = [] -> fs w !! p = Some data ->
  unlink p w = (Ok tt, set_fs (delete p (fs w)) (add_trace [EvUnlink p] w)).
Proof. intros H E. no_faults w H. cbn in E. rewrite E. reflexivity. Qed.

(** A record just written is visible. *)
Lemma live_written k v w r :
  redis w = <[k := (v, clock w + JOB_EXPIRY_SECONDS)]> r -> live w k = Some v.
Proof.
  intros H. unfold live. rewrite H, lookup_insert_eq.
  unfold JOB_EXPIRY_SECONDS.
  destruct (Z.leb_spec (clock w) (clock w + 3600)); [reflexivity | lia].
Qed.

Lemma get_job_status_nf svc job_id w :
  faults w = [] ->
  get_job_status svc job_id w
  = (match live w (job_key svc job_id) with
     | Some job_data => Ok job_data
     | None => Raise (HTTPException 404 "Job not found")
     end, add_trace [EvGet (job_key svc job_id)] w).
Proof.
  intros H. unfold get_job_status, get_job.
  rewrite (bind_ok _ _ _ _ _ (r_get_nf _ _ H)).
  now destruct (live w (job_key svc job_id)).
Qed.

(** ** Create *)

(** C3. A request whose text is empty or white space only is refused with
    status 400 and leaves the world as it was, whatever the state of the
    store; any other request, the store working, stores a [pending] record
    under the new id and returns that id. *)
Theorem create_job_validates svc request new_id utcnow w :
  (forallb isspace (req_text request) = true ->
   create_job svc request new_id utcnow w
   = (Raise (HTTPException 400 "Text is required"), w))
  /\ (forallb isspace (req_text request) = false ->
      faults w = [] ->
      exists t job_data w',
        create_job svc request new_id utcnow w
        = (Ok ({| cr_job_id := new_id; cr_status := "pending";
                  cr_message := "Job created successfully" |}, t), w')
        /\ task_job_id t = new_id
        /\ redis w'
           = <[job_key svc new_id := (job_data, clock w + JOB_EXPIRY_SECONDS)]>
               (redis w)
        /\ jd_job_id job_data = new_id
        /\ jd_status job_data = "pending"
        /\ fst (get_job_status svc new_id w') = Ok job_data).
Proof.
  unfold create_job. rewrite blank_rejected. split; intros Hb; rewrite Hb.
  - reflexivity.
  - intros Hnf. unfold store_job.
    rewrite (bind_ok _ _ _ _ _ (r_set_nf _ _ _ _ Hnf)).
    eexists _, _, _. split; [reflexivity|].
    repeat split.
    rewrite get_job_status_nf by exact Hnf.
    erewrite live_written; reflexivity.
Qed.

(** ** The engines *)

Lemma world_eq r f c fl tr w :
  redis w = r -> fs w = f -> clock w = c -> faults w = fl -> trace w = tr ->
  w = {| redis := r; fs := f; clock := c; faults := fl; trace := tr |}.
Proof. destruct w. cbn. now intros -> -> -> -> ->. Qed.

(** Writing the chunks one after the other leaves their concatenation
    after what the file held. *)
Lemma for_each_write_nf p chunks :
  forall w data,
    faults w = [] -> fs w !! p = Some data ->
    for_each chunks (write p) w
    = (Ok tt, set_fs (<[p := data ++ concat chunks]> (fs w))
                     (add_trace (map (EvWrite p) chunks) w)).
Proof.
  induction chunks as [|c chunks IH]; intros w data Hnf Hp.
  - cbn. unfold ret. f_equal. apply world_eq; cbn; try reflexivity.
    + rewrite app_nil_r. symmetry. now apply insert_id.
    + now rewrite app_nil_r.
  - cbn [for_each]. rewrite (bind_ok _ _ _ _ _ (write_nf _ _ _ Hnf)).
    rewrite Hp. cbn [default].
    rewrite (IH _ (data ++ c)); [| exact Hnf | apply lookup_insert_eq].
    f_equal. unfold set_fs, add_trace. cbn. f_equal.
    + rewrite insert_insert_eq. now rewrite <- app_assoc.
    + now rewrite <- app_assoc.
Qed.

Lemma synthesize_text_with_timing_nf text voice p o w :
  faults w = [] ->
  synthesize_text_with_timing text voice p o w
  = match stream_raised o, audio_of (stream_chunks o) with
    | None, c :: rest =>
        (Ok (true, timings_of (stream_chunks o)),
         set_fs (<[p := concat (c :: rest)]> (fs w))
                (add_trace (EvSynth voice text :: EvOpen p
                            :: map (EvWrite p) (c :: rest)) w))
    | _, _ => (Ok (false, []), add_trace [EvSynth voice text] w)
    end.
Proof.
  intros Hnf. unfold synthesize_text_with_timing.
  destruct (stream_raised o) as [msg|].
  - reflexivity.
  - destruct (audio_of (stream_chunks o)) as [|c rest]; [reflexivity|].
    erewrite try_ok; [reflexivity|].
    rewrite (bind_ok _ _ _ tt (add_trace [EvSynth voice text] w)) by reflexivity.
    cbv beta iota.
    erewrite bind_ok by (apply open_wb_nf; exact Hnf).
    erewrite bind_ok;
      [| apply (for_each_write_nf p (c :: rest) _ []);
         [exact Hnf | apply lookup_insert_eq]].
    unfold ret. f_equal. unfold set_fs, add_trace. cbn. f_equal.
    + now rewrite insert_insert_eq.
    + now rewrite <- !app_assoc.
Qed.

Lemma synthesize_text_nf text voice p prefer_phonemes o w :
  faults w = [] ->
  synthesize_text text voice p prefer_phonemes o w
  = let synthesis_text :=
      if prefer_phonemes then
        match phonemes o with
        | Some (c :: ph) => c :: ph
        | _ => text
        end
      else text in
    match run_exit o with
    | Failed msg => (Ok false, add_trace [EvSynth voice synthesis_text] w)
    | Exited rc wav =>
        let w1 :=
          match wav with
          | Some data =>
              set_fs (<[p := data]> (fs w))
                     (add_trace [EvWrite p data]
                        (add_trace [EvSynth voice synthesis_text] w))
          | None => add_trace [EvSynth voice synthesis_text] w
          end in
        if negb (rc =? 0) then (Ok false, w1)
        else
          match fs w1 !! p with
          | Some data =>
              (Ok (0 <? Z.of_nat (length data)),
               add_trace [EvExists p; EvStat p] w1)
          | None => (Ok false, add_trace [EvExists p] w1)
          end
    end.
Proof.
  intros Hnf. unfold synthesize_text. cbv zeta.
  set (st := if prefer_phonemes then _ else text).
  destruct (run_exit o) as [rc wav | msg]; [|reflexivity].
  pose (w1 := match wav with
              | Some data =>
                  set_fs (<[p := data]> (fs w))
                         (add_trace [EvWrite p data]
                            (add_trace [EvSynth voice st] w))
              | None => add_trace [EvSynth voice st] w
              end).
  fold w1.
  assert (Hw1 : faults w1 = []) by (subst w1; now destruct wav).
  assert (Hrun : forall k : Z -> M bool,
    (log (EvSynth voice st) >>
     (let* returncode :=
        (match wav with
         | Some data => engine_writes p data
         | None => ret tt
         end >> ret rc) in k returncode)) w = k rc w1).
  { intros k. subst w1. destruct wav; reflexivity. }
  destruct (negb (rc =? 0)) eqn:Erc.
  - erewrite try_ok; [reflexivity|]. rewrite Hrun, Erc. reflexivity.
  - destruct (fs w1 !! p) as [data|] eqn:Ep.
    + erewrite try_ok; [reflexivity|]. rewrite Hrun, Erc.
      erewrite bind_ok by (apply path_exists_nf; exact Hw1).
      rewrite Ep. rewrite bool_decide_true by eauto.
      erewrite bind_ok by (eapply stat_size_nf; [exact Hw1 | exact Ep]).
      unfold ret, add_trace. cbn. now rewrite <- app_assoc.
    + erewrite try_ok; [reflexivity|]. rewrite Hrun, Erc.
      erewrite bind_ok by (apply path_exists_nf; exact Hw1).
      rewrite Ep. rewrite bool_decide_false by (intros [? ?]; discriminate).
      reflexivity.
Qed.

Lemma files_follow_refl f evs : files_follow f f evs.
Proof. split; auto. Qed.

Lemma files_follow_insert f p data evs :
  existsb (is_file_write p) evs = true ->
  files_follow f (<[p := data]> f) evs.
Proof.
  intros He. split; intros q Hq.
  - destruct (decide (p = q)) as [->|Hne].
    + rewrite lookup_insert_eq. eauto.
    + now rewrite lookup_insert_ne.
  - destruct (decide (p = q)) as [->|Hne].
    + now right.
    + left. now rewrite lookup_insert_ne in Hq.
Qed.

(** What a call of the engine does to the world, whatever the engine
    answers: Redis is not touched, no file is lost, a file that appears was
    written, and a reported success leaves a file at the output path (for
    espeak-ng a file that is not empty). *)
Lemma synthesize_nf svc text voice p prefer_phonemes
    (o : outcome (engine svc)) w :
  faults w = [] ->
  exists success word_timings w1 evs,
    synthesize svc text voice p prefer_phonemes o w
    = (Ok (success, word_timings), w1)
    /\ redis w1 = redis w /\ clock w1 = clock w /\ faults w1 = []
    /\ trace w1 = trace w ++ evs
    /\ forallb is_engine_event evs = true
    /\ existsb is_synth evs = true
    /\ files_follow (fs w) (fs w1) evs
    /\ (success = true ->
        exists data, fs w1 !! p = Some data
                     /\ (engine svc = EspeakNG -> (0 < length data)%nat)).
Proof.
  intros Hnf. destruct svc as [[] dir dv]; unfold synthesize; cbn in o |- *.
  - rewrite synthesize_text_with_timing_nf by exact Hnf.
    destruct (stream_raised o) as [msg|];
      [| destruct (audio_of (stream_chunks o)) as [|c rest] ].
    + eexists _, _, _, [_]. split; [reflexivity|].
      repeat split; auto using files_follow_refl; discriminate.
    + eexists _, _, _, [_]. split; [reflexivity|].
      repeat split; auto using files_follow_refl; discriminate.
    + eexists _, _, _, (_ :: _ :: map _ (_ :: _)). split; [reflexivity|].
      split; [reflexivity|]. split; [reflexivity|]. split; [exact Hnf|].
      split; [reflexivity|]. split; [|split; [|split]].
      * cbn. clear. induction rest as [|x rest IH]; [reflexivity|exact IH].
      * reflexivity.
      * apply files_follow_insert. cbn. now rewrite String.eqb_refl.
      * intros _. eexists. split; [apply lookup_insert_eq | discriminate].
  - unfold bind. rewrite synthesize_text_nf by exact Hnf. cbv zeta.
    set (st := if prefer_phonemes then _ else text).
    destruct (run_exit o) as [rc [wav|] | msg].
    + destruct (negb (rc =? 0)).
      * eexists _, _, _, [_; _]. split; [reflexivity|].
        split; [reflexivity|]. split; [reflexivity|]. split; [exact Hnf|].
        split; [cbn; now rewrite <- app_assoc|]. split; [reflexivity|].
        split; [reflexivity|]. split; [|discriminate].
        apply files_follow_insert. cbn. now rewrite String.eqb_refl.
      * cbn [fs set_fs]. rewrite lookup_insert_eq.
        eexists _, _, _, [_; _; _; _]. split; [reflexivity|].
        split; [reflexivity|]. split; [reflexivity|]. split; [exact Hnf|].
        split; [cbn; now rewrite <- !app_assoc|]. split; [reflexivity|].
        split; [reflexivity|]. split.
        -- apply files_follow_insert. cbn. now rewrite String.eqb_refl.
        -- intros Hs. eexists. split; [apply lookup_insert_eq|].
           intros _. apply Z.ltb_lt in Hs. lia.
    + destruct (negb (rc =? 0)).
      * eexists _, _, _, [_]. split; [reflexivity|].
        repeat split; auto using files_follow_refl; discriminate.
      * cbn [fs add_trace]. destruct (fs w !! p) as [data|] eqn:Ep.
        -- eexists _, _, _, [_; _; _]. split; [reflexivity|].
           split; [reflexivity|]. split; [reflexivity|]. split; [exact Hnf|].
           split; [cbn; now rewrite <- !app_assoc|]. split; [reflexivity|].
           split; [reflexivity|]. split; [apply files_follow_refl|].
           intros Hs. exists data. split; [exact Ep|].
           intros _. apply Z.ltb_lt in Hs. lia.
        -- eexists _, _, _, [_; _]. split; [reflexivity|].
           split; [reflexivity|]. split; [reflexivity|]. split; [exact Hnf|].
           split; [cbn; now rewrite <- !app_assoc|]. split; [reflexivity|].
           split; [reflexivity|]. split; [apply files_follow_refl|discriminate].
    + eexists _, _, _, [_]. split; [reflexivity|].
      repeat split; auto using files_follow_refl; discriminate.
Qed.

Lemma files_follow_more f f' evs more :
  files_follow f f' evs -> files_follow f f' (evs ++ more).
Proof.
  intros [H1 H2]. split; [exact H1|]. intros q Hq.
  destruct (H2 q Hq) as [?|He]; [now left|right].
  rewrite existsb_app, He. reflexivity.
Qed.

Lemma expiries_written_app a b :
  expiries_written (a ++ b) = expiries_written a ++ expiries_written b.
Proof. apply omap_app. Qed.

Lemma statuses_written_app k a b :
  statuses_written k (a ++ b) = statuses_written k a ++ statuses_written k b.
Proof. apply omap_app. Qed.

(** ** The executor *)

(** The second half of the executor when no store failure is ahead: it
    always writes a terminal record under the job's key, with the full
    expiry; the record is [completed] only with the segment's file in
    place. *)
Lemma run_synthesis_nf svc job_id text prefer_phonemes job_data
    (o : outcome (engine svc)) w :
  faults w = [] ->
  exists job_data' w' evs,
    run_synthesis svc job_id text prefer_phonemes job_data o w = (Ok tt, w')
    /\ redis w'
       = <[job_key svc job_id := (job_data', clock w + JOB_EXPIRY_SECONDS)]>
           (redis w)
    /\ clock w' = clock w /\ faults w' = []
    /\ trace w'
       = trace w ++ evs
         ++ [EvSet (job_key svc job_id) job_data' JOB_EXPIRY_SECONDS]
    /\ forallb is_engine_event evs = true
    /\ existsb is_synth evs = true
    /\ files_follow (fs w) (fs w') evs
    /\ ((exists data word_timings,
           job_data'
           = set_segments
               [completed_segment svc job_id (generate_segment_id job_id 0)
                  (Z.of_nat (length data)) word_timings]
               (set_status "completed" job_data)
           /\ fs w' !! get_cache_path svc job_id (generate_segment_id job_id 0)
              = Some data
           /\ (engine svc = EspeakNG -> (0 < length data)%nat))
        \/ job_data' = set_error "Synthesis failed" (set_status "failed" job_data)).
Proof.
  intros Hnf. unfold run_synthesis. cbv zeta.
  set (p := get_cache_path svc job_id (generate_segment_id job_id 0)).
  destruct (synthesize_nf svc text (default (DEFAULT_VOICE svc) (jd_voice job_data))
              p prefer_phonemes o w Hnf)
    as (success & wt & w1 & evs & Hs & Hr & Hc & Hf & Ht & He & Hsy & Hff
        & Hok).
  erewrite bind_ok by exact Hs. cbv beta iota.
  destruct success.
  - destruct (Hok eq_refl) as (data & Hdata & Hlen).
    erewrite bind_ok by (apply path_exists_nf; exact Hf).
    rewrite Hdata, bool_decide_true by eauto.
    erewrite bind_ok;
      [| erewrite bind_ok by (eapply stat_size_nf; [exact Hf | exact Hdata]);
         reflexivity].
    rewrite r_set_nf by exact Hf.
    eexists _, _, (evs ++ [EvExists p; EvStat p]). split; [reflexivity|].
    cbn. rewrite Hr, Hc, Ht.
    split; [reflexivity|]. split; [reflexivity|]. split; [exact Hf|].
    split; [now rewrite <- !app_assoc|].
    split; [rewrite forallb_app, He; reflexivity|].
    split; [rewrite existsb_app, Hsy; reflexivity|].
    split; [now apply files_follow_more|].
    left. exists data, wt. auto.
  - erewrite bind_ok by reflexivity.
    erewrite bind_ok by reflexivity.
    rewrite r_set_nf by exact Hf.
    eexists _, _, evs. split; [reflexivity|].
    cbn. rewrite Hr, Hc, Ht.
    split; [reflexivity|]. split; [reflexivity|]. split; [exact Hf|].
    split; [now rewrite <- !app_assoc|].
    split; [exact He|]. split; [exact Hsy|]. split; [exact Hff|]. now right.
Qed.

(** The first half: an absent record ends the executor; a visible one is
    written back as [processing] with the full expiry. *)
Lemma accept_job_nf svc job_id w :
  faults w = [] ->
  accept_job svc job_id w
  = match live w (job_key svc job_id) with
    | None => (Ok None, add_trace [EvGet (job_key svc job_id)] w)
    | Some job_data =>
        (Ok (Some (set_status "processing" job_data)),
         set_redis
           (<[job_key svc job_id
              := (set_status "processing" job_data,
                  clock w + JOB_EXPIRY_SECONDS)]> (redis w))
           (add_trace [EvSet (job_key svc job_id)
                         (set_status "processing" job_data)
                         JOB_EXPIRY_SECONDS]
              (add_trace [EvGet (job_key svc job_id)] w)))
    end.
Proof.
  intros Hnf. unfold accept_job. cbv zeta.
  erewrite bind_ok by (apply r_get_nf; exact Hnf).
  destruct (live w (job_key svc job_id)) as [jd|]; [|reflexivity].
  erewrite bind_ok by (apply r_set_nf; exact Hnf). reflexivity.
Qed.

(** ** The handlers when no store failure is ahead *)

Lemma get_segment_audio_nf svc job_id segment_id w :
  faults w = [] ->
  get_segment_audio svc job_id segment_id w
  = let key := job_key svc job_id in
    let audio_path := get_cache_path svc job_id segment_id in
    match live w key with
    | None =>
        (Raise (HTTPException 404 "Job not found"), add_trace [EvGet key] w)
    | Some job_data =>
        if negb (String.eqb (jd_status job_data) "completed") then
          (Raise (HTTPException 400
                    ("Job is " +:+ jd_status job_data +:+ ", not completed")),
           add_trace [EvGet key] w)
        else
          match find (fun seg => String.eqb (seg_id seg) segment_id)
                     (jd_segments job_data) with
          | None =>
              (Raise (HTTPException 404 "Segment not found"),
               add_trace [EvGet key] w)
          | Some _ =>
              (if bool_decide (is_Some (fs w !! audio_path)) then
                 Ok {| fr_path := audio_path;
                       fr_media_type := media_type svc;
                       fr_filename := segment_id +:+ cache_ext svc |}
               else Raise (HTTPException 404 "Audio file not found"),
               add_trace [EvExists audio_path] (add_trace [EvGet key] w))
          end
    end.
Proof.
  intros Hnf. unfold get_segment_audio, get_job. cbv zeta.
  erewrite bind_ok by (apply r_get_nf; exact Hnf).
  destruct (live w (job_key svc job_id)) as [jd|]; [|reflexivity].
  destruct (negb (String.eqb (jd_status jd) "completed")); [reflexivity|].
  destruct (find _ (jd_segments jd)); [|reflexivity].
  erewrite bind_ok by (apply path_exists_nf; exact Hnf).
  cbn [fs add_trace].
  now destruct (bool_decide (is_Some (fs w !! get_cache_path svc job_id segment_id))).
Qed.

Lemma delete_loop_nf svc job_id segs :
  forall w,
    faults w = [] ->
    for_each segs (fun seg =>
      let audio_path := get_cache_path svc job_id (seg_id seg) in
      let* there := path_exists audio_path in
      if there then unlink audio_path else ret tt) w
    = (Ok tt, set_fs (fst (delete_files svc job_id segs (fs w)))
                     (add_trace (snd (delete_files svc job_id segs (fs w))) w)).
Proof.
  induction segs as [|seg segs IH]; intros w Hnf.
  - cbn. unfold ret. f_equal. apply world_eq; cbn; try reflexivity.
    now rewrite app_nil_r.
  - cbn [for_each delete_files]. cbv zeta.
    set (p := get_cache_path svc job_id (seg_id seg)).
    destruct (fs w !! p) as [data|] eqn:Ep.
    + erewrite bind_ok;
        [| erewrite bind_ok by (apply path_exists_nf; exact Hnf);
           rewrite Ep, bool_decide_true by eauto;
           eapply unlink_nf; [exact Hnf | exact Ep] ].
      rewrite bool_decide_true by eauto.
      rewrite IH by exact Hnf. cbn [fs set_fs add_trace].
      destruct (delete_files svc job_id segs (delete p (fs w))) as [f' evs].
      cbn. f_equal. unfold set_fs, add_trace. cbn. f_equal.
      now rewrite <- !app_assoc.
    + erewrite bind_ok;
        [| erewrite bind_ok by (apply path_exists_nf; exact Hnf);
           rewrite Ep, bool_decide_false by (intros [? ?]; discriminate);
           reflexivity ].
      rewrite bool_decide_false by (intros [? ?]; discriminate).
      rewrite IH by exact Hnf. cbn [fs set_fs add_trace].
      destruct (delete_files svc job_id segs (fs w)) as [f' evs].
      cbn. f_equal. unfold set_fs, add_trace. cbn. f_equal.
      now rewrite <- !app_assoc.
Qed.

Lemma delete_job_nf svc job_id w :
  faults w = [] ->
  delete_job svc job_id w
  = let key := job_key svc job_id in
    match live w key with
    | None =>
        (Raise (HTTPException 404 "Job not found"), add_trace [EvGet key] w)
    | Some job_data =>
        let d := delete_files svc job_id (jd_segments job_data) (fs w) in
        (Ok "Job deleted successfully",
         set_redis (delete key (redis w))
           (add_trace [EvDel key]
              (set_fs (fst d) (add_trace (snd d) (add_trace [EvGet key] w)))))
    end.
Proof.
  intros Hnf. unfold delete_job, get_job. cbv zeta.
  erewrite bind_ok by (apply r_get_nf; exact Hnf).
  destruct (live w (job_key svc job_id)) as [jd|]; [|reflexivity].
  erewrite bind_ok by (apply delete_loop_nf; exact Hnf).
  erewrite bind_ok by (apply r_delete_nf; exact Hnf).
  reflexivity.
Qed.

(** The loop removes the file of every segment, keeps every other file, and
    makes cache operations only. *)
Lemma delete_files_spec svc job_id segs :
  forall f q,
    fst (delete_files svc job_id segs f) !! q
    = if bool_decide
           (q ∈ map (fun seg => get_cache_path svc job_id (seg_id seg)) segs)
      then None else f !! q.
Proof.
  induction segs as [|seg segs IH]; intros f q.
  - cbn. rewrite bool_decide_false; [reflexivity|]. apply not_elem_of_nil.
  - cbn [delete_files map].
    set (p := get_cache_path svc job_id (seg_id seg)).
    set (ps := map _ segs) in *.
    destruct (bool_decide (is_Some (f !! p))) eqn:Ex.
    + specialize (IH (delete p f) q).
      destruct (delete_files svc job_id segs (delete p f)) as [f' evs].
      cbn in IH |- *. rewrite IH.
      destruct (decide (q = p)) as [->|Hne].
      * rewrite (bool_decide_true (p ∈ p :: ps)) by left.
        rewrite lookup_delete_eq. now destruct (bool_decide (p ∈ ps)).
      * rewrite lookup_delete_ne by congruence.
        destruct (decide (q ∈ ps)).
        -- rewrite !bool_decide_true; [reflexivity| now right | assumption].
        -- rewrite !bool_decide_false; [reflexivity| |assumption].
           intros Hin. apply elem_of_cons in Hin as [?|?]; contradiction.
    + specialize (IH f q).
      destruct (delete_files svc job_id segs f) as [f' evs].
      cbn in IH |- *. rewrite IH.
      apply bool_decide_eq_false in Ex.
      destruct (decide (q = p)) as [->|Hne].
      * rewrite (bool_decide_true (p ∈ p :: ps)) by left.
        destruct (bool_decide (p ∈ ps)); [reflexivity|].
        destruct (f !! p) eqn:E; [|reflexivity]. exfalso. apply Ex. eauto.
      * destruct (decide (q ∈ ps)).
        -- rewrite !bool_decide_true; [reflexivity| now right | assumption].
        -- rewrite !bool_decide_false; [reflexivity| |assumption].
           intros Hin. apply elem_of_cons in Hin as [?|?]; contradiction.
Qed.

Lemma delete_files_events svc job_id segs :
  forall f,
    forallb touches_cache (snd (delete_files svc job_id segs f)) = true
    /\ expiries_written (snd (delete_files svc job_id segs f)) = []
    /\ forall q k seen,
         written_before_published q k seen
           (snd (delete_files svc job_id segs f)) = true.
Proof.
  induction segs as [|seg segs IH]; intros f; [now cbn|].
  cbn [delete_files].
  set (p := get_cache_path svc job_id (seg_id seg)).
  destruct (bool_decide (is_Some (f !! p))).
  - destruct (IH (delete p f)) as (H1 & H2 & H3).
    destruct (delete_files svc job_id segs (delete p f)) as [f' evs].
    cbn in *. repeat split; auto.
  - destruct (IH f) as (H1 & H2 & H3).
    destruct (delete_files svc job_id segs f) as [f' evs].
    cbn in *. repeat split; auto.
Qed.

Lemma engine_events_quiet evs :
  forallb is_engine_event evs = true ->
  expiries_written evs = [] /\ keys_read evs = [].
Proof.
  induction evs as [|e evs IH]; [now cbn|].
  cbn. intros H. apply andb_true_iff in H as [He H].
  destruct (IH H) as (H1 & H2).
  destruct e; cbn in *; try discriminate; auto.
Qed.

(** ** Fetching a segment's audio *)

Lemma find_segment_none (segment_id : string) (segs : list segment) :
  (forall seg, seg ∈ segs -> seg_id seg <> segment_id) ->
  find (fun seg => String.eqb (seg_id seg) segment_id) segs = None.
Proof.
  intros H. destruct (find _ segs) as [seg|] eqn:E; [|reflexivity].
  apply find_some in E as [Hin He]. apply String.eqb_eq in He.
  exfalso. apply (H seg); [now apply list_elem_of_In | exact He].
Qed.

Lemma find_segment_some (segment_id : string) (segs : list segment) seg :
  seg ∈ segs -> seg_id seg = segment_id ->
  exists seg', find (fun seg => String.eqb (seg_id seg) segment_id) segs
               = Some seg'.
Proof.
  intros Hin He.
  destruct (find _ segs) as [seg'|] eqn:E; [eauto|].
  apply list_elem_of_In in Hin.
  pose proof (find_none _ _ E seg Hin) as Hn. cbn in Hn.
  apply String.eqb_neq in Hn. contradiction.
Qed.

(** ** The executor as two steps *)

(** Taking the two steps of a queued executor one after the other, with
    nothing in between, is running [process_job_with_new_redis]; this holds
    whatever store operations fail. *)
Lemma executor_steps_agree svc job_id (o : outcome (engine svc)) t s :
  sys_tasks s !! job_id = Some (Queued t) ->
  exists s1,
    sys_step svc (DoAccept svc job_id) s = Some s1
    /\ sys_world
         (default s1 (sys_step svc (DoSynthesize svc job_id o) s1))
       = snd (process_job_with_new_redis svc job_id (task_text t)
                (task_voice t) (task_prefer_phonemes t) o (sys_world s)).
Proof.
  intros Hq. cbn [sys_step]. rewrite Hq.
  unfold process_job_with_new_redis, try_except, bind.
  destruct (accept_job svc job_id (sys_world s)) as [[[jd|]|e] w1].
  - eexists. split; [reflexivity|]. cbn [sys_step sys_tasks sys_world].
    rewrite lookup_insert_eq. cbn [default sys_world].
    unfold try_except. reflexivity.
  - eexists. split; [reflexivity|]. cbn [sys_step sys_tasks sys_world].
    rewrite lookup_insert_eq. reflexivity.
  - eexists. split; [reflexivity|]. cbn [sys_step sys_tasks sys_world].
    rewrite lookup_insert_eq. reflexivity.
Qed.

(** ** Invariants of the running system *)

Lemma written_before_published_app p k a :
  forall seen b,
    written_before_published p k seen (a ++ b)
    = written_before_published p k seen a
      && written_before_published p k
           (seen || existsb (is_file_write p) a) b.
Proof.
  induction a as [|e a IH]; intros seen b.
  - cbn. now rewrite orb_false_r.
  - cbn. rewrite IH, <- andb_assoc, orb_assoc. reflexivity.
Qed.

Lemma written_before_published_quiet p k evs :
  expiries_written evs = [] ->
  forall seen, written_before_published p k seen evs = true.
Proof.
  induction evs as [|e evs IH]; intros H seen; [reflexivity|].
  destruct e; cbn in *; try (apply IH; exact H). discriminate.
Qed.

Lemma live_Some w k v :
  live w k = Some v -> exists expires, redis w !! k = Some (v, expires).
Proof.
  unfold live. destruct (redis w !! k) as [[v' e]|]; [|discriminate].
  destruct (clock w <=? e); [|discriminate]. intros [= ->]. eauto.
Qed.

(** One lemma for every step: the stored records are old ones or sound new
    ones, the file of a surviving record is kept, every new file was
    written, and the new operations publish nothing before its file. *)
Lemma world_invariants_step svc w w' evs :
  inv_records svc w -> inv_files w -> inv_order svc w ->
  trace w' = trace w ++ evs ->
  (forall j job_data expires,
     redis w' !! job_key svc j = Some (job_data, expires) ->
     (redis w !! job_key svc j = Some (job_data, expires)
      /\ (is_Some (fs w !! seg_path svc j) ->
          is_Some (fs w' !! seg_path svc j)))
     \/ (segments_own svc j job_data
         /\ (jd_status job_data = "completed" ->
             jd_segments job_data <> []
             /\ is_Some (fs w' !! seg_path svc j)))) ->
  (forall q, is_Some (fs w' !! q) ->
             is_Some (fs w !! q) \/ existsb (is_file_write q) evs = true) ->
  (forall j,
     written_before_published (seg_path svc j) (job_key svc j)
       (existsb (is_file_write (seg_path svc j)) (trace w)) evs = true) ->
  inv_records svc w' /\ inv_files w' /\ inv_order svc w'.
Proof.
  intros Hrec Hfiles Hord Ht Hr Hf Ho. split; [|split].
  - intros j jd e H.
    destruct (Hr _ _ _ H) as [[Hold Hkeep]|Hnew]; [|exact Hnew].
    destruct (Hrec _ _ _ Hold) as [Hown Hpub]. split; [exact Hown|].
    intros Hc. destruct (Hpub Hc) as [Hne Hfile]. auto.
  - intros q Hq. rewrite Ht, existsb_app.
    destruct (Hf q Hq) as [Hold| ->]; [|apply orb_true_r].
    now rewrite (Hfiles q Hold).
  - intros j. rewrite Ht, written_before_published_app, (Hord j), Ho.
    reflexivity.
Qed.

(** A step that writes nothing to Redis and loses no file. *)
Lemma quiet_step svc w w' tasks evs :
  redis w' = redis w -> fs w' = fs w -> faults w' = faults w ->
  trace w' = trace w ++ evs ->
  expiries_written evs = [] ->
  sys_inv svc {| sys_world := w; sys_tasks := tasks |} ->
  sys_inv svc {| sys_world := w'; sys_tasks := tasks |}.
Proof.
  intros Hr Hf Hfl Ht He (Hnf & Hrec & Hfiles & Hord & Htasks). cbn in *.
  unfold sys_inv. cbn [sys_world sys_tasks].
  split; [congruence|].
  destruct (world_invariants_step svc w w' evs Hrec Hfiles Hord Ht)
    as (H1 & H2 & H3).
  - intros j jd e H. left. rewrite Hr in H. split; [exact H|].
    now rewrite Hf.
  - intros q Hq. left. now rewrite <- Hf.
  - intros j. now apply written_before_published_quiet.
  - repeat (split; [assumption|]). exact Htasks.
Qed.

Lemma system_eta s : {| sys_world := sys_world s; sys_tasks := sys_tasks s |} = s.
Proof. now destruct s. Qed.

(** Creation keeps the invariants. *)
Lemma create_step_inv svc request new_id utcnow s r w' :
  sys_inv svc s ->
  sys_tasks s !! new_id = None ->
  create_job svc request new_id utcnow (sys_world s) = (Ok r, w') ->
  sys_inv svc {| sys_world := w';
                 sys_tasks := <[new_id := Queued (snd r)]> (sys_tasks s) |}.
Proof.
  intros (Hnf & Hrec & Hfiles & Hord & Htasks) Hfresh Hc.
  unfold create_job in Hc. rewrite blank_rejected in Hc.
  destruct (forallb isspace (req_text request)); [discriminate|].
  unfold store_job in Hc.
  erewrite bind_ok in Hc by (apply r_set_nf; exact Hnf).
  injection Hc as <- <-. cbn [snd].
  set (jd0 := {| jd_job_id := new_id; jd_status := "pending" |}) in *.
  set (w := sys_world s) in *.
  unfold sys_inv. cbn [sys_world sys_tasks].
  split; [exact Hnf|].
  destruct (world_invariants_step svc w
              (set_redis (<[job_key svc new_id
                            := (jd0, clock w + JOB_EXPIRY_SECONDS)]> (redis w))
                 (add_trace [EvSet (job_key svc new_id) jd0 JOB_EXPIRY_SECONDS] w))
              [EvSet (job_key svc new_id) jd0 JOB_EXPIRY_SECONDS]
              Hrec Hfiles Hord eq_refl)
    as (H1 & H2 & H3).
  - intros j jd e H. cbn in H.
    destruct (decide (j = new_id)) as [->|Hne].
    + rewrite lookup_insert_eq in H. injection H as <- <-. right.
      split; [|discriminate]. intros seg Hin. cbn in Hin.
      now apply elem_of_nil in Hin.
    + rewrite lookup_insert_ne in H
        by (intros E; apply job_key_inj in E; congruence).
      left. split; [exact H|auto].
  - intros q Hq. now left.
  - intros j. cbn. rewrite andb_true_r, andb_false_r. reflexivity.
  - repeat (split; [assumption|]).
    intros j t jd. cbn [sys_tasks].
    destruct (decide (new_id = j)) as [->|Hne].
    + rewrite lookup_insert_eq. discriminate.
    + rewrite lookup_insert_ne by exact Hne. apply Htasks.
Qed.

(** The executor's first half keeps the invariants. *)
Lemma accept_step_inv svc job_id t s :
  sys_inv svc s ->
  sys_tasks s !! job_id = Some (Queued t) ->
  exists s', sys_step svc (DoAccept svc job_id) s = Some s' /\ sys_inv svc s'.
Proof.
  intros Hinv Hq. cbn [sys_step]. rewrite Hq.
  pose proof Hinv as (Hnf & Hrec & Hfiles & Hord & Htasks).
  rewrite accept_job_nf by exact Hnf.
  set (w := sys_world s) in *. set (key := job_key svc job_id).
  destruct (live w key) as [jd|] eqn:Elive.
  - eexists. split; [reflexivity|].
    apply live_Some in Elive as [e0 Hjd].
    destruct (Hrec _ _ _ Hjd) as [Hown _].
    unfold sys_inv. cbn [sys_world sys_tasks].
    split; [exact Hnf|].
    set (jdp := set_status "processing" jd).
    destruct (world_invariants_step svc w
                (set_redis (<[key := (jdp, clock w + JOB_EXPIRY_SECONDS)]> (redis w))
                   (add_trace [EvSet key jdp JOB_EXPIRY_SECONDS]
                      (add_trace [EvGet key] w)))
                [EvGet key; EvSet key jdp JOB_EXPIRY_SECONDS]
                Hrec Hfiles Hord)
      as (H1 & H2 & H3).
    + cbn. now rewrite <- app_assoc.
    + intros j jd' e H. cbn in H.
      destruct (decide (j = job_id)) as [->|Hne].
      * fold key in H. rewrite lookup_insert_eq in H. injection H as <- <-.
        right. split; [exact Hown|discriminate].
      * rewrite lookup_insert_ne in H
          by (intros E; apply job_key_inj in E; congruence).
        left. split; [exact H|auto].
    + intros q Hq'. now left.
    + intros j. cbn. rewrite andb_true_r, andb_false_r. reflexivity.
    + repeat (split; [assumption|]).
      intros j t' jd'. cbn [sys_tasks].
      destruct (decide (job_id = j)) as [->|Hne].
      * rewrite lookup_insert_eq. intros [= _ <-]. exact Hown.
      * rewrite lookup_insert_ne by exact Hne. apply Htasks.
  - eexists. split; [reflexivity|].
    assert (Hs : sys_inv svc {| sys_world := add_trace [EvGet key] w;
                                sys_tasks := sys_tasks s |}).
    { apply (quiet_step svc w _ _ [EvGet key]); try reflexivity.
      subst w. now rewrite system_eta. }
    destruct Hs as (Hnf' & Hrec' & Hfiles' & Hord' & Htasks').
    unfold sys_inv. cbn [sys_world sys_tasks] in *.
    repeat (split; [assumption|]).
    intros j t' jd'. cbn [sys_tasks].
    destruct (decide (job_id = j)) as [->|Hne].
    + rewrite lookup_insert_eq. discriminate.
    + rewrite lookup_insert_ne by exact Hne. apply Htasks'.
Qed.

(** The executor's second half keeps the invariants. *)
Lemma synthesize_step_inv svc job_id (o : outcome (engine svc)) t job_data s :
  sys_inv svc s ->
  sys_tasks s !! job_id = Some (Running t job_data) ->
  exists s', sys_step svc (DoSynthesize svc job_id o) s = Some s'
             /\ sys_inv svc s'.
Proof.
  intros (Hnf & Hrec & Hfiles & Hord & Htasks) Hq. cbn [sys_step]. rewrite Hq.
  destruct (run_synthesis_nf svc job_id (task_text t) (task_prefer_phonemes t)
              job_data o (sys_world s) Hnf)
    as (jd' & w' & evs & Hrun & Hr & Hc & Hf & Ht & He & _ & [Hkeep Hnew]
        & Hcase).
  erewrite try_ok by exact Hrun. cbn [snd].
  eexists. split; [reflexivity|].
  set (w := sys_world s) in *.
  destruct (engine_events_quiet _ He) as [Hquiet _].
  assert (Hown : segments_own svc job_id job_data)
    by exact (Htasks _ _ _ Hq).
  assert (Hown' : segments_own svc job_id jd').
  { destruct Hcase as [(data & wt & -> & _)| ->]; [|exact Hown].
    intros seg Hin. cbn in Hin. apply list_elem_of_singleton in Hin as ->.
    now split. }
  assert (Hpub : jd_status jd' = "completed" ->
                 jd_segments jd' <> [] /\ is_Some (fs w' !! seg_path svc job_id)).
  { destruct Hcase as [(data & wt & -> & Hdata & _)| ->]; [|discriminate].
    intros _. split; [discriminate|]. unfold seg_path. eauto. }
  unfold sys_inv. cbn [sys_world sys_tasks].
  split; [exact Hf|].
  destruct (world_invariants_step svc w w'
              (evs ++ [EvSet (job_key svc job_id) jd' JOB_EXPIRY_SECONDS])
              Hrec Hfiles Hord Ht)
    as (H1 & H2 & H3).
  - intros j jd e H. rewrite Hr in H.
    destruct (decide (j = job_id)) as [->|Hne].
    + rewrite lookup_insert_eq in H. injection H as <- <-. right. auto.
    + rewrite lookup_insert_ne in H
        by (intros E; apply job_key_inj in E; congruence).
      left. split; [exact H|apply Hkeep].
  - intros q Hq'. destruct (Hnew q Hq') as [?|Hw]; [now left|right].
    now rewrite existsb_app, Hw.
  - intros j. rewrite written_before_published_app.
    rewrite (written_before_published_quiet _ _ _ Hquiet). cbn.
    rewrite andb_true_r.
    destruct (String.eqb_spec (job_key svc job_id) (job_key svc j)) as [E|_];
      [|reflexivity].
    apply job_key_inj in E. subst j. cbn.
    destruct (String.eqb_spec (jd_status jd') "completed") as [Ec|_];
      [|reflexivity].
    cbn. destruct (Hpub Ec) as [_ Hfile].
    destruct (Hnew _ Hfile) as [Hold|Hw].
    + now rewrite (Hfiles _ Hold).
    + rewrite Hw. apply orb_true_r.
  - repeat (split; [assumption|]).
    intros j t' jd0. cbn [sys_tasks].
    destruct (decide (job_id = j)) as [->|Hne].
    + rewrite lookup_insert_eq. discriminate.
    + rewrite lookup_insert_ne by exact Hne. apply Htasks.
Qed.

(** Deletion keeps the invariants: the files it removes belong to the
    record it removes. *)
Lemma delete_step_inv svc job_id s :
  sys_inv svc s ->
  sys_inv svc {| sys_world := snd (delete_job svc job_id (sys_world s));
                 sys_tasks := sys_tasks s |}.
Proof.
  intros Hinv. pose proof Hinv as (Hnf & Hrec & Hfiles & Hord & Htasks).
  rewrite delete_job_nf by exact Hnf. cbv zeta.
  set (w := sys_world s) in *. set (key := job_key svc job_id).
  destruct (live w key) as [jd|] eqn:Elive.
  - cbn [snd].
    apply live_Some in Elive as [e0 Hjd].
    destruct (Hrec _ _ _ Hjd) as [Hown _].
    destruct (delete_files_events svc job_id (jd_segments jd) (fs w))
      as (_ & Hq & _).
    pose proof (delete_files_spec svc job_id (jd_segments jd) (fs w)) as Hspec.
    set (d := delete_files svc job_id (jd_segments jd) (fs w)) in *.
    unfold sys_inv. cbn [sys_world sys_tasks].
    split; [exact Hnf|].
    destruct (world_invariants_step svc w
                (set_redis (delete key (redis w))
                   (add_trace [EvDel key]
                      (set_fs (fst d) (add_trace (snd d) (add_trace [EvGet key] w)))))
                ([EvGet key] ++ snd d ++ [EvDel key])
                Hrec Hfiles Hord)
      as (H1 & H2 & H3).
    + cbn. now rewrite <- !app_assoc.
    + intros j jd' e H. cbn in H.
      destruct (decide (j = job_id)) as [->|Hne].
      * fold key in H. rewrite lookup_delete_eq in H. discriminate.
      * rewrite lookup_delete_ne in H
          by (intros E; apply job_key_inj in E; congruence).
        left. split; [exact H|]. cbn. rewrite Hspec.
        rewrite bool_decide_false; [auto|].
        intros Hin. apply list_elem_of_In, in_map_iff in Hin
          as (seg & Hp & Hin).
        apply list_elem_of_In, Hown in Hin as [Hid _].
        rewrite Hid in Hp. apply segment_path_inj in Hp. congruence.
    + intros q Hq'. cbn in Hq'. rewrite Hspec in Hq'. left.
      destruct (bool_decide _); [destruct Hq'; discriminate | exact Hq'].
    + intros j. apply written_before_published_quiet.
      cbn. rewrite expiries_written_app, Hq. reflexivity.
    + repeat (split; [assumption|]). exact Htasks.
  - apply (quiet_step svc w _ _ [EvGet key]); try reflexivity.
    subst w. now rewrite system_eta.
Qed.

Lemma boot_inv svc t : sys_inv svc (boot t []).
Proof.
  unfold sys_inv, boot, inv_records, inv_files, inv_order, inv_tasks.
  cbn [sys_world sys_tasks redis fs faults trace].
  split; [reflexivity|]. split; [|split; [|split]].
  - intros j jd e H. rewrite lookup_empty in H. discriminate.
  - intros q [x H]. rewrite lookup_empty in H. discriminate.
  - intros j. reflexivity.
  - intros j t' jd H. rewrite lookup_empty in H. discriminate.
Qed.

(** Every step of the system keeps the invariants. *)
Lemma sys_step_inv svc l s s' :
  sys_inv svc s -> sys_step svc l s = Some s' -> sys_inv svc s'.
Proof.
  intros Hinv Hstep. pose proof Hinv as (Hnf & _).
  destruct l as [request new_id utcnow | job_id | job_id o | job_id
                | job_id segment_id | job_id | d]; cbn [sys_step] in Hstep.
  - destruct (sys_tasks s !! new_id) eqn:Efresh; [discriminate|].
    destruct (create_job svc request new_id utcnow (sys_world s))
      as [[[c t]|e] w'] eqn:Ec.
    + injection Hstep as <-.
      apply (create_step_inv svc request new_id utcnow s (c, t) w'); assumption.
    + injection Hstep as <-.
      unfold create_job in Ec. rewrite blank_rejected in Ec.
      destruct (forallb isspace (req_text request)).
      * injection Ec as _ <-. now rewrite system_eta.
      * unfold store_job in Ec.
        erewrite bind_ok in Ec by (apply r_set_nf; exact Hnf). discriminate.
  - destruct (sys_tasks s !! job_id) as [[t| |]|] eqn:Eq; try discriminate.
    destruct (accept_step_inv svc job_id t s Hinv Eq) as (s1 & Hs1 & Hinv1).
    cbn [sys_step] in Hs1. rewrite Eq in Hs1. congruence.
  - destruct (sys_tasks s !! job_id) as [[|t jd|]|] eqn:Eq; try discriminate.
    destruct (synthesize_step_inv svc job_id o t jd s Hinv Eq)
      as (s1 & Hs1 & Hinv1).
    cbn [sys_step] in Hs1. rewrite Eq in Hs1. congruence.
  - injection Hstep as <-. rewrite get_job_status_nf by exact Hnf. cbn [snd].
    apply (quiet_step svc (sys_world s) _ _ [EvGet (job_key svc job_id)]);
      try reflexivity.
    now rewrite system_eta.
  - injection Hstep as <-. rewrite get_segment_audio_nf by exact Hnf.
    cbv zeta.
    destruct (live (sys_world s) (job_key svc job_id)) as [jd|];
      [destruct (negb (String.eqb (jd_status jd) "completed"));
       [|destruct (find _ (jd_segments jd))] |]; cbn [snd].
    + apply (quiet_step svc (sys_world s) _ _ [EvGet (job_key svc job_id)]);
        try reflexivity.
      now rewrite system_eta.
    + apply (quiet_step svc (sys_world s) _ _
               [EvGet (job_key svc job_id);
                EvExists (get_cache_path svc job_id segment_id)]);
        try reflexivity.
      * cbn. now rewrite <- app_assoc.
      * now rewrite system_eta.
    + apply (quiet_step svc (sys_world s) _ _ [EvGet (job_key svc job_id)]);
        try reflexivity.
      now rewrite system_eta.
    + apply (quiet_step svc (sys_world s) _ _ [EvGet (job_key svc job_id)]);
        try reflexivity.
      now rewrite system_eta.
  - injection Hstep as <-. now apply delete_step_inv.
  - destruct (0 <=? d); [|discriminate]. injection Hstep as <-.
    apply (quiet_step svc (sys_world s) _ _ []); try reflexivity.
    + cbn. now rewrite app_nil_r.
    + now rewrite system_eta.
Qed.

Lemma sys_run_inv svc ls :
  forall s s', sys_inv svc s -> sys_run svc ls s = Some s' -> sys_inv svc s'.
Proof.
  induction ls as [|l ls IH]; intros s s' Hinv Hrun; cbn in Hrun.
  - now injection Hrun as <-.
  - destruct (sys_step svc l s) as [s1|] eqn:E; [|discriminate].
    eapply IH; [|exact Hrun]. eapply sys_step_inv; eassumption.
Qed.

(** Every state the service reaches from its start satisfies the
    invariants. *)
Lemma reachable_inv svc ls t s :
  sys_run svc ls (boot t []) = Some s -> sys_inv svc s.
Proof. apply sys_run_inv, boot_inv. Qed.

(** ** Status order under store failures *)

Lemma sets_written_app a b :
  sets_written (a ++ b) = sets_written a ++ sets_written b.
Proof. apply omap_app. Qed.

Lemma statuses_of_sets k tr :
  statuses_written k tr
  = omap (fun p : string * string =>
            if String.eqb (fst p) k then Some (snd p) else None)
         (sets_written tr).
Proof.
  unfold statuses_written, sets_written.
  induction tr as [|e tr IH]; [reflexivity|].
  destruct e; cbn; try exact IH.
  destruct (String.eqb key k); cbn; [now rewrite IH | exact IH].
Qed.

Lemma statuses_no_sets k evs :
  sets_written evs = [] -> statuses_written k evs = [].
Proof. intros H. now rewrite statuses_of_sets, H. Qed.

Lemma statuses_one_set svc j j' st evs :
  sets_written evs = [(job_key svc j', st)] ->
  statuses_written (job_key svc j) evs = if decide (j' = j) then [st] else [].
Proof.
  intros H. rewrite statuses_of_sets, H. cbn.
  destruct (decide (j' = j)) as [->|Hne].
  - now rewrite String.eqb_refl.
  - destruct (String.eqb_spec (job_key svc j') (job_key svc j)) as [E|_];
      [|reflexivity].
    apply job_key_inj in E. contradiction.
Qed.

Lemma quiet_ret {A} (a : A) : quiet (ret a).
Proof. intros w. exists []. cbn. now rewrite app_nil_r. Qed.

Lemma quiet_raise {A} e : quiet (@raise A e).
Proof. intros w. exists []. cbn. now rewrite app_nil_r. Qed.

Lemma quiet_bind {A B} (m : M A) (k : A -> M B) :
  quiet m -> (forall a, quiet (k a)) -> quiet (bind m k).
Proof.
  intros Hm Hk w. unfold bind. destruct (Hm w) as (evs1 & H1 & S1).
  destruct (m w) as [[a|e] w1]; cbn [snd] in H1.
  - destruct (Hk a w1) as (evs2 & H2 & S2). exists (evs1 ++ evs2).
    rewrite H2, H1, sets_written_app, S1, S2, app_assoc. auto.
  - exists evs1. auto.
Qed.

Lemma quiet_try {A} (m : M A) (h : exn -> M A) :
  quiet m -> (forall e, quiet (h e)) -> quiet (try_except m h).
Proof.
  intros Hm Hh w. unfold try_except. destruct (Hm w) as (evs1 & H1 & S1).
  destruct (m w) as [[a|e] w1]; cbn [snd] in H1.
  - exists evs1. auto.
  - destruct (Hh e w1) as (evs2 & H2 & S2). exists (evs1 ++ evs2).
    rewrite H2, H1, sets_written_app, S1, S2, app_assoc. auto.
Qed.

Lemma quiet_for_each {A} (xs : list A) (body : A -> M unit) :
  (forall x, quiet (body x)) -> quiet (for_each xs body).
Proof.
  intros Hb. induction xs as [|x xs IH]; cbn [for_each].
  - apply quiet_ret.
  - apply quiet_bind; [apply Hb | intros _; exact IH].
Qed.

Lemma quiet_fault : quiet fault.
Proof.
  intros [r f c fl tr]. exists []. destruct fl as [|[msg|] rest]; cbn;
    now rewrite app_nil_r.
Qed.

Lemma quiet_log e : sets_written [e] = [] -> quiet (log e).
Proof. intros H w. exists [e]. auto. Qed.

(** An operation that consumes a failure, records itself, and then acts
    without touching the trace. *)
Lemma quiet_operation {A} e (act : M A) :
  sets_written [e] = [] ->
  (forall w, trace (snd (act w)) = trace w) ->
  quiet (fault >> log e >> act).
Proof.
  intros He Hact. apply quiet_bind; [apply quiet_fault|]. intros _.
  apply quiet_bind; [now apply quiet_log|]. intros _ w. exists [].
  now rewrite Hact, app_nil_r.
Qed.

Lemma quiet_r_get k : quiet (r_get k).
Proof. now apply quiet_operation. Qed.

Lemma quiet_r_delete k : quiet (r_delete k).
Proof. now apply quiet_operation. Qed.

Lemma quiet_path_exists p : quiet (path_exists p).
Proof. now apply quiet_operation. Qed.

Lemma quiet_stat_size p : quiet (stat_size p).
Proof.
  apply quiet_operation; [reflexivity|]. intros w. now destruct (fs w !! p).
Qed.

Lemma quiet_open_wb p : quiet (open_wb p).
Proof. now apply quiet_operation. Qed.

Lemma quiet_write p data : quiet (write p data).
Proof. now apply quiet_operation. Qed.

Lemma quiet_unlink p : quiet (unlink p).
Proof.
  apply quiet_operation; [reflexivity|]. intros w. now destruct (fs w !! p).
Qed.

Lemma quiet_engine_writes p data : quiet (engine_writes p data).
Proof. intros w. exists [EvWrite p data]. auto. Qed.

Ltac quiet_steps :=
  repeat first
    [ apply quiet_ret | apply quiet_raise
    | apply quiet_r_get | apply quiet_r_delete | apply quiet_path_exists
    | apply quiet_stat_size | apply quiet_open_wb | apply quiet_write
    | apply quiet_unlink | apply quiet_engine_writes
    | apply quiet_log; reflexivity
    | apply quiet_bind; [|intros ?]
    | apply quiet_try; [|intros ?]
    | apply quiet_for_each; intros ?
    | match goal with
      | |- quiet (match ?x with _ => _ end) => destruct x
      | |- quiet (let (_, _) := ?x in _) => destruct x
      end ].

Lemma quiet_synthesize svc text voice p prefer_phonemes
    (o : outcome (engine svc)) :
  quiet (synthesize svc text voice p prefer_phonemes o).
Proof.
  destruct svc as [[] dir dv]; cbn in o;
    unfold synthesize, synthesize_text_with_timing, synthesize_text;
    cbn [engine]; cbv zeta; quiet_steps.
Qed.

Lemma quiet_get_job_status svc job_id : quiet (get_job_status svc job_id).
Proof. unfold get_job_status, get_job. quiet_steps. Qed.

Lemma quiet_get_segment_audio svc job_id segment_id :
  quiet (get_segment_audio svc job_id segment_id).
Proof. unfold get_segment_audio, get_job. cbv zeta. quiet_steps. Qed.

Lemma quiet_delete_job svc job_id : quiet (delete_job svc job_id).
Proof. unfold delete_job, get_job. cbv zeta. quiet_steps. Qed.

(** After a quiet computation whose values satisfy [P], the writes are
    those of what follows. *)
Lemma writes_bind {A B} (m : M A) (k : A -> M B) (P : A -> Prop)
    (Q : result B -> list (string * string) -> Prop) :
  quiet m ->
  (forall w a w1, m w = (Ok a, w1) -> P a) ->
  (forall a, P a -> writes (k a) Q) ->
  (forall e, Q (Raise e) []) ->
  writes (bind m k) Q.
Proof.
  intros Hm HP Hk Hq w. unfold bind. destruct (Hm w) as (evs1 & H1 & S1).
  destruct (m w) as [[a|e] w1] eqn:E; cbn [snd] in H1.
  - destruct (Hk a (HP _ _ _ E) w1) as (evs2 & H2 & Q2). exists (evs1 ++ evs2).
    rewrite H2, H1, sets_written_app, S1, app_assoc. split; [reflexivity|].
    exact Q2.
  - exists evs1. rewrite S1. split; [exact H1|]. apply Hq.
Qed.

Lemma r_set_writes k v ex :
  writes (r_set k v ex)
    (fun r l => match r with
                | Ok _ => l = [(k, jd_status v)]
                | Raise _ => l = []
                end).
Proof.
  intros [r f c fl tr]. destruct fl as [|[msg|] rest]; world_cbv.
  - now exists [EvSet k v ex].
  - exists []. now rewrite app_nil_r.
  - now exists [EvSet k v ex].
Qed.

Lemma create_job_writes svc request new_id utcnow :
  writes (create_job svc request new_id utcnow)
    (fun r l => match r with
                | Ok _ => l = [(job_key svc new_id, "pending")]
                | Raise _ => l = []
                end).
Proof.
  intros w. unfold create_job.
  destruct (_ || _).
  - exists []. cbn. now rewrite app_nil_r.
  - unfold store_job, bind.
    destruct (r_set_writes (job_key svc new_id)
                {| jd_job_id := new_id; jd_status := "pending";
                   jd_created_at := utcnow;
                   jd_text_length := length (req_text request);
                   jd_voice :=
                     Some (if truthy (req_voice request)
                           then default "" (req_voice request)
                           else if truthy (req_model_id request)
                                then default "" (req_model_id request)
                                else DEFAULT_VOICE svc);
                   jd_prefer_phonemes :=
                     match engine svc with
                     | EdgeTTS => None
                     | EspeakNG =>
                         Some (default false (req_prefer_phonemes request))
                     end;
                   jd_segments := []; jd_error := None |}
                JOB_EXPIRY_SECONDS w) as (evs & H & Q).
    destruct (r_set _ _ _ w) as [[[]|e] w1]; exists evs; auto.
Qed.

Lemma accept_job_writes svc job_id :
  writes (accept_job svc job_id)
    (fun r l => match r with
                | Ok (Some _) => l = [(job_key svc job_id, "processing")]
                | _ => l = []
                end).
Proof.
  unfold accept_job. cbv zeta.
  apply (writes_bind _ _ (fun _ => True)); auto using quiet_r_get.
  intros [jd|] _.
  - intros w. unfold bind.
    destruct (r_set_writes (job_key svc job_id) (set_status "processing" jd)
                JOB_EXPIRY_SECONDS w) as (evs & H & Q).
    destruct (r_set _ _ _ w) as [[[]|e] w1]; exists evs; auto.
  - intros w. exists []. cbn. now rewrite app_nil_r.
Qed.

Lemma on_error_writes svc job_id e :
  writes (on_error svc job_id e)
    (fun r l => exists u, r = Ok u
                /\ (l = [] \/ l = [(job_key svc job_id, "failed")])).
Proof.
  intros w. unfold on_error, try_except, bind. cbv zeta.
  destruct (quiet_r_get (job_key svc job_id) w) as (evs1 & H1 & S1).
  destruct (r_get (job_key svc job_id) w) as [[[jd|]|e1] w1]; cbn [snd] in H1.
  - destruct (r_set_writes (job_key svc job_id)
                (set_error (str e) (set_status "failed" jd))
                JOB_EXPIRY_SECONDS w1) as (evs2 & H2 & Q2).
    destruct (r_set _ _ _ w1) as [[[]|e2] w2]; cbn in *;
      exists (evs1 ++ evs2);
      rewrite H2, H1, sets_written_app, S1, Q2, app_assoc; eauto.
  - exists evs1. rewrite S1. cbn. eauto.
  - exists evs1. rewrite S1. cbn. eauto.
Qed.

Lemma run_synthesis_writes svc job_id text prefer_phonemes job_data
    (o : outcome (engine svc)) :
  writes (run_synthesis svc job_id text prefer_phonemes job_data o)
    (fun r l => match r with
                | Ok _ => l = [(job_key svc job_id, "completed")]
                          \/ l = [(job_key svc job_id, "failed")]
                | Raise _ => l = []
                end).
Proof.
  unfold run_synthesis. cbv zeta.
  apply (writes_bind _ _ (fun _ => True)); auto using quiet_synthesize.
  intros [success wt] _.
  apply (writes_bind _ _ (fun _ => True)); auto.
  { destruct success; quiet_steps. }
  intros there _.
  apply (writes_bind _ _
           (fun jd => jd_status jd = "completed" \/ jd_status jd = "failed"));
    auto.
  - destruct there; quiet_steps.
  - intros w jd w1. destruct there.
    + unfold bind. destruct (stat_size _ w) as [[sz|e] w2]; [|discriminate].
      intros [= <- _]. now left.
    + intros [= <- _]. now right.
  - intros jd Hst w.
    destruct (r_set_writes (job_key svc job_id) jd JOB_EXPIRY_SECONDS w)
      as (evs & H & Q).
    exists evs. split; [exact H|].
    destruct (fst (r_set _ _ _ w)); [|exact Q].
    rewrite Q. destruct Hst as [-> | ->]; auto.
Qed.

Lemma statuses_step_quiet svc s w' evs :
  trace w' = trace (sys_world s) ++ evs ->
  sets_written evs = [] ->
  inv_statuses svc s ->
  inv_statuses svc {| sys_world := w'; sys_tasks := sys_tasks s |}.
Proof.
  intros Ht Hs Hinv j. cbn [sys_world sys_tasks].
  rewrite Ht, statuses_written_app, (statuses_no_sets _ _ Hs), app_nil_r.
  apply Hinv.
Qed.

(** A step of the executor of [j0]: it writes under the key of [j0] only. *)
Lemma statuses_step_task svc s w' evs j0 ph :
  inv_statuses svc s ->
  trace w' = trace (sys_world s) ++ evs ->
  (sets_written evs = []
   \/ exists st, sets_written evs = [(job_key svc j0, st)]) ->
  phase_statuses_any (Some ph)
    (statuses_written (job_key svc j0) (trace (sys_world s))
     ++ statuses_written (job_key svc j0) evs) ->
  inv_statuses svc {| sys_world := w'; sys_tasks := <[j0 := ph]> (sys_tasks s) |}.
Proof.
  intros Hinv Ht Hs Hph j. cbn [sys_world sys_tasks].
  rewrite Ht, statuses_written_app.
  destruct (decide (j0 = j)) as [->|Hne].
  - now rewrite lookup_insert_eq.
  - rewrite lookup_insert_ne by exact Hne.
    replace (statuses_written (job_key svc j) evs) with (@nil string).
    + rewrite app_nil_r. apply Hinv.
    + destruct Hs as [Hs|[st Hs]].
      * now rewrite (statuses_no_sets _ _ Hs).
      * rewrite (statuses_one_set svc j j0 st evs Hs).
        now destruct (decide (j0 = j)).
Qed.

Lemma statuses_own_set svc j st evs :
  sets_written evs = [(job_key svc j, st)] ->
  statuses_written (job_key svc j) evs = [st].
Proof.
  intros H. rewrite (statuses_one_set svc j j st evs H).
  now destruct (decide (j = j)).
Qed.

(** Every step keeps the status sequences in order, whatever fails. *)
Lemma sys_step_statuses svc l s s' :
  inv_statuses svc s -> sys_step svc l s = Some s' -> inv_statuses svc s'.
Proof.
  intros Hinv Hstep.
  destruct l as [request new_id utcnow | job_id | job_id o | job_id
                | job_id segment_id | job_id | d]; cbn [sys_step] in Hstep.
  - destruct (sys_tasks s !! new_id) eqn:Efresh; [discriminate|].
    destruct (create_job_writes svc request new_id utcnow (sys_world s))
      as (evs & Ht & Q).
    destruct (create_job svc request new_id utcnow (sys_world s))
      as [[[c t]|e] w']; injection Hstep as <-; cbn [fst snd] in Ht, Q.
    + apply (statuses_step_task svc s w' evs); eauto.
      rewrite (statuses_own_set _ _ _ _ Q).
      specialize (Hinv new_id). rewrite Efresh in Hinv. cbn in Hinv.
      now rewrite Hinv.
    + now apply (statuses_step_quiet svc s w' evs).
  - destruct (sys_tasks s !! job_id) as [[t| |]|] eqn:Eq; try discriminate.
    pose proof (Hinv job_id) as Hold. rewrite Eq in Hold. cbn in Hold.
    destruct (accept_job_writes svc job_id (sys_world s)) as (evs & Ht & Q).
    destruct (accept_job svc job_id (sys_world s)) as [[[jd|]|e] w'];
      injection Hstep as <-; cbn [fst snd] in Ht, Q.
    + apply (statuses_step_task svc s w' evs); eauto.
      rewrite (statuses_own_set _ _ _ _ Q), Hold. reflexivity.
    + apply (statuses_step_task svc s w' evs); auto.
      rewrite (statuses_no_sets _ _ Q), Hold. cbn. auto.
    + destruct (on_error_writes svc job_id e w') as (evs2 & Ht2 & u & _ & Q2).
      apply (statuses_step_task svc s _ (evs ++ evs2)).
      * exact Hinv.
      * now rewrite Ht2, Ht, app_assoc.
      * rewrite sets_written_app, Q. destruct Q2 as [-> | ->]; eauto.
      * rewrite statuses_written_app, (statuses_no_sets _ _ Q), Hold.
        destruct Q2 as [Q2|Q2].
        -- rewrite (statuses_no_sets _ _ Q2). cbn. auto.
        -- rewrite (statuses_own_set _ _ _ _ Q2). cbn. auto.
  - destruct (sys_tasks s !! job_id) as [[|t jd|]|] eqn:Eq; try discriminate.
    pose proof (Hinv job_id) as Hold. rewrite Eq in Hold. cbn in Hold.
    injection Hstep as <-. unfold try_except.
    destruct (run_synthesis_writes svc job_id (task_text t)
                (task_prefer_phonemes t) jd o (sys_world s)) as (evs & Ht & Q).
    destruct (run_synthesis svc job_id (task_text t) (task_prefer_phonemes t)
                jd o (sys_world s)) as [[[]|e] w']; cbn [fst snd] in Ht, Q |- *.
    + apply (statuses_step_task svc s w' evs).
      * exact Hinv.
      * exact Ht.
      * destruct Q as [Q|Q]; eauto.
      * destruct Q as [Q|Q]; rewrite (statuses_own_set _ _ _ _ Q), Hold;
          cbn; auto.
    + destruct (on_error_writes svc job_id e w') as (evs2 & Ht2 & u & _ & Q2).
      apply (statuses_step_task svc s _ (evs ++ evs2)).
      * exact Hinv.
      * now rewrite Ht2, Ht, app_assoc.
      * rewrite sets_written_app, Q. destruct Q2 as [-> | ->]; eauto.
      * rewrite statuses_written_app, (statuses_no_sets _ _ Q), Hold.
        destruct Q2 as [Q2|Q2].
        -- rewrite (statuses_no_sets _ _ Q2). cbn. auto.
        -- rewrite (statuses_own_set _ _ _ _ Q2). cbn. auto 6.
  - injection Hstep as <-.
    destruct (quiet_get_job_status svc job_id (sys_world s)) as (evs & Ht & Q).
    now apply (statuses_step_quiet svc s _ evs).
  - injection Hstep as <-.
    destruct (quiet_get_segment_audio svc job_id segment_id (sys_world s))
      as (evs & Ht & Q).
    now apply (statuses_step_quiet svc s _ evs).
  - injection Hstep as <-.
    destruct (quiet_delete_job svc job_id (sys_world s)) as (evs & Ht & Q).
    now apply (statuses_step_quiet svc s _ evs).
  - destruct (0 <=? d); [|discriminate]. injection Hstep as <-.
    apply (statuses_step_quiet svc s _ []); [|reflexivity|exact Hinv].
    cbn. now rewrite app_nil_r.
Qed.

Lemma sys_run_statuses svc ls :
  forall s s',
    inv_statuses svc s -> sys_run svc ls s = Some s' -> inv_statuses svc s'.
Proof.
  induction ls as [|l ls IH]; intros s s' Hinv Hrun; cbn in Hrun.
  - now injection Hrun as <-.
  - destruct (sys_step svc l s) as [s1|] eqn:E; [|discriminate].
    eapply IH; [|exact Hrun]. eapply sys_step_statuses; eassumption.
Qed.

Lemma boot_statuses svc t failures : inv_statuses svc (boot t failures).
Proof. intros j. unfold boot. cbn [sys_tasks]. now rewrite lookup_empty. Qed.

(** C4. In every state the service reaches, whatever store operations
    fail on the way, the status values written for a job form a forward
    sequence: [pending] first, a later value of higher rank
    ([processing], then [completed] or [failed]), and nothing after a
    terminal value. *)
Theorem status_moves_forward svc ls t failures s :
  sys_run svc ls (boot t failures) = Some s ->
  forall job_id,
    moves_forward
      (statuses_written (job_key svc job_id) (trace (sys_world s))) = true.
Proof.
  intros Hrun job_id.
  pose proof (sys_run_statuses svc ls _ _ (boot_statuses svc t failures) Hrun
                job_id) as Hph.
  destruct (sys_tasks s !! job_id) as [[| |]|]; cbn in Hph.
  - now rewrite Hph.
  - now rewrite Hph.
  - destruct Hph as [-> | [-> | [-> | [-> | ->]]]]; reflexivity.
  - now rewrite Hph.
Qed.

(** ** Write before publish *)

(** The two parts of [delete_job] and of [get_segment_audio] make up the
    handlers. *)
Lemma delete_job_parts svc job_id w :
  delete_job svc job_id w
  = (delete_job_files svc job_id >> delete_job_record svc job_id) w.
Proof.
  unfold delete_job, delete_job_files, delete_job_record, bind.
  now destruct (get_job svc job_id w) as [[[jd|]|e] w1].
Qed.

Lemma get_segment_audio_parts svc job_id segment_id w :
  get_segment_audio svc job_id segment_id w
  = (let* job_data := get_job svc job_id in
     serve_segment svc job_id segment_id job_data) w.
Proof. reflexivity. Qed.

Lemma delete_job_files_nf svc job_id w :
  faults w = [] ->
  delete_job_files svc job_id w
  = let key := job_key svc job_id in
    match live w key with
    | None =>
        (Raise (HTTPException 404 "Job not found"), add_trace [EvGet key] w)
    | Some job_data =>
        let d := delete_files svc job_id (jd_segments job_data) (fs w) in
        (Ok tt, set_fs (fst d) (add_trace (snd d) (add_trace [EvGet key] w)))
    end.
Proof.
  intros Hnf. unfold delete_job_files, get_job. cbv zeta.
  erewrite bind_ok by (apply r_get_nf; exact Hnf).
  destruct (live w (job_key svc job_id)) as [jd|]; [|reflexivity].
  now rewrite delete_loop_nf by exact Hnf.
Qed.

Lemma delete_job_record_nf svc job_id w :
  faults w = [] ->
  delete_job_record svc job_id w
  = (Ok "Job deleted successfully",
     set_redis (delete (job_key svc job_id) (redis w))
       (add_trace [EvDel (job_key svc job_id)] w)).
Proof.
  intros Hnf. unfold delete_job_record.
  now erewrite bind_ok by (apply r_delete_nf; exact Hnf).
Qed.

Lemma serve_segment_nf svc job_id segment_id job_data w :
  faults w = [] ->
  serve_segment svc job_id segment_id (Some job_data) w
  = let audio_path := get_cache_path svc job_id segment_id in
    if negb (String.eqb (jd_status job_data) "completed") then
      (Raise (HTTPException 400
                ("Job is " +:+ jd_status job_data +:+ ", not completed")), w)
    else
      match find (fun seg => String.eqb (seg_id seg) segment_id)
                 (jd_segments job_data) with
      | None => (Raise (HTTPException 404 "Segment not found"), w)
      | Some _ =>
          (if bool_decide (is_Some (fs w !! audio_path)) then
             Ok {| fr_path := audio_path;
                   fr_media_type := media_type svc;
                   fr_filename := segment_id +:+ cache_ext svc |}
           else Raise (HTTPException 404 "Audio file not found"),
           add_trace [EvExists audio_path] w)
      end.
Proof.
  intros Hnf. unfold serve_segment. cbv zeta.
  destruct (negb (String.eqb (jd_status job_data) "completed")); [reflexivity|].
  destruct (find _ (jd_segments job_data)); [|reflexivity].
  erewrite bind_ok by (apply path_exists_nf; exact Hnf).
  now destruct (bool_decide (is_Some (fs w !! get_cache_path svc job_id segment_id))).
Qed.

(** A record that was published had its file written before. *)
Lemma published_after_written p k tr :
  forall seen,
    written_before_published p k seen tr = true ->
    existsb (publishes k) tr = true ->
    seen || existsb (is_file_write p) tr = true.
Proof.
  induction tr as [|e tr IH]; intros seen H Hp; cbn in *; [discriminate|].
  apply andb_true_iff in H as [H1 H2].
  destruct (publishes k e).
  - cbn in H1. now rewrite H1.
  - cbn in Hp. specialize (IH _ H2 Hp). now rewrite orb_assoc.
Qed.

(** The loop of [delete_job] writes no file, and a file that it does not
    keep, it removes with [unlink]; the files it removes are those of the
    segments. *)
Lemma delete_files_no_write svc job_id segs :
  forall f q,
    existsb (is_file_write q) (snd (delete_files svc job_id segs f)) = false.
Proof.
  induction segs as [|seg segs IH]; intros f q; [reflexivity|].
  cbn [delete_files].
  destruct (bool_decide _).
  - specialize (IH (delete (get_cache_path svc job_id (seg_id seg)) f) q).
    destruct (delete_files svc job_id segs _) as [f' evs]. exact IH.
  - specialize (IH f q).
    destruct (delete_files svc job_id segs f) as [f' evs]. exact IH.
Qed.

Lemma delete_files_kept svc job_id segs :
  forall f q,
    is_Some (f !! q) ->
    is_Some (fst (delete_files svc job_id segs f) !! q)
    \/ existsb (is_unlink q) (snd (delete_files svc job_id segs f)) = true.
Proof.
  induction segs as [|seg segs IH]; intros f q Hq; [now left|].
  cbn [delete_files].
  set (p := get_cache_path svc job_id (seg_id seg)).
  destruct (bool_decide (is_Some (f !! p))).
  - destruct (decide (p = q)) as [->|Hne].
    + right. destruct (delete_files svc job_id segs (delete q f)) as [f' evs].
      cbn. now rewrite String.eqb_refl.
    + specialize (IH (delete p f) q).
      rewrite lookup_delete_ne in IH by exact Hne. specialize (IH Hq).
      destruct (delete_files svc job_id segs (delete p f)) as [f' evs].
      cbn in *. destruct IH as [?| ->]; [now left|right].
      apply orb_true_r.
  - specialize (IH f q Hq).
    destruct (delete_files svc job_id segs f) as [f' evs]. exact IH.
Qed.

Lemma delete_files_unlinked svc job_id segs :
  forall f q,
    existsb (is_unlink q) (snd (delete_files svc job_id segs f)) = true ->
    exists seg, seg ∈ segs /\ q = get_cache_path svc job_id (seg_id seg).
Proof.
  induction segs as [|seg segs IH]; intros f q H; [discriminate|].
  cbn [delete_files] in H.
  set (p := get_cache_path svc job_id (seg_id seg)) in *.
  assert (Hrest : forall f0,
             existsb (is_unlink q) (snd (delete_files svc job_id segs f0)) = true ->
             exists seg0, seg0 ∈ seg :: segs
                          /\ q = get_cache_path svc job_id (seg_id seg0)).
  { intros f0 H0. destruct (IH f0 q H0) as (seg0 & Hin & ->).
    exists seg0. split; [now right|reflexivity]. }
  destruct (bool_decide (is_Some (f !! p))).
  - destruct (delete_files svc job_id segs (delete p f)) as [f' evs] eqn:E.
    cbn in H. destruct (String.eqb_spec p q) as [<-|_].
    + exists seg. split; [left|reflexivity].
    + cbn in H. apply (Hrest (delete p f)). now rewrite E.
  - destruct (delete_files svc job_id segs f) as [f' evs] eqn:E.
    cbn in H. apply (Hrest f). now rewrite E.
Qed.

Lemma sound_step svc j job_data w w' evs :
  sound svc j job_data w ->
  trace w' = trace w ++ evs ->
  (forall q, is_Some (fs w !! q) ->
     is_Some (fs w' !! q) \/ existsb (is_unlink q) evs = true) ->
  sound svc j job_data w'.
Proof.
  intros [Hown Hpub] Ht Hkeep. split; [exact Hown|]. intros Hc.
  destruct (Hpub Hc) as [Hne Hfile]. split; [exact Hne|].
  rewrite Ht, existsb_app.
  destruct Hfile as [Hfile| ->]; [|now right].
  destruct (Hkeep _ Hfile) as [?| ->]; [now left|right]. apply orb_true_r.
Qed.

(** One lemma for every step. *)
Lemma ov_inv_step svc s w' tasks' susp' evs :
  ov_inv svc s ->
  faults w' = [] ->
  trace w' = trace (sys_world (ov_system s)) ++ evs ->
  (forall q, is_Some (fs w' !! q) ->
     is_Some (fs (sys_world (ov_system s)) !! q)
     \/ existsb (is_file_write q) evs = true) ->
  (forall q, is_Some (fs (sys_world (ov_system s)) !! q) ->
     is_Some (fs w' !! q) \/ existsb (is_unlink q) evs = true) ->
  (forall j,
     written_before_published (seg_path svc j) (job_key svc j)
       (existsb (is_file_write (seg_path svc j))
          (trace (sys_world (ov_system s)))) evs = true) ->
  (forall j job_data expires,
     redis w' !! job_key svc j = Some (job_data, expires) ->
     redis (sys_world (ov_system s)) !! job_key svc j
     = Some (job_data, expires)
     \/ sound svc j job_data w') ->
  (forall j t job_data,
     tasks' !! j = Some (Running t job_data) ->
     sys_tasks (ov_system s) !! j = Some (Running t job_data)
     \/ segments_own svc j job_data) ->
  (forall j segment_id job_data,
     Serving j segment_id (Some job_data) ∈ susp' ->
     Serving j segment_id (Some job_data) ∈ ov_suspended s
     \/ sound svc j job_data w') ->
  ov_inv svc {| ov_system := {| sys_world := w'; sys_tasks := tasks' |};
                ov_suspended := susp' |}.
Proof.
  intros (Hnf & Hfiles & Hord & Htasks & Hrec & Hsusp)
         Hnf' Ht Hnew Hkeep Ho Hr Hta Hsu.
  unfold ov_inv. cbn [ov_system ov_suspended sys_world sys_tasks].
  split; [exact Hnf'|]. split; [|split; [|split; [|split]]].
  - intros q Hq. rewrite Ht, existsb_app.
    destruct (Hnew q Hq) as [Hold| ->]; [|apply orb_true_r].
    now rewrite (Hfiles q Hold).
  - intros j. rewrite Ht, written_before_published_app, (Hord j), Ho.
    reflexivity.
  - intros j t jd H. destruct (Hta j t jd H) as [Hold|Hown]; [|exact Hown].
    exact (Htasks _ _ _ Hold).
  - intros j jd e H. destruct (Hr j jd e H) as [Hold|Hs]; [|exact Hs].
    exact (sound_step svc j jd _ w' evs (Hrec _ _ _ Hold) Ht Hkeep).
  - intros j sid jd H. destruct (Hsu j sid jd H) as [Hold|Hs]; [|exact Hs].
    exact (sound_step svc j jd _ w' evs (Hsusp _ _ _ Hold) Ht Hkeep).
Qed.

(** A step that writes nothing to Redis and touches no file. *)
Lemma ov_quiet_step svc s w' susp' evs :
  ov_inv svc s ->
  redis w' = redis (sys_world (ov_system s)) ->
  fs w' = fs (sys_world (ov_system s)) ->
  faults w' = faults (sys_world (ov_system s)) ->
  trace w' = trace (sys_world (ov_system s)) ++ evs ->
  expiries_written evs = [] ->
  (forall j segment_id job_data,
     Serving j segment_id (Some job_data) ∈ susp' ->
     Serving j segment_id (Some job_data) ∈ ov_suspended s
     \/ sound svc j job_data w') ->
  ov_inv svc {| ov_system := ov_world w' s; ov_suspended := susp' |}.
Proof.
  intros Hinv Hr Hf Hfl Ht He Hsu. pose proof Hinv as (Hnf & _).
  apply (ov_inv_step svc s w' _ susp' evs Hinv).
  - congruence.
  - exact Ht.
  - intros q H. left. now rewrite <- Hf.
  - intros q H. left. now rewrite Hf.
  - intros j. now apply written_before_published_quiet.
  - intros j jd e H. left. now rewrite <- Hr.
  - intros j t jd H. now left.
  - exact Hsu.
Qed.

Lemma elem_of_delete_index {A} (x : A) i (l : list A) :
  x ∈ delete i l -> x ∈ l.
Proof.
  revert i. induction l as [|y l IH]; intros i H; [now destruct i|].
  destruct i as [|i]; cbn in H.
  - now right.
  - apply elem_of_cons in H as [->|H]; [left|right; eauto].
Qed.

Ltac ov_step_with s evs Hinv :=
  apply (ov_inv_step _ s _ _ _ evs Hinv);
  cbn [ov_system ov_suspended sys_world sys_tasks].

(** Every step of the service with its handlers overlapping keeps the
    invariants. *)
Lemma ov_step_inv svc l s s' :
  ov_inv svc s -> ov_step svc l s = Some s' -> ov_inv svc s'.
Proof.
  intros Hinv Hstep.
  pose proof Hinv as (Hnf & Hfiles & Hord & Htasks & Hrec & Hsusp).
  destruct s as [[w tasks] susp].
  cbn [ov_system ov_suspended sys_world sys_tasks] in *.
  set (s := {| ov_system := {| sys_world := w; sys_tasks := tasks |};
               ov_suspended := susp |}) in *.
  destruct l as [l | job_id | job_id segment_id | i]; cbn [ov_step] in Hstep;
    cbn [ov_system ov_suspended sys_world sys_tasks s] in Hstep.
  - destruct l as [request new_id utcnow | job_id | job_id o | job_id
                  | job_id segment_id | job_id | d];
      cbn [sys_step ov_system ov_suspended sys_world sys_tasks s] in Hstep.
    + (* create *)
      destruct (tasks !! new_id) eqn:Efresh; [discriminate|].
      unfold create_job in Hstep. rewrite blank_rejected in Hstep.
      destruct (forallb isspace (req_text request)).
      { injection Hstep as <-. exact Hinv. }
      unfold store_job in Hstep.
      erewrite bind_ok in Hstep by (apply r_set_nf; exact Hnf).
      cbn in Hstep. injection Hstep as <-.
      match goal with
      | |- context [EvSet ?k ?v ?ex] => set (jd0 := v)
      end.
      ov_step_with s [EvSet (job_key svc new_id) jd0 JOB_EXPIRY_SECONDS] Hinv.
      * exact Hnf.
      * reflexivity.
      * intros q H. now left.
      * intros q H. now left.
      * intros j. cbn. rewrite andb_true_r, andb_false_r. reflexivity.
      * intros j jd e H. cbn in H.
        destruct (decide (j = new_id)) as [->|Hne].
        -- rewrite lookup_insert_eq in H. injection H as <- <-. right.
           split; [|discriminate]. intros seg Hin. cbn in Hin.
           now apply elem_of_nil in Hin.
        -- rewrite lookup_insert_ne in H
             by (intros E; apply job_key_inj in E; congruence).
           now left.
      * intros j t jd. destruct (decide (new_id = j)) as [->|Hne].
        -- rewrite lookup_insert_eq. discriminate.
        -- rewrite lookup_insert_ne by exact Hne. now left.
      * intros j sid jd H. now left.
    + (* accept *)
      destruct (tasks !! job_id) as [[t| |]|] eqn:Eq; try discriminate.
      rewrite accept_job_nf in Hstep by exact Hnf.
      set (key := job_key svc job_id) in *.
      destruct (live w key) as [jd|] eqn:Elive; injection Hstep as <-.
      * apply live_Some in Elive as [e0 Hjd].
        destruct (Hrec _ _ _ Hjd) as [Hown _].
        set (jdp := set_status "processing" jd).
        ov_step_with s [EvGet key; EvSet key jdp JOB_EXPIRY_SECONDS] Hinv.
        -- exact Hnf.
        -- cbn. now rewrite <- app_assoc.
        -- intros q H. now left.
        -- intros q H. now left.
        -- intros j. cbn. rewrite andb_true_r, andb_false_r. reflexivity.
        -- intros j jd' e H. cbn in H.
           destruct (decide (j = job_id)) as [->|Hne].
           ++ fold key in H. rewrite lookup_insert_eq in H.
              injection H as <- <-. right. split; [exact Hown|discriminate].
           ++ rewrite lookup_insert_ne in H
                by (intros E; apply job_key_inj in E; congruence).
              now left.
        -- intros j t' jd'. destruct (decide (job_id = j)) as [->|Hne].
           ++ rewrite lookup_insert_eq. intros [= _ <-]. now right.
           ++ rewrite lookup_insert_ne by exact Hne. now left.
        -- intros j sid jd' H. now left.
      * ov_step_with s [EvGet key] Hinv.
        -- exact Hnf.
        -- reflexivity.
        -- intros q H. now left.
        -- intros q H. now left.
        -- intros j. reflexivity.
        -- intros j jd' e H. now left.
        -- intros j t' jd'. destruct (decide (job_id = j)) as [->|Hne].
           ++ rewrite lookup_insert_eq. discriminate.
           ++ rewrite lookup_insert_ne by exact Hne. now left.
        -- intros j sid jd' H. now left.
    + (* synthesize *)
      destruct (tasks !! job_id) as [[|t jd|]|] eqn:Eq; try discriminate.
      destruct (run_synthesis_nf svc job_id (task_text t)
                  (task_prefer_phonemes t) jd o w Hnf)
        as (jd' & w' & evs & Hrun & Hr & Hc & Hf & Ht & He & _ & [Hkeep Hnew]
            & Hcase).
      erewrite try_ok in Hstep by exact Hrun. cbn [snd] in Hstep.
      injection Hstep as <-.
      destruct (engine_events_quiet _ He) as [Hquiet _].
      assert (Hown : segments_own svc job_id jd) by exact (Htasks _ _ _ Eq).
      assert (Hown' : segments_own svc job_id jd').
      { destruct Hcase as [(data & wt & -> & _)| ->]; [|exact Hown].
        intros seg Hin. cbn in Hin. apply list_elem_of_singleton in Hin as ->.
        now split. }
      assert (Hpub : jd_status jd' = "completed" ->
                     jd_segments jd' <> []
                     /\ is_Some (fs w' !! seg_path svc job_id)).
      { destruct Hcase as [(data & wt & -> & Hdata & _)| ->]; [|discriminate].
        intros _. split; [discriminate|]. unfold seg_path. eauto. }
      ov_step_with s (evs ++ [EvSet (job_key svc job_id) jd' JOB_EXPIRY_SECONDS])
        Hinv.
      * exact Hf.
      * exact Ht.
      * intros q Hq. destruct (Hnew q Hq) as [?|Hw]; [now left|right].
        now rewrite existsb_app, Hw.
      * intros q H. left. now apply Hkeep.
      * intros j. rewrite written_before_published_app.
        rewrite (written_before_published_quiet _ _ _ Hquiet). cbn.
        rewrite andb_true_r.
        destruct (String.eqb_spec (job_key svc job_id) (job_key svc j)) as [E|_];
          [|reflexivity].
        apply job_key_inj in E. subst j. cbn.
        destruct (String.eqb_spec (jd_status jd') "completed") as [Ec|_];
          [|reflexivity].
        cbn. destruct (Hpub Ec) as [_ Hfile].
        destruct (Hnew _ Hfile) as [Hold|Hw].
        -- now rewrite (Hfiles _ Hold).
        -- rewrite Hw. apply orb_true_r.
      * intros j jd0 e H. rewrite Hr in H.
        destruct (decide (j = job_id)) as [->|Hne].
        -- rewrite lookup_insert_eq in H. injection H as <- <-. right.
           split; [exact Hown'|]. intros Hdone.
           destruct (Hpub Hdone) as [Hne Hfile]. split; [exact Hne|now left].
        -- rewrite lookup_insert_ne in H
             by (intros E; apply job_key_inj in E; congruence).
           now left.
      * intros j t' jd0. destruct (decide (job_id = j)) as [->|Hne].
        -- rewrite lookup_insert_eq. discriminate.
        -- rewrite lookup_insert_ne by exact Hne. now left.
      * intros j sid jd0 H. now left.
    + (* status *)
      injection Hstep as <-. rewrite get_job_status_nf by exact Hnf. cbn [snd].
      apply (ov_quiet_step svc s _ _ [EvGet (job_key svc job_id)] Hinv);
        try reflexivity.
      intros j sid jd H. now left.
    + (* audio *)
      injection Hstep as <-. rewrite get_segment_audio_nf by exact Hnf.
      cbv zeta.
      destruct (live w (job_key svc job_id)) as [jd|];
        [destruct (negb (String.eqb (jd_status jd) "completed"));
         [|destruct (find _ (jd_segments jd))] |]; cbn [snd].
      * apply (ov_quiet_step svc s _ _ [EvGet (job_key svc job_id)] Hinv);
          try reflexivity.
        intros j sid jd0 H. now left.
      * apply (ov_quiet_step svc s _ _
                 [EvGet (job_key svc job_id);
                  EvExists (get_cache_path svc job_id segment_id)] Hinv);
          try reflexivity.
        -- cbn. now rewrite <- app_assoc.
        -- intros j sid jd0 H. now left.
      * apply (ov_quiet_step svc s _ _ [EvGet (job_key svc job_id)] Hinv);
          try reflexivity.
        intros j sid jd0 H. now left.
      * apply (ov_quiet_step svc s _ _ [EvGet (job_key svc job_id)] Hinv);
          try reflexivity.
        intros j sid jd0 H. now left.
    + (* delete *)
      injection Hstep as <-. rewrite delete_job_nf by exact Hnf. cbv zeta.
      set (key := job_key svc job_id).
      destruct (live w key) as [jd|] eqn:Elive; cbn [snd].
      * destruct (delete_files_events svc job_id (jd_segments jd) (fs w))
          as (_ & Hq & _).
        pose proof (delete_files_spec svc job_id (jd_segments jd) (fs w))
          as Hspec.
        pose proof (delete_files_kept svc job_id (jd_segments jd) (fs w))
          as Hkeep.
        set (d := delete_files svc job_id (jd_segments jd) (fs w)) in *.
        ov_step_with s ([EvGet key] ++ snd d ++ [EvDel key]) Hinv.
        -- exact Hnf.
        -- cbn. now rewrite <- !app_assoc.
        -- intros q Hq'. cbn in Hq'. rewrite Hspec in Hq'. left.
           destruct (bool_decide _); [destruct Hq'; discriminate | exact Hq'].
        -- intros q Hq'. cbn [fs set_redis set_fs add_trace].
           destruct (Hkeep q Hq') as [?|Hu]; [now left|right].
           cbn. now rewrite existsb_app, Hu.
        -- intros j. apply written_before_published_quiet.
           cbn. rewrite expiries_written_app, Hq. reflexivity.
        -- intros j jd' e H. cbn in H.
           destruct (decide (j = job_id)) as [->|Hne].
           ++ fold key in H. rewrite lookup_delete_eq in H. discriminate.
           ++ rewrite lookup_delete_ne in H
                by (intros E; apply job_key_inj in E; congruence).
              now left.
        -- intros j t jd' H. now left.
        -- intros j sid jd' H. now left.
      * apply (ov_quiet_step svc s _ _ [EvGet key] Hinv); try reflexivity.
        intros j sid jd0 H. now left.
    + (* tick *)
      destruct (0 <=? d); [|discriminate]. injection Hstep as <-.
      apply (ov_quiet_step svc s _ _ [] Hinv); try reflexivity.
      * cbn. now rewrite app_nil_r.
      * intros j sid jd0 H. now left.
  - (* the first part of delete_job *)
    rewrite delete_job_files_nf in Hstep by exact Hnf. cbv zeta in Hstep.
    set (key := job_key svc job_id) in *.
    destruct (live w key) as [jd|] eqn:Elive; injection Hstep as <-.
    + destruct (delete_files_events svc job_id (jd_segments jd) (fs w))
        as (_ & Hq & _).
      pose proof (delete_files_spec svc job_id (jd_segments jd) (fs w))
        as Hspec.
      pose proof (delete_files_kept svc job_id (jd_segments jd) (fs w))
        as Hkeep.
      set (d := delete_files svc job_id (jd_segments jd) (fs w)) in *.
      unfold ov_world. cbn [ov_system sys_tasks s].
      ov_step_with s ([EvGet key] ++ snd d) Hinv.
      * exact Hnf.
      * cbn. now rewrite <- !app_assoc.
      * intros q Hq'. cbn in Hq'. rewrite Hspec in Hq'. left.
        destruct (bool_decide _); [destruct Hq'; discriminate | exact Hq'].
      * intros q Hq'. cbn [fs set_redis set_fs add_trace].
        destruct (Hkeep q Hq') as [?|Hu]; [now left|right]. exact Hu.
      * intros j. apply written_before_published_quiet. exact Hq.
      * intros j jd' e H. now left.
      * intros j t jd' H. now left.
      * intros j sid jd' H. apply elem_of_app in H as [H|H]; [now left|].
        apply list_elem_of_singleton in H. discriminate.
    + apply (ov_quiet_step svc s _ _ [EvGet key] Hinv); try reflexivity.
      intros j sid jd0 H. now left.
  - (* the read of get_segment_audio *)
    unfold get_job in Hstep. rewrite r_get_nf in Hstep by exact Hnf.
    injection Hstep as <-.
    apply (ov_quiet_step svc s _ _ [EvGet (job_key svc job_id)] Hinv);
      try reflexivity.
    intros j sid jd H. apply elem_of_app in H as [H|H]; [now left|].
    apply list_elem_of_singleton in H. injection H as -> -> Hl. right.
    symmetry in Hl. apply live_Some in Hl as [e Hjd].
    apply (sound_step svc job_id jd w _ [EvGet (job_key svc job_id)]
             (Hrec _ _ _ Hjd)); [reflexivity|]. intros q Hq. now left.
  - (* a suspended handler resumes *)
    destruct (susp !! i) as [[job_id | job_id segment_id jd]|] eqn:Ei;
      [| |discriminate]; injection Hstep as <-.
    + rewrite delete_job_record_nf by exact Hnf. cbn [snd].
      set (key := job_key svc job_id).
      unfold ov_world. cbn [ov_system sys_tasks s].
      ov_step_with s [EvDel key] Hinv.
      * exact Hnf.
      * reflexivity.
      * intros q H. now left.
      * intros q H. now left.
      * intros j. reflexivity.
      * intros j jd' e H. cbn in H.
        destruct (decide (j = job_id)) as [->|Hne].
        -- fold key in H. rewrite lookup_delete_eq in H. discriminate.
        -- rewrite lookup_delete_ne in H
             by (intros E; apply job_key_inj in E; congruence).
           now left.
      * intros j t jd' H. now left.
      * intros j sid jd' H. left. eapply elem_of_delete_index, H.
    + assert (Hsu : forall w',
                 forall j sid jd0,
                   Serving j sid (Some jd0) ∈ delete i susp ->
                   Serving j sid (Some jd0) ∈ susp \/ sound svc j jd0 w').
      { intros w' j sid jd0 H. left. eapply elem_of_delete_index, H. }
      destruct jd as [jd|].
      * rewrite serve_segment_nf by exact Hnf. cbv zeta.
        destruct (negb (String.eqb (jd_status jd) "completed"));
          [|destruct (find _ (jd_segments jd))]; cbn [snd].
        -- apply (ov_quiet_step svc s _ _ [] Hinv); try reflexivity; auto.
           cbn. now rewrite app_nil_r.
        -- apply (ov_quiet_step svc s _ _
                    [EvExists (get_cache_path svc job_id segment_id)] Hinv);
             try reflexivity; auto.
        -- apply (ov_quiet_step svc s _ _ [] Hinv); try reflexivity; auto.
           cbn. now rewrite app_nil_r.
      * cbn [serve_segment raise snd].
        apply (ov_quiet_step svc s _ _ [] Hinv); try reflexivity; auto.
        cbn. now rewrite app_nil_r.
Qed.

Lemma ov_run_inv svc ls :
  forall s s', ov_inv svc s -> ov_run svc ls s = Some s' -> ov_inv svc s'.
Proof.
  induction ls as [|l ls IH]; intros s s' Hinv Hrun; cbn in Hrun.
  - now injection Hrun as <-.
  - destruct (ov_step svc l s) as [s1|] eqn:E; [|discriminate].
    eapply IH; [|exact Hrun]. eapply ov_step_inv; eassumption.
Qed.

Lemma ov_boot_inv svc t : ov_inv svc (ov_boot t []).
Proof.
  unfold ov_inv, ov_boot, boot, inv_files, inv_order, inv_tasks.
  cbn [ov_system ov_suspended sys_world sys_tasks redis fs faults trace].
  split; [reflexivity|]. split; [|split; [|split; [|split]]].
  - intros q [x H]. rewrite lookup_empty in H. discriminate.
  - intros j. reflexivity.
  - intros j t' jd H. rewrite lookup_empty in H. discriminate.
  - intros j jd e H. rewrite lookup_empty in H. discriminate.
  - intros j sid jd H. now apply elem_of_nil in H.
Qed.

(** Only [delete_job] removes a file, and only the file of the job it is
    called for. *)
Lemma engine_events_keep evs q :
  forallb is_engine_event evs = true -> existsb (is_unlink q) evs = false.
Proof.
  induction evs as [|e evs IH]; [reflexivity|].
  cbn. intros H. apply andb_true_iff in H as [He H]. rewrite (IH H).
  now destruct e.
Qed.

Lemma unlinks_step (b : bool) p w w' evs :
  trace w' = trace w ++ evs ->
  (existsb (is_unlink p) evs = true -> b = true) ->
  existsb (is_unlink p) (trace w') = true ->
  existsb (is_unlink p) (trace w) = true \/ b = true.
Proof.
  intros -> He H. rewrite existsb_app in H.
  apply orb_true_iff in H as [H|H]; auto.
Qed.

Lemma ov_step_unlinks svc l s s' j :
  ov_inv svc s -> ov_step svc l s = Some s' ->
  existsb (is_unlink (seg_path svc j)) (trace (sys_world (ov_system s'))) = true ->
  existsb (is_unlink (seg_path svc j)) (trace (sys_world (ov_system s))) = true
  \/ deletes svc j l = true.
Proof.
  intros Hinv Hstep.
  pose proof Hinv as (Hnf & _ & _ & _ & Hrec & _).
  set (p := seg_path svc j).
  assert (Hdel : forall job_id jd,
             live (sys_world (ov_system s)) (job_key svc job_id) = Some jd ->
             existsb (is_unlink p)
               (snd (delete_files svc job_id (jd_segments jd)
                       (fs (sys_world (ov_system s))))) = true ->
             String.eqb job_id j = true).
  { intros job_id jd Hlive H.
    apply delete_files_unlinked in H as (seg & Hin & Hp).
    apply live_Some in Hlive as [e Hjd].
    destruct (Hrec _ _ _ Hjd) as [Hown _].
    destruct (Hown seg Hin) as [Hid _]. rewrite Hid in Hp.
    apply segment_path_inj in Hp. subst. apply String.eqb_refl. }
  destruct s as [[w tasks] susp].
  cbn [ov_system ov_suspended sys_world sys_tasks] in *.
  destruct l as [l | job_id | job_id segment_id | i]; cbn [ov_step] in Hstep;
    cbn [ov_system ov_suspended sys_world sys_tasks] in Hstep.
  - destruct l as [request new_id utcnow | job_id | job_id o | job_id
                  | job_id segment_id | job_id | d];
      cbn [sys_step ov_system ov_suspended sys_world sys_tasks] in Hstep.
    + destruct (tasks !! new_id) eqn:Efresh; [discriminate|].
      unfold create_job in Hstep. rewrite blank_rejected in Hstep.
      destruct (forallb isspace (req_text request)).
      { injection Hstep as <-. now left. }
      unfold store_job in Hstep.
      erewrite bind_ok in Hstep by (apply r_set_nf; exact Hnf).
      cbn in Hstep. injection Hstep as <-.
      cbn [ov_system sys_world].
      eapply unlinks_step; [reflexivity|]. discriminate.
    + destruct (tasks !! job_id) as [[t| |]|] eqn:Eq; try discriminate.
      rewrite accept_job_nf in Hstep by exact Hnf.
      destruct (live w (job_key svc job_id)) as [jd|];
        injection Hstep as <-; cbn [ov_system sys_world].
      * apply (unlinks_step _ _ _ _
                 [EvGet (job_key svc job_id);
                  EvSet (job_key svc job_id) (set_status "processing" jd)
                    JOB_EXPIRY_SECONDS]);
          [cbn; now rewrite <- app_assoc | discriminate].
      * eapply unlinks_step; [reflexivity|]. discriminate.
    + destruct (tasks !! job_id) as [[|t jd|]|] eqn:Eq; try discriminate.
      destruct (run_synthesis_nf svc job_id (task_text t)
                  (task_prefer_phonemes t) jd o w Hnf)
        as (jd' & w' & evs & Hrun & _ & _ & _ & Ht & He & _).
      erewrite try_ok in Hstep by exact Hrun. cbn [snd] in Hstep.
      injection Hstep as <-. cbn [ov_system sys_world].
      apply (unlinks_step _ _ _ _ _ Ht).
      rewrite existsb_app, (engine_events_keep _ _ He). discriminate.
    + injection Hstep as <-. cbn [ov_system sys_world].
      rewrite get_job_status_nf by exact Hnf.
      eapply unlinks_step; [reflexivity|]. discriminate.
    + injection Hstep as <-. cbn [ov_system sys_world].
      rewrite get_segment_audio_nf by exact Hnf.
      cbv zeta.
      destruct (live w (job_key svc job_id)) as [jd|];
        [destruct (negb (String.eqb (jd_status jd) "completed"));
         [|destruct (find _ (jd_segments jd))] |]; cbn [snd].
      * eapply unlinks_step; [reflexivity|]. discriminate.
      * apply (unlinks_step _ _ _ _
                 [EvGet (job_key svc job_id);
                  EvExists (get_cache_path svc job_id segment_id)]);
          [cbn; now rewrite <- app_assoc | discriminate].
      * eapply unlinks_step; [reflexivity|]. discriminate.
      * eapply unlinks_step; [reflexivity|]. discriminate.
    + injection Hstep as <-. cbn [ov_system sys_world].
      rewrite delete_job_nf by exact Hnf. cbv zeta.
      destruct (live w (job_key svc job_id)) as [jd|] eqn:Elive; cbn [snd].
      * apply (unlinks_step _ _ _ _
                 ([EvGet (job_key svc job_id)]
                  ++ snd (delete_files svc job_id (jd_segments jd) (fs w))
                  ++ [EvDel (job_key svc job_id)]));
          [cbn; now rewrite <- !app_assoc|].
        cbn. rewrite existsb_app. cbn. rewrite orb_false_r.
        apply (Hdel job_id jd Elive).
      * eapply unlinks_step; [reflexivity|]. discriminate.
    + destruct (0 <=? d); [|discriminate]. injection Hstep as <-. now left.
  - rewrite delete_job_files_nf in Hstep by exact Hnf. cbv zeta in Hstep.
    destruct (live w (job_key svc job_id)) as [jd|] eqn:Elive;
      injection Hstep as <-; cbn [ov_system sys_world ov_world].
    + apply (unlinks_step _ _ _ _
               ([EvGet (job_key svc job_id)]
                ++ snd (delete_files svc job_id (jd_segments jd) (fs w))));
        [cbn; now rewrite <- !app_assoc|].
      cbn. apply (Hdel job_id jd Elive).
    + eapply unlinks_step; [reflexivity|]. discriminate.
  - unfold get_job in Hstep. rewrite r_get_nf in Hstep by exact Hnf.
    injection Hstep as <-. cbn [ov_system sys_world ov_world].
    eapply unlinks_step; [reflexivity|]. discriminate.
  - destruct (susp !! i) as [[job_id | job_id segment_id jd]|] eqn:Ei;
      [| |discriminate]; injection Hstep as <-;
      cbn [ov_system sys_world ov_world].
    + rewrite delete_job_record_nf by exact Hnf.
      eapply unlinks_step; [reflexivity|]. discriminate.
    + destruct jd as [jd|]; [|now left].
      rewrite serve_segment_nf by exact Hnf. cbv zeta.
      destruct (negb (String.eqb (jd_status jd) "completed"));
        [|destruct (find _ (jd_segments jd))]; cbn [snd]; [now left| |now left].
      eapply unlinks_step; [reflexivity|]. discriminate.
Qed.

Lemma ov_run_unlinks svc ls j :
  forall s s',
    ov_inv svc s -> ov_run svc ls s = Some s' ->
    existsb (deletes svc j) ls = false ->
    existsb (is_unlink (seg_path svc j)) (trace (sys_world (ov_system s)))
    = false ->
    existsb (is_unlink (seg_path svc j)) (trace (sys_world (ov_system s')))
    = false.
Proof.
  induction ls as [|l ls IH]; intros s s' Hinv Hrun Hno Hs; cbn in Hrun.
  - now injection Hrun as <-.
  - destruct (ov_step svc l s) as [s1|] eqn:E; [|discriminate].
    cbn in Hno. apply orb_false_iff in Hno as [Hl Hls].
    apply (IH s1 s'); [eapply ov_step_inv; eassumption | exact Hrun
                      | exact Hls |].
    destruct (existsb _ (trace (sys_world (ov_system s1)))) eqn:E1;
      [|reflexivity].
    destruct (ov_step_unlinks svc l s s1 j Hinv E E1); congruence.
Qed.

(** A record that is sound and [completed] has its file served, unless
    the file was removed. *)
Lemma sound_served svc job_id job_data seg w :
  faults w = [] ->
  sound svc job_id job_data w ->
  jd_status job_data = "completed" ->
  seg ∈ jd_segments job_data ->
  existsb (is_unlink (seg_path svc job_id)) (trace w) = false ->
  seg_id seg = generate_segment_id job_id 0
  /\ fst (serve_segment svc job_id (seg_id seg) (Some job_data) w)
     = Ok {| fr_path := seg_path svc job_id;
             fr_media_type := media_type svc;
             fr_filename := seg_id seg +:+ cache_ext svc |}.
Proof.
  intros Hnf [Hown Hpub] Hdone Hin Hkept.
  destruct (Hown seg Hin) as [Hid _]. split; [exact Hid|].
  destruct (Hpub Hdone) as [_ [Hfile|Hgone]]; [|congruence].
  rewrite serve_segment_nf by exact Hnf. cbv zeta.
  rewrite Hdone. cbn [String.eqb negb].
  destruct (find_segment_some (seg_id seg) _ seg Hin eq_refl) as [seg' ->].
  cbn [fst]. rewrite Hid. fold (seg_path svc job_id).
  now rewrite bool_decide_true.
Qed.

(** C1, as amended.  In every state that the service reaches when no
    store operation fails, its handlers overlapping as their [await]s
    allow: no [completed] record of a job was written before the file of
    its segment; and whenever the status read for a job is [completed],
    the record lists a segment, and fetching the audio of a segment it
    lists answers with the file unless the file was removed, which only a
    [delete_job] for that job does.  The same holds of a
    [get_segment_audio] that has read the record and looks for the file
    later. *)
Theorem write_before_publish svc ls t s :
  ov_run svc ls (ov_boot t []) = Some s ->
  let w := sys_world (ov_system s) in
  (forall job_id,
     written_before_published (seg_path svc job_id) (job_key svc job_id) false
       (trace w) = true)
  /\ (forall job_id job_data,
        fst (get_job_status svc job_id w) = Ok job_data ->
        jd_status job_data = "completed" ->
        jd_segments job_data <> []
        /\ forall seg, seg ∈ jd_segments job_data ->
             existsb (is_unlink (seg_path svc job_id)) (trace w) = false ->
             fst (get_segment_audio svc job_id (seg_id seg) w)
             = Ok {| fr_path := seg_path svc job_id;
                     fr_media_type := media_type svc;
                     fr_filename := seg_id seg +:+ cache_ext svc |})
  /\ (forall i job_id segment_id job_data seg,
        ov_suspended s !! i
        = Some (Serving job_id segment_id (Some job_data)) ->
        jd_status job_data = "completed" ->
        seg ∈ jd_segments job_data -> seg_id seg = segment_id ->
        existsb (is_unlink (seg_path svc job_id)) (trace w) = false ->
        fst (serve_segment svc job_id segment_id (Some job_data) w)
        = Ok {| fr_path := seg_path svc job_id;
                fr_media_type := media_type svc;
                fr_filename := segment_id +:+ cache_ext svc |})
  /\ (forall job_id,
        existsb (deletes svc job_id) ls = false ->
        existsb (is_unlink (seg_path svc job_id)) (trace w) = false).
Proof.
  intros Hrun w.
  pose proof (ov_run_inv svc ls _ _ (ov_boot_inv svc t) Hrun)
    as (Hnf & _ & Hord & _ & Hrec & Hsusp).
  fold w in Hnf, Hord, Hrec, Hsusp.
  split; [exact Hord|]. split; [|split].
  - intros job_id jd Hget Hdone. rewrite get_job_status_nf in Hget by exact Hnf.
    cbn [fst] in Hget.
    destruct (live w (job_key svc job_id)) as [jd0|] eqn:Elive;
      [|discriminate].
    injection Hget as ->.
    destruct (live_Some _ _ _ Elive) as [e Hjd].
    pose proof (Hrec _ _ _ Hjd) as Hs. split; [now apply Hs|].
    intros seg Hin Hkept.
    destruct (sound_served svc job_id jd seg w Hnf Hs Hdone Hin Hkept)
      as [_ Hserve].
    rewrite get_segment_audio_parts. unfold bind, get_job.
    rewrite r_get_nf by exact Hnf. rewrite Elive.
    rewrite serve_segment_nf by exact Hnf.
    rewrite serve_segment_nf in Hserve by exact Hnf. cbv zeta in *.
    destruct (negb (String.eqb (jd_status jd) "completed"));
      [exact Hserve|].
    destruct (find _ (jd_segments jd)); exact Hserve.
  - intros i job_id sid jd seg Hi Hdone Hin <- Hkept.
    apply list_elem_of_lookup_2 in Hi.
    exact (proj2 (sound_served svc job_id jd seg w Hnf (Hsusp _ _ _ Hi)
                    Hdone Hin Hkept)).
  - intros job_id Hno.
    exact (ov_run_unlinks svc ls job_id _ _ (ov_boot_inv svc t) Hrun Hno
             eq_refl).
Qed.

(** C1 as it is stated fails: [delete_job] has removed the file of the
    job and awaits Redis for the removal of the record; the status read for
    the job is [completed], and its audio is not found. *)
Lemma completed_job_without_its_file :
  ov_run edge_service overlapping_run (ov_boot 0 []) = Some overlapping_system
  /\ faults (sys_world (ov_system overlapping_system)) = []
  /\ (exists job_data seg,
        fst (get_job_status edge_service "job-1"
               (sys_world (ov_system overlapping_system))) = Ok job_data
        /\ jd_status job_data = "completed"
        /\ jd_segments job_data = [seg] /\ seg_id seg = "job-1-seg-0")
  /\ fst (get_segment_audio edge_service "job-1" "job-1-seg-0"
            (sys_world (ov_system overlapping_system)))
     = Raise (HTTPException 404 "Audio file not found")
  /\ (exists job_data,
        ov_suspended overlapping_system !! 0%nat
        = Some (Serving "job-1" "job-1-seg-0" (Some job_data))
        /\ jd_status job_data = "completed"
        /\ fst (serve_segment edge_service "job-1" "job-1-seg-0"
                  (Some job_data) (sys_world (ov_system overlapping_system)))
           = Raise (HTTPException 404 "Audio file not found")).
Proof.
  split; [vm_compute; reflexivity|]. split; [reflexivity|].
  split; [|split].
  - eexists _, _. split; [vm_compute; reflexivity|].
    split; [reflexivity|]. split; reflexivity.
  - vm_compute. reflexivity.
  - eexists. split; [vm_compute; reflexivity|]. split; [reflexivity|].
    vm_compute. reflexivity.
Qed.

(** ** The checks of [get_segment_audio] *)

(** C5. [get_segment_audio] answers 404 when the job is absent; otherwise
    400 when its status is not [completed]; otherwise 404 when no segment
    of the record has the id asked for; otherwise 404 when the cache file
    is missing; otherwise the file, with the service's media type, which in
    every state the service reaches is the format its segments declare. *)
Theorem get_segment_audio_checks svc :
  (forall w job_id segment_id,
     faults w = [] ->
     let answer := fst (get_segment_audio svc job_id segment_id w) in
     let key := job_key svc job_id in
     let audio_path := get_cache_path svc job_id segment_id in
     (live w key = None ->
      answer = Raise (HTTPException 404 "Job not found"))
     /\ (forall job_data,
           live w key = Some job_data ->
           jd_status job_data <> "completed" ->
           answer
           = Raise (HTTPException 400
                      ("Job is " +:+ jd_status job_data +:+ ", not completed")))
     /\ (forall job_data,
           live w key = Some job_data ->
           jd_status job_data = "completed" ->
           (forall seg, seg ∈ jd_segments job_data -> seg_id seg <> segment_id) ->
           answer = Raise (HTTPException 404 "Segment not found"))
     /\ (forall job_data seg,
           live w key = Some job_data ->
           jd_status job_data = "completed" ->
           seg ∈ jd_segments job_data -> seg_id seg = segment_id ->
           fs w !! audio_path = None ->
           answer = Raise (HTTPException 404 "Audio file not found"))
     /\ (forall job_data seg data,
           live w key = Some job_data ->
           jd_status job_data = "completed" ->
           seg ∈ jd_segments job_data -> seg_id seg = segment_id ->
           fs w !! audio_path = Some data ->
           answer = Ok {| fr_path := audio_path;
                          fr_media_type := media_type svc;
                          fr_filename := segment_id +:+ cache_ext svc |}))
  /\ (forall ls t s job_id job_data seg,
        sys_run svc ls (boot t []) = Some s ->
        live (sys_world s) (job_key svc job_id) = Some job_data ->
        seg ∈ jd_segments job_data ->
        seg_format seg = media_type svc).
Proof.
  split.
  - intros w job_id segment_id Hnf answer key audio_path. subst answer.
    rewrite get_segment_audio_nf by exact Hnf. cbv zeta. fold key audio_path.
    split; [|split; [|split; [|split]]].
    + now intros ->.
    + intros jd -> Hst. apply String.eqb_neq in Hst. now rewrite Hst.
    + intros jd -> Hst Hno. apply String.eqb_eq in Hst. rewrite Hst.
      cbn [negb]. now rewrite find_segment_none.
    + intros jd seg -> Hst Hin Hid Hfile. apply String.eqb_eq in Hst.
      rewrite Hst. cbn [negb].
      destruct (find_segment_some segment_id _ seg Hin Hid) as [seg' ->].
      rewrite Hfile.
      now rewrite bool_decide_false by (intros [? ?]; discriminate).
    + intros jd seg data -> Hst Hin Hid Hfile. apply String.eqb_eq in Hst.
      rewrite Hst. cbn [negb].
      destruct (find_segment_some segment_id _ seg Hin Hid) as [seg' ->].
      rewrite Hfile. now rewrite bool_decide_true by eauto.
  - intros ls t s job_id jd seg Hrun Hlive Hin.
    destruct (reachable_inv svc ls t s Hrun) as (_ & Hrec & _).
    destruct (live_Some _ _ _ Hlive) as [e Hjd].
    destruct (Hrec _ _ _ Hjd) as [Hown _]. now apply Hown.
Qed.

(** ** Deletion *)


(** ** Expiry *)

Lemma expiries_no_sets evs :
  sets_written evs = [] -> expiries_written evs = [].
Proof.
  induction evs as [|e evs IH]; [reflexivity|].
  destruct e; cbn; try exact IH. discriminate.
Qed.

Lemma expiring_quiet {A} (m : M A) : quiet m -> expiring m.
Proof.
  intros H w. destruct (H w) as (evs & Ht & Hs). exists evs.
  split; [exact Ht|]. rewrite (expiries_no_sets _ Hs). constructor.
Qed.

Lemma expiring_bind {A B} (m : M A) (k : A -> M B) :
  expiring m -> (forall a, expiring (k a)) -> expiring (bind m k).
Proof.
  intros Hm Hk w. unfold bind. destruct (Hm w) as (evs1 & H1 & S1).
  destruct (m w) as [[a|e] w1]; cbn [snd] in H1.
  - destruct (Hk a w1) as (evs2 & H2 & S2). exists (evs1 ++ evs2).
    rewrite H2, H1, expiries_written_app, app_assoc.
    split; [reflexivity|]. now apply Forall_app.
  - exists evs1. auto.
Qed.

Lemma expiring_try {A} (m : M A) (h : exn -> M A) :
  expiring m -> (forall e, expiring (h e)) -> expiring (try_except m h).
Proof.
  intros Hm Hh w. unfold try_except. destruct (Hm w) as (evs1 & H1 & S1).
  destruct (m w) as [[a|e] w1]; cbn [snd] in H1.
  - exists evs1. auto.
  - destruct (Hh e w1) as (evs2 & H2 & S2). exists (evs1 ++ evs2).
    rewrite H2, H1, expiries_written_app, app_assoc.
    split; [reflexivity|]. now apply Forall_app.
Qed.

Lemma expiring_r_set k v : expiring (r_set k v JOB_EXPIRY_SECONDS).
Proof.
  intros [r f c fl tr]. destruct fl as [|[msg|] rest]; world_cbv.
  - exists [EvSet k v JOB_EXPIRY_SECONDS]. split; [reflexivity|].
    now repeat constructor.
  - exists []. rewrite app_nil_r. split; [reflexivity|constructor].
  - exists [EvSet k v JOB_EXPIRY_SECONDS]. split; [reflexivity|].
    now repeat constructor.
Qed.

Ltac expiring_steps :=
  repeat first
    [ apply expiring_r_set
    | solve [apply expiring_quiet; quiet_steps]
    | apply expiring_bind; [|intros ?]
    | apply expiring_try; [|intros ?]
    | match goal with
      | |- expiring (match ?x with _ => _ end) => destruct x
      end ].

Lemma expiring_create_job svc request new_id utcnow :
  expiring (create_job svc request new_id utcnow).
Proof. unfold create_job, store_job. cbv zeta. expiring_steps. Qed.

Lemma expiring_accept_job svc job_id : expiring (accept_job svc job_id).
Proof. unfold accept_job. cbv zeta. expiring_steps. Qed.

Lemma expiring_on_error svc job_id e : expiring (on_error svc job_id e).
Proof. unfold on_error. cbv zeta. expiring_steps. Qed.

Lemma expiring_run_synthesis svc job_id text prefer_phonemes job_data
    (o : outcome (engine svc)) :
  expiring (run_synthesis svc job_id text prefer_phonemes job_data o).
Proof.
  unfold run_synthesis. cbv zeta.
  apply expiring_bind; [apply expiring_quiet, quiet_synthesize|].
  intros [success wt]. expiring_steps.
Qed.

(** An operation of the services extends the trace by writes that carry
    the expiry of the services. *)
Lemma expiring_step {A} (m : M A) w :
  expiring m ->
  Forall (fun ex => ex = JOB_EXPIRY_SECONDS) (expiries_written (trace w)) ->
  Forall (fun ex => ex = JOB_EXPIRY_SECONDS)
    (expiries_written (trace (snd (m w)))).
Proof.
  intros Hm Hw. destruct (Hm w) as (evs & -> & He).
  rewrite expiries_written_app. now apply Forall_app.
Qed.

Lemma sys_step_expiries svc l s s' :
  Forall (fun ex => ex = JOB_EXPIRY_SECONDS)
    (expiries_written (trace (sys_world s))) ->
  sys_step svc l s = Some s' ->
  Forall (fun ex => ex = JOB_EXPIRY_SECONDS)
    (expiries_written (trace (sys_world s'))).
Proof.
  intros Hinv Hstep.
  destruct l as [request new_id utcnow | job_id | job_id o | job_id
                | job_id segment_id | job_id | d]; cbn [sys_step] in Hstep.
  - destruct (sys_tasks s !! new_id); [discriminate|].
    pose proof (expiring_step _ (sys_world s)
                  (expiring_create_job svc request new_id utcnow) Hinv) as H.
    destruct (create_job svc request new_id utcnow (sys_world s))
      as [[[c t]|e] w']; injection Hstep as <-; exact H.
  - destruct (sys_tasks s !! job_id) as [[t| |]|]; try discriminate.
    pose proof (expiring_step _ (sys_world s)
                  (expiring_accept_job svc job_id) Hinv) as H.
    destruct (accept_job svc job_id (sys_world s)) as [[[jd|]|e] w'];
      injection Hstep as <-; cbn [sys_world snd] in *; try exact H.
    now apply expiring_step; [apply expiring_on_error|].
  - destruct (sys_tasks s !! job_id) as [[|t jd|]|]; try discriminate.
    injection Hstep as <-. cbn [sys_world].
    apply expiring_step; [|exact Hinv].
    apply expiring_try; [apply expiring_run_synthesis|].
    intros e. apply expiring_on_error.
  - injection Hstep as <-. cbn [sys_world].
    apply expiring_step; [|exact Hinv].
    apply expiring_quiet, quiet_get_job_status.
  - injection Hstep as <-. cbn [sys_world].
    apply expiring_step; [|exact Hinv].
    apply expiring_quiet, quiet_get_segment_audio.
  - injection Hstep as <-. cbn [sys_world].
    apply expiring_step; [|exact Hinv].
    apply expiring_quiet, quiet_delete_job.
  - destruct (0 <=? d); [|discriminate]. injection Hstep as <-. exact Hinv.
Qed.

Lemma sys_run_expiries svc ls :
  forall s s',
    Forall (fun ex => ex = JOB_EXPIRY_SECONDS)
      (expiries_written (trace (sys_world s))) ->
    sys_run svc ls s = Some s' ->
    Forall (fun ex => ex = JOB_EXPIRY_SECONDS)
      (expiries_written (trace (sys_world s'))).
Proof.
  induction ls as [|l ls IH]; intros s s' Hinv Hrun; cbn in Hrun.
  - now injection Hrun as <-.
  - destruct (sys_step svc l s) as [s1|] eqn:E; [|discriminate].
    eapply IH; [|exact Hrun]. eapply sys_step_expiries; eassumption.
Qed.

(** A record written at the instant of [w] with the expiry of the services
    is served for exactly that long. *)
Lemma written_fresh_window svc w r job_id job_data :
  faults w = [] ->
  redis w
  = <[job_key svc job_id := (job_data, clock w + JOB_EXPIRY_SECONDS)]> r ->
  fresh_window svc w job_id job_data.
Proof.
  intros Hnf Hr d Hd. rewrite get_job_status_nf by exact Hnf. cbn [fst].
  unfold live. cbn [redis clock advance]. rewrite Hr, lookup_insert_eq.
  unfold JOB_EXPIRY_SECONDS.
  destruct (Z.leb_spec d 3600), (Z.leb_spec (clock w + d) (clock w + 3600));
    try reflexivity; lia.
Qed.

Lemma on_error_nf svc job_id e w :
  faults w = [] ->
  on_error svc job_id e w
  = match live w (job_key svc job_id) with
    | Some job_data =>
        let failed := set_error (str e) (set_status "failed" job_data) in
        (Ok tt,
         set_redis
           (<[job_key svc job_id := (failed, clock w + JOB_EXPIRY_SECONDS)]>
              (redis w))
           (add_trace [EvSet (job_key svc job_id) failed JOB_EXPIRY_SECONDS]
              (add_trace [EvGet (job_key svc job_id)] w)))
    | None => (Ok tt, add_trace [EvGet (job_key svc job_id)] w)
    end.
Proof.
  intros Hnf. unfold on_error. cbv zeta.
  destruct (live w (job_key svc job_id)) as [jd|] eqn:E.
  - erewrite try_ok; [reflexivity|].
    erewrite bind_ok by (apply r_get_nf; exact Hnf). rewrite E.
    now rewrite r_set_nf by exact Hnf.
  - erewrite try_ok; [reflexivity|].
    erewrite bind_ok by (apply r_get_nf; exact Hnf). now rewrite E.
Qed.

(** C8. Whatever store operations fail, every write to Redis that the
    service makes carries the expiry of 3600 seconds.  Each of the writes
    of a job record, the one of [create_job], the [processing] write and
    the terminal write of the executor, and the write of its [except]
    clause, counts the expiry from the instant of the write: from then on
    the record is served for 3600 seconds whatever its age was, and after
    that reading its status answers 404. *)
Theorem every_write_refreshes_expiry svc :
  JOB_EXPIRY_SECONDS = 3600
  /\ (forall ls t failures s,
        sys_run svc ls (boot t failures) = Some s ->
        Forall (fun ex => ex = JOB_EXPIRY_SECONDS)
          (expiries_written (trace (sys_world s))))
  /\ (forall job_id w,
        faults w = [] ->
        (forall request utcnow r w',
           create_job svc request job_id utcnow w = (Ok r, w') ->
           exists job_data,
             expiries_written (trace w')
             = expiries_written (trace w) ++ [JOB_EXPIRY_SECONDS]
             /\ jd_status job_data = "pending"
             /\ fresh_window svc w' job_id job_data)
        /\ (forall job_data w',
              accept_job svc job_id w = (Ok (Some job_data), w') ->
              expiries_written (trace w')
              = expiries_written (trace w) ++ [JOB_EXPIRY_SECONDS]
              /\ jd_status job_data = "processing"
              /\ fresh_window svc w' job_id job_data)
        /\ (forall text prefer_phonemes job_data (o : outcome (engine svc)),
              exists job_data' w',
                run_synthesis svc job_id text prefer_phonemes job_data o w
                = (Ok tt, w')
                /\ expiries_written (trace w')
                   = expiries_written (trace w) ++ [JOB_EXPIRY_SECONDS]
                /\ is_terminal (jd_status job_data') = true
                /\ fresh_window svc w' job_id job_data')
        /\ (forall e job_data,
              live w (job_key svc job_id) = Some job_data ->
              exists job_data' w',
                on_error svc job_id e w = (Ok tt, w')
                /\ expiries_written (trace w')
                   = expiries_written (trace w) ++ [JOB_EXPIRY_SECONDS]
                /\ jd_status job_data' = "failed"
                /\ fresh_window svc w' job_id job_data')).
Proof.
  split; [reflexivity|]. split.
  { intros ls t failures s Hrun.
    eapply sys_run_expiries; [|exact Hrun]. constructor. }
  intros job_id w Hnf. split; [|split; [|split]].
  - intros request utcnow r w' Hc.
    unfold create_job in Hc. rewrite blank_rejected in Hc.
    destruct (forallb isspace (req_text request)); [discriminate|].
    unfold store_job in Hc.
    erewrite bind_ok in Hc by (apply r_set_nf; exact Hnf).
    injection Hc as <- <-. eexists. split; [|split]; cycle 2.
    + eapply written_fresh_window; [exact Hnf|reflexivity].
    + cbn. now rewrite expiries_written_app.
    + reflexivity.
  - intros jd w' Ha. rewrite accept_job_nf in Ha by exact Hnf.
    destruct (live w (job_key svc job_id)) as [jd0|]; [|discriminate].
    injection Ha as <- <-. split; [|split].
    + cbn [trace add_trace set_redis]. rewrite !expiries_written_app.
      cbn. now rewrite app_nil_r.
    + reflexivity.
    + eapply written_fresh_window; [exact Hnf|reflexivity].
  - intros text pp jd o.
    destruct (run_synthesis_nf svc job_id text pp jd o w Hnf)
      as (jd' & w' & evs & Hrun & Hr & Hc & Hf & Ht & He & _ & _ & Hcase).
    exists jd', w'. split; [exact Hrun|]. split; [|split].
    + rewrite Ht, !expiries_written_app.
      destruct (engine_events_quiet _ He) as [-> _]. reflexivity.
    + destruct Hcase as [(data & wt & -> & _)| ->]; reflexivity.
    + eapply written_fresh_window; [exact Hf|]. rewrite Hc. exact Hr.
  - intros e jd Hlive. rewrite on_error_nf by exact Hnf. rewrite Hlive.
    cbv zeta. eexists _, _. split; [reflexivity|]. split; [|split]; cycle 2.
    + eapply written_fresh_window; [exact Hnf|reflexivity].
    + cbn [trace add_trace set_redis]. rewrite !expiries_written_app.
      cbn. now rewrite app_nil_r.
    + reflexivity.
Qed.

(** ** The executor and a record that is gone *)

(** A read of Redis that succeeds, whatever failures are scheduled, changes
    neither the store nor the files. *)
Lemma r_get_ok k w v w1 :
  r_get k w = (Ok v, w1) ->
  v = live w k /\ trace w1 = trace w ++ [EvGet k]
  /\ redis w1 = redis w /\ fs w1 = fs w /\ clock w1 = clock w.
Proof.
  destruct w as [r f c fl tr]. destruct fl as [|[msg|] rest]; world_cbv;
    intros H; try discriminate; injection H as <- <-; cbn; auto.
Qed.

(** C9. When the executor's first read finds no record, it returns at
    once: the read is its only operation, so the engine is not called.
    When the record is deleted, or expires, between the [processing] write
    and the terminal write, the executor still calls the engine and writes
    the terminal record without reading Redis again; the record is there
    afterwards, terminal, with the full expiry. *)
Theorem executor_and_absent_record svc job_id text voice prefer_phonemes
    (o : outcome (engine svc)) :
  let key := job_key svc job_id in
  (forall w w1,
     r_get key w = (Ok None, w1) ->
     process_job_with_new_redis svc job_id text voice prefer_phonemes o w
     = (Ok tt, w1)
     /\ trace w1 = trace w ++ [EvGet key]
     /\ redis w1 = redis w /\ fs w1 = fs w)
  /\ (forall w job_data w1,
        faults w = [] ->
        accept_job svc job_id w = (Ok (Some job_data), w1) ->
        forall w2,
          w2 = snd (delete_job svc job_id w1)
          \/ (exists d, JOB_EXPIRY_SECONDS < d /\ w2 = advance d w1) ->
          live w2 key = None
          /\ exists job_data' w3 evs,
               run_synthesis svc job_id text prefer_phonemes job_data o w2
               = (Ok tt, w3)
               /\ trace w3
                  = trace w2 ++ evs ++ [EvSet key job_data' JOB_EXPIRY_SECONDS]
               /\ keys_read evs = []
               /\ existsb is_synth evs = true
               /\ is_terminal (jd_status job_data') = true
               /\ redis w3 !! key
                  = Some (job_data', clock w2 + JOB_EXPIRY_SECONDS)
               /\ live w3 key = Some job_data').
Proof.
  intros key. split.
  - intros w w1 Hget.
    destruct (r_get_ok _ _ _ _ Hget) as (_ & Ht & Hr & Hf & _).
    split; [|auto].
    unfold process_job_with_new_redis, accept_job. cbv zeta. fold key.
    erewrite try_ok; [reflexivity|].
    erewrite bind_ok; [|erewrite bind_ok by exact Hget; reflexivity].
    reflexivity.
  - intros w jd w1 Hnf Ha w2 Hw2.
    rewrite accept_job_nf in Ha by exact Hnf. fold key in Ha.
    destruct (live w key) as [jd0|]; [|discriminate].
    injection Ha as <- <-.
    set (jdp := set_status "processing" jd0) in *.
    set (w1 := set_redis _ _) in *.
    assert (Hlive1 : live w1 key = Some jdp).
    { eapply live_written. reflexivity. }
    assert (Hgone : live w2 key = None /\ faults w2 = []).
    { destruct Hw2 as [-> | (d & Hd & ->)].
      - rewrite delete_job_nf by exact Hnf. cbv zeta. fold key.
        rewrite Hlive1. cbn [snd]. split; [|exact Hnf].
        unfold live. cbn. now rewrite lookup_delete_eq.
      - split; [|exact Hnf]. unfold live. cbn.
        rewrite lookup_insert_eq. unfold JOB_EXPIRY_SECONDS in *.
        destruct (Z.leb_spec (clock w + d) (clock w + 3600)); [lia|reflexivity]. }
    destruct Hgone as [Hgone Hnf2]. split; [exact Hgone|].
    destruct (run_synthesis_nf svc job_id text prefer_phonemes jdp o w2 Hnf2)
      as (jd' & w3 & evs & Hrun & Hr & Hc & Hf & Ht & He & Hsy & _ & Hcase).
    exists jd', w3, evs. split; [exact Hrun|]. split; [exact Ht|].
    split; [now apply engine_events_quiet|].
    split; [exact Hsy|]. split; [|split].
    + destruct Hcase as [(data & wt & -> & _)| ->]; reflexivity.
    + fold key in Hr. rewrite Hr. apply lookup_insert_eq.
    + eapply live_written. rewrite Hc. exact Hr.
Qed.

(** ** The message of a failed job *)

Lemma edge_synthesis_fails dir dv job_id text prefer_phonemes job_data
    (o : edge_stream) w :
  let svc := {| engine := EdgeTTS; CACHE_DIR := dir; DEFAULT_VOICE := dv |} in
  faults w = [] ->
  stream_raised o <> None \/ audio_of (stream_chunks o) = [] ->
  exists w',
    run_synthesis svc job_id text prefer_phonemes job_data o w = (Ok tt, w')
    /\ live w' (job_key svc job_id)
       = Some (set_error "Synthesis failed" (set_status "failed" job_data)).
Proof.
  intros svc Hnf Hfail. unfold run_synthesis, synthesize. cbn [engine svc].
  cbv zeta.
  set (v := default dv (jd_voice job_data)).
  set (p := get_cache_path svc job_id (generate_segment_id job_id 0)).
  assert (Hs : synthesize_text_with_timing text v p o w
               = (Ok (false, []), add_trace [EvSynth v text] w)).
  { rewrite synthesize_text_with_timing_nf by exact Hnf.
    destruct (stream_raised o) as [msg|]; [reflexivity|].
    destruct Hfail as [Hn| ->]; [congruence|reflexivity]. }
  erewrite bind_ok by exact Hs.
  cbv beta iota.
  erewrite bind_ok by reflexivity. erewrite bind_ok by reflexivity.
  rewrite r_set_nf by exact Hnf.
  eexists. split; [reflexivity|]. eapply live_written. reflexivity.
Qed.

(** The file cannot be opened: the first operation on the cache directory
    fails. *)
Lemma edge_persistence_fails dir dv job_id text prefer_phonemes job_data
    (o : edge_stream) w msg :
  let svc := {| engine := EdgeTTS; CACHE_DIR := dir; DEFAULT_VOICE := dv |} in
  faults w = [Some msg] ->
  stream_raised o = None -> audio_of (stream_chunks o) <> [] ->
  exists w',
    run_synthesis svc job_id text prefer_phonemes job_data o w = (Ok tt, w')
    /\ live w' (job_key svc job_id)
       = Some (set_error "Synthesis failed" (set_status "failed" job_data)).
Proof.
  intros svc Hf Hr Ha. unfold run_synthesis, synthesize. cbn [engine svc].
  cbv zeta. unfold synthesize_text_with_timing. rewrite Hr.
  destruct (audio_of (stream_chunks o)) as [|c rest]; [congruence|].
  destruct w as [r f c0 fl tr]. cbn in Hf. subst fl.
  eexists. split; [reflexivity|].
  unfold live. cbn. rewrite lookup_insert_eq. unfold JOB_EXPIRY_SECONDS.
  destruct (Z.leb_spec c0 (c0 + 3600)); [reflexivity|lia].
Qed.

Lemma espeak_synthesis_fails dir dv job_id text prefer_phonemes job_data
    (o : espeak_run) w :
  let svc := {| engine := EspeakNG; CACHE_DIR := dir; DEFAULT_VOICE := dv |} in
  faults w = [] ->
  (exists msg, run_exit o = Failed msg)
  \/ (exists rc wav, run_exit o = Exited rc wav /\ rc <> 0)
  \/ run_exit o = Exited 0 (Some [])
  \/ (run_exit o = Exited 0 None /\ fs w !! seg_path svc job_id = None) ->
  exists w',
    run_synthesis svc job_id text prefer_phonemes job_data o w = (Ok tt, w')
    /\ live w' (job_key svc job_id)
       = Some (set_error "Synthesis failed" (set_status "failed" job_data)).
Proof.
  intros svc Hnf Hfail. unfold run_synthesis, synthesize. cbn [engine svc].
  cbv zeta. fold (seg_path svc job_id).
  set (p := seg_path svc job_id) in *.
  assert (Hs : exists w1,
    synthesize_text text (default dv (jd_voice job_data)) p prefer_phonemes o w
    = (Ok false, w1) /\ faults w1 = [] /\ clock w1 = clock w).
  { rewrite synthesize_text_nf by exact Hnf. cbv zeta.
    destruct Hfail as [[msg ->] | [(rc & wav & -> & Hrc) | [-> | [-> Hp]]]].
    - eexists. split; [reflexivity|]. now split.
    - apply Z.eqb_neq in Hrc. rewrite Hrc. cbn [negb].
      eexists. split; [reflexivity|]. destruct wav; now split.
    - cbn [Z.eqb negb fs set_fs]. rewrite lookup_insert_eq. cbn.
      eexists. split; [reflexivity|]. now split.
    - cbn [Z.eqb negb fs add_trace]. rewrite Hp.
      eexists. split; [reflexivity|]. now split. }
  destruct Hs as (w1 & Hs & Hnf1 & Hc1).
  erewrite bind_ok; [|erewrite bind_ok by exact Hs; reflexivity].
  cbv beta iota.
  erewrite bind_ok by reflexivity. erewrite bind_ok by reflexivity.
  rewrite r_set_nf by exact Hnf1.
  eexists. split; [reflexivity|]. eapply live_written. reflexivity.
Qed.

Lemma bind_inv {A B} (m : M A) (k : A -> M B) w b w' :
  bind m k w = (Ok b, w') ->
  exists a w1, m w = (Ok a, w1) /\ k a w1 = (Ok b, w').
Proof.
  unfold bind. destruct (m w) as [[a|e] w1]; [eauto|discriminate].
Qed.

(** A write to Redis that succeeds, whatever failures are scheduled. *)
Lemma r_set_ok k v ex w w' :
  r_set k v ex w = (Ok tt, w') ->
  redis w' = <[k := (v, clock w + ex)]> (redis w) /\ clock w' = clock w.
Proof.
  destruct w as [r f c fl tr]. destruct fl as [|[msg|] rest]; world_cbv;
    intros H; try discriminate; injection H as <-; cbn; auto.
Qed.

(** Whatever fails on the way, a terminal write of the executor that
    succeeds stores a [completed] record or the fixed message. *)
Lemma run_synthesis_record svc job_id text prefer_phonemes job_data
    (o : outcome (engine svc)) w w' :
  run_synthesis svc job_id text prefer_phonemes job_data o w = (Ok tt, w') ->
  exists job_data',
    live w' (job_key svc job_id) = Some job_data'
    /\ ((jd_status job_data' = "completed"
         /\ jd_error job_data' = jd_error job_data)
        \/ job_data'
           = set_error "Synthesis failed" (set_status "failed" job_data)).
Proof.
  unfold run_synthesis. cbv zeta. intros H.
  apply bind_inv in H as ([success wt] & w1 & _ & H).
  apply bind_inv in H as (there & w2 & _ & H).
  apply bind_inv in H as (jd' & w3 & Hjd & H).
  apply r_set_ok in H as [Hr Hc]. exists jd'. split.
  - eapply live_written. rewrite Hc. exact Hr.
  - destruct there.
    + apply bind_inv in Hjd as (sz & w4 & _ & Hjd). injection Hjd as <- _.
      left. now split.
    + injection Hjd as <- _. now right.
Qed.

(** Redis fails at the [processing] write: the [except] clause reads the
    record again and stores the message of the exception. *)
Lemma store_failure_message svc job_id text voice prefer_phonemes
    (o : outcome (engine svc)) w job_data msg :
  faults w = [None; Some msg] ->
  live w (job_key svc job_id) = Some job_data ->
  exists w',
    process_job_with_new_redis svc job_id text voice prefer_phonemes o w
    = (Ok tt, w')
    /\ live w' (job_key svc job_id)
       = Some (set_error msg (set_status "failed" job_data))
    /\ statuses_written (job_key svc job_id) (trace w')
       = statuses_written (job_key svc job_id) (trace w) ++ ["failed"].
Proof.
  intros Hf Hlive. destruct w as [r f c fl tr]. cbn in Hf. subst fl.
  unfold live in Hlive. cbv [redis clock] in Hlive.
  unfold process_job_with_new_redis, accept_job, on_error. cbv zeta.
  world_cbv.
  destruct (r !! job_key svc job_id) as [[v e]|] eqn:E; [|discriminate].
  destruct (c <=? e) eqn:Ec; [|discriminate]. injection Hlive as ->.
  world_cbv. rewrite E, Ec. world_cbv.
  eexists. split; [reflexivity|]. split.
  - unfold live. cbn. rewrite lookup_insert_eq. unfold JOB_EXPIRY_SECONDS.
    destruct (Z.leb_spec c (c + 3600)); [reflexivity|lia].
  - cbn. rewrite !statuses_written_app. cbn.
    rewrite String.eqb_refl. now rewrite !app_nil_r.
Qed.

(** C7, as amended.  When the engine raises, reports failure, or leaves no
    audio, and when the audio file cannot be opened, the record becomes
    [failed] with the fixed message "Synthesis failed": the engine's own
    message is not kept.  Whatever fails on the way, the terminal record
    that the executor writes is either [completed] or [failed] with that
    fixed message.  Only the [except] clause of
    the executor, reached when a store operation raises, stores the
    message of the exception, and it stores the whole of it. *)
Theorem failure_message_recorded :
  (forall dir dv job_id text prefer_phonemes job_data (o : edge_stream) w,
     let svc := {| engine := EdgeTTS; CACHE_DIR := dir; DEFAULT_VOICE := dv |} in
     faults w = [] ->
     stream_raised o <> None \/ audio_of (stream_chunks o) = [] ->
     exists w',
       run_synthesis svc job_id text prefer_phonemes job_data o w = (Ok tt, w')
       /\ live w' (job_key svc job_id)
          = Some (set_error "Synthesis failed" (set_status "failed" job_data)))
  /\ (forall dir dv job_id text prefer_phonemes job_data (o : edge_stream) w msg,
        let svc :=
          {| engine := EdgeTTS; CACHE_DIR := dir; DEFAULT_VOICE := dv |} in
        faults w = [Some msg] ->
        stream_raised o = None -> audio_of (stream_chunks o) <> [] ->
        exists w',
          run_synthesis svc job_id text prefer_phonemes job_data o w
          = (Ok tt, w')
          /\ live w' (job_key svc job_id)
             = Some (set_error "Synthesis failed"
                       (set_status "failed" job_data)))
  /\ (forall dir dv job_id text prefer_phonemes job_data (o : espeak_run) w,
        let svc :=
          {| engine := EspeakNG; CACHE_DIR := dir; DEFAULT_VOICE := dv |} in
        faults w = [] ->
        (exists msg, run_exit o = Failed msg)
        \/ (exists rc wav, run_exit o = Exited rc wav /\ rc <> 0)
        \/ run_exit o = Exited 0 (Some [])
        \/ (run_exit o = Exited 0 None /\ fs w !! seg_path svc job_id = None) ->
        exists w',
          run_synthesis svc job_id text prefer_phonemes job_data o w
          = (Ok tt, w')
          /\ live w' (job_key svc job_id)
             = Some (set_error "Synthesis failed"
                       (set_status "failed" job_data)))
  /\ (forall svc job_id text prefer_phonemes job_data
             (o : outcome (engine svc)) w w',
        run_synthesis svc job_id text prefer_phonemes job_data o w
        = (Ok tt, w') ->
        exists job_data',
          live w' (job_key svc job_id) = Some job_data'
          /\ ((jd_status job_data' = "completed"
               /\ jd_error job_data' = jd_error job_data)
              \/ (jd_status job_data' = "failed"
                  /\ jd_error job_data' = Some "Synthesis failed")))
  /\ (forall svc job_id e job_data w,
        faults w = [] ->
        live w (job_key svc job_id) = Some job_data ->
        exists w',
          on_error svc job_id e w = (Ok tt, w')
          /\ live w' (job_key svc job_id)
             = Some (set_error (str e) (set_status "failed" job_data)))
  /\ (forall svc job_id text voice prefer_phonemes (o : outcome (engine svc))
             w job_data msg,
        faults w = [None; Some msg] ->
        live w (job_key svc job_id) = Some job_data ->
        exists w' job_data',
          process_job_with_new_redis svc job_id text voice prefer_phonemes o w
          = (Ok tt, w')
          /\ live w' (job_key svc job_id) = Some job_data'
          /\ jd_status job_data' = "failed"
          /\ jd_error job_data' = Some msg).
Proof.
  split; [exact edge_synthesis_fails|].
  split; [exact edge_persistence_fails|].
  split; [exact espeak_synthesis_fails|].
  split; [|split].
  - intros svc job_id text pp jd o w w' Hrun.
    destruct (run_synthesis_record svc job_id text pp jd o w w' Hrun)
      as (jd' & Hlive & Hcase).
    exists jd'. split; [exact Hlive|].
    destruct Hcase as [Hc | ->]; [now left | right; now split].
  - intros svc job_id e jd w Hnf Hlive. rewrite on_error_nf by exact Hnf.
    rewrite Hlive. cbv zeta. eexists. split; [reflexivity|].
    eapply live_written. reflexivity.
  - intros svc job_id text voice pp o w jd msg Hf Hlive.
    destruct (store_failure_message svc job_id text voice pp o w jd msg Hf Hlive)
      as (w' & Hrun & Hlive' & _).
    exists w', (set_error msg (set_status "failed" jd)). auto.
Qed.

(** C7 as it is stated fails: the edge stream raises "Connection reset by
    peer", and the record of the failed job carries "Synthesis failed". *)
Lemma engine_message_is_lost :
  stream_raised broken_stream = Some "Connection reset by peer"
  /\ exists job_data,
       live failed_world (job_key edge_service "job-1") = Some job_data
       /\ jd_status job_data = "failed"
       /\ jd_error job_data = Some "Synthesis failed"
       /\ jd_error job_data <> Some "Connection reset by peer".
Proof.
  split; [reflexivity|]. eexists. split; [vm_compute; reflexivity|].
  split; [reflexivity|]. split; [reflexivity|]. intros H. discriminate H.
Qed.

(** ** Empty audio *)

(** C2 fails on the edge service: the stream yields one audio chunk
    without a byte; the job becomes [completed], its segment has size 0 and
    its file is empty. *)
Lemma edge_publishes_empty_audio :
  audio_of (stream_chunks silent_stream) = [[]]
  /\ exists job_data seg,
       live silent_world (job_key edge_service "job-1") = Some job_data
       /\ jd_status job_data = "completed"
       /\ jd_segments job_data = [seg]
       /\ seg_status seg = "completed"
       /\ seg_file_size seg = 0
       /\ fs silent_world !! seg_path edge_service "job-1" = Some [].
Proof.
  split; [reflexivity|]. eexists _, _. split; [vm_compute; reflexivity|].
  split; [reflexivity|]. split; [reflexivity|]. split; [reflexivity|].
  split; [reflexivity|]. vm_compute. reflexivity.
Qed.

(** On the espeak service a [completed] record always has a file that is
    not empty, as [synthesize_text] checks the size of the file. *)
Lemma espeak_publishes_audio dir dv job_id text prefer_phonemes job_data
    (o : espeak_run) w :
  let svc := {| engine := EspeakNG; CACHE_DIR := dir; DEFAULT_VOICE := dv |} in
  faults w = [] ->
  exists job_data' w',
    run_synthesis svc job_id text prefer_phonemes job_data o w = (Ok tt, w')
    /\ live w' (job_key svc job_id) = Some job_data'
    /\ (jd_status job_data' = "completed" ->
        exists seg data,
          jd_segments job_data' = [seg]
          /\ fs w' !! seg_path svc job_id = Some data
          /\ seg_file_size seg = Z.of_nat (length data)
          /\ 0 < seg_file_size seg).
Proof.
  intros svc Hnf.
  destruct (run_synthesis_nf svc job_id text prefer_phonemes job_data o w Hnf)
    as (jd' & w' & evs & Hrun & Hr & Hc & Hf & _ & _ & _ & _ & Hcase).
  exists jd', w'. split; [exact Hrun|]. split.
  - eapply live_written. rewrite Hc. exact Hr.
  - destruct Hcase as [(data & wt & -> & Hdata & Hlen)| ->]; [|discriminate].
    intros _. eexists _, data. split; [reflexivity|]. split; [exact Hdata|].
    split; [reflexivity|]. cbn. specialize (Hlen eq_refl). lia.
Qed.

(** ** The sample runs as instances *)

(** The espeak service: the engine leaves four bytes, the job is
    [completed] and its segment is served as a WAV file. *)
Example espeak_hello_completes :
  let w1 := snd (create_job espeak_service hello_request "job-1"
                   "2024-05-01T10:00:00" empty_world) in
  let w2 := snd (process_job_with_new_redis espeak_service "job-1" hello
                   "en-us" false hello_wav w1) in
  statuses_written (job_key espeak_service "job-1") (trace w2)
  = ["pending"; "processing"; "completed"]
  /\ fst (get_segment_audio espeak_service "job-1" "job-1-seg-0" w2)
     = Ok {| fr_path := "/data/cache/job-1-seg-0.wav";
             fr_media_type := "audio/wav";
             fr_filename := "job-1-seg-0.wav" |}.
Proof. split; vm_compute; reflexivity. Qed.

Lemma hello_run_reaches :
  sys_run edge_service hello_run (boot 0 []) = Some hello_system.
Proof. vm_compute. reflexivity. Qed.

Lemma served_run_reaches :
  ov_run edge_service served_run (ov_boot 0 []) = Some served_system.
Proof. vm_compute. reflexivity. Qed.

Lemma write_before_publish_witness :
  let w := sys_world (ov_system served_system) in
  ov_run edge_service served_run (ov_boot 0 []) = Some served_system
  /\ written_before_published (seg_path edge_service "job-1")
       (job_key edge_service "job-1") false (trace w) = true
  /\ (exists job_data seg,
        fst (get_job_status edge_service "job-1" w) = Ok job_data
        /\ jd_status job_data = "completed"
        /\ jd_segments job_data = [seg] /\ seg_id seg = "job-1-seg-0")
  /\ existsb (deletes edge_service "job-1") served_run = false
  /\ fst (get_segment_audio edge_service "job-1" "job-1-seg-0" w)
     = Ok {| fr_path := seg_path edge_service "job-1";
             fr_media_type := media_type edge_service;
             fr_filename := "job-1-seg-0" +:+ cache_ext edge_service |}
  /\ exists job_data,
       ov_suspended served_system !! 0%nat
       = Some (Serving "job-1" "job-1-seg-0" (Some job_data))
       /\ fst (serve_segment edge_service "job-1" "job-1-seg-0"
                 (Some job_data) w)
          = Ok {| fr_path := seg_path edge_service "job-1";
                  fr_media_type := media_type edge_service;
                  fr_filename := "job-1-seg-0" +:+ cache_ext edge_service |}.
Proof.
  intros w.
  pose proof (write_before_publish edge_service served_run 0 served_system
                served_run_reaches) as H.
  cbv zeta in H. fold w in H. destruct H as (Hord & Hread & Hserve & Hkept).
  assert (Hno : existsb (deletes edge_service "job-1") served_run = false)
    by reflexivity.
  assert (Hget : exists job_data seg,
             ov_suspended served_system !! 0%nat
             = Some (Serving "job-1" "job-1-seg-0" (Some job_data))
             /\ fst (get_job_status edge_service "job-1" w) = Ok job_data
             /\ jd_status job_data = "completed"
             /\ jd_segments job_data = [seg] /\ seg_id seg = "job-1-seg-0").
  { eexists _, _. split; [vm_compute; reflexivity|].
    split; [vm_compute; reflexivity|].
    split; [reflexivity|]. split; reflexivity. }
  destruct Hget as (jd & seg & Hi & Hget & Hdone & Hsegs & Hid).
  assert (Hin : seg ∈ jd_segments jd) by (rewrite Hsegs; left).
  split; [exact served_run_reaches|]. split; [apply Hord|].
  split.
  { exists jd, seg. split; [exact Hget|]. split; [exact Hdone|].
    split; [exact Hsegs|exact Hid]. }
  split; [exact Hno|].
  split.
  - destruct (Hread "job-1" jd Hget Hdone) as [_ Hs].
    specialize (Hs seg Hin (Hkept "job-1" Hno)). rewrite Hid in Hs. exact Hs.
  - exists jd. split; [exact Hi|].
    exact (Hserve 0%nat "job-1" "job-1-seg-0" jd seg Hi Hdone Hin Hid
             (Hkept "job-1" Hno)).
Defined.

Lemma create_job_validates_witness :
  faults empty_world = []
  /\ forallb isspace (req_text blank_request) = true
  /\ forallb isspace (req_text hello_request) = false
  /\ create_job edge_service blank_request "job-0" "2024-05-01T10:00:00"
       empty_world
     = (Raise (HTTPException 400 "Text is required"), empty_world)
  /\ exists t job_data w',
       create_job edge_service hello_request "job-1" "2024-05-01T10:00:00"
         empty_world
       = (Ok ({| cr_job_id := "job-1"; cr_status := "pending";
                 cr_message := "Job created successfully" |}, t), w')
       /\ task_job_id t = "job-1"
       /\ redis w'
          = <[job_key edge_service "job-1"
              := (job_data, clock empty_world + JOB_EXPIRY_SECONDS)]>
              (redis empty_world)
       /\ jd_job_id job_data = "job-1"
       /\ jd_status job_data = "pending"
       /\ fst (get_job_status edge_service "job-1" w') = Ok job_data.
Proof.
  split; [reflexivity|]. split; [reflexivity|]. split; [reflexivity|]. split.
  - exact (proj1 (create_job_validates edge_service blank_request "job-0"
                    "2024-05-01T10:00:00" empty_world) eq_refl).
  - exact (proj2 (create_job_validates edge_service hello_request "job-1"
                    "2024-05-01T10:00:00" empty_world) eq_refl eq_refl).
Defined.

Lemma refused_run_reaches :
  sys_run edge_service refused_run (boot 0 refused_failures)
  = Some refused_system.
Proof. vm_compute. reflexivity. Qed.

Lemma status_moves_forward_witness :
  (sys_run edge_service hello_run (boot 0 []) = Some hello_system
   /\ statuses_written (job_key edge_service "job-1")
        (trace (sys_world hello_system))
      = ["pending"; "processing"; "completed"]
   /\ moves_forward
        (statuses_written (job_key edge_service "job-1")
           (trace (sys_world hello_system))) = true)
  /\ (sys_run edge_service refused_run (boot 0 refused_failures)
      = Some refused_system
      /\ statuses_written (job_key edge_service "job-1")
           (trace (sys_world refused_system))
         = ["pending"; "failed"]
      /\ moves_forward
           (statuses_written (job_key edge_service "job-1")
              (trace (sys_world refused_system))) = true).
Proof.
  split.
  - split; [exact hello_run_reaches|]. split; [vm_compute; reflexivity|].
    exact (status_moves_forward edge_service hello_run 0 [] hello_system
             hello_run_reaches "job-1").
  - split; [exact refused_run_reaches|]. split; [vm_compute; reflexivity|].
    exact (status_moves_forward edge_service refused_run 0 refused_failures
             refused_system refused_run_reaches "job-1").
Defined.

Lemma get_segment_audio_checks_witness :
  fst (get_segment_audio edge_service "job-1" "job-1-seg-0" completed_world)
  = Ok {| fr_path := "/data/cache/job-1-seg-0.mp3";
          fr_media_type := "audio/mpeg";
          fr_filename := "job-1-seg-0.mp3" |}
  /\ fst (get_segment_audio edge_service "job-1" "job-1-seg-0" pending_world)
     = Raise (HTTPException 400 "Job is pending, not completed")
  /\ fst (get_segment_audio edge_service "job-9" "job-1-seg-0" completed_world)
     = Raise (HTTPException 404 "Job not found").
Proof.
  pose proof (proj1 (get_segment_audio_checks edge_service)) as T.
  split; [|split].
  - destruct (T completed_world "job-1" "job-1-seg-0" eq_refl)
      as (_ & _ & _ & _ & T5).
    eapply T5.
    + vm_compute. reflexivity.
    + reflexivity.
    + apply list_elem_of_singleton. reflexivity.
    + reflexivity.
    + vm_compute. reflexivity.
  - destruct (T pending_world "job-1" "job-1-seg-0" eq_refl)
      as (_ & T2 & _).
    assert (E : exists job_data,
               live pending_world (job_key edge_service "job-1") = Some job_data
               /\ jd_status job_data = "pending")
      by (eexists; split; [vm_compute; reflexivity | reflexivity]).
    destruct E as (job_data & E1 & E2).
    rewrite (T2 job_data E1); rewrite E2; [reflexivity | discriminate].
  - destruct (T completed_world "job-9" "job-1-seg-0" eq_refl) as (T1 & _).
    apply T1. vm_compute. reflexivity.
Defined.

Lemma every_write_refreshes_expiry_witness :
  faults (advance 3000 pending_world) = []
  /\ exists job_data w',
       accept_job edge_service "job-1" (advance 3000 pending_world)
       = (Ok (Some job_data), w')
       /\ clock w' = 3000
       /\ fst (get_job_status edge_service "job-1" (advance 3600 w'))
          = Ok job_data
       /\ fst (get_job_status edge_service "job-1" (advance 3601 w'))
          = Raise (HTTPException 404 "Job not found").
Proof.
  split; [reflexivity|].
  assert (E : exists job_data w',
             accept_job edge_service "job-1" (advance 3000 pending_world)
             = (Ok (Some job_data), w') /\ clock w' = 3000)
    by (eexists _, _; split; [vm_compute; reflexivity | reflexivity]).
  destruct E as (job_data & w' & E1 & E2).
  destruct (every_write_refreshes_expiry edge_service) as (_ & _ & T).
  destruct (T "job-1" (advance 3000 pending_world) eq_refl) as (_ & T3 & _).
  destruct (T3 job_data w' E1) as (_ & _ & Hwin).
  exists job_data, w'. split; [exact E1|]. split; [exact E2|]. split.
  - apply (Hwin 3600). discriminate.
  - apply (Hwin 3601). discriminate.
Defined.

Lemma executor_and_absent_record_witness :
  exists job_data w1,
    accept_job edge_service "job-1" pending_world = (Ok (Some job_data), w1)
    /\ live (snd (delete_job edge_service "job-1" w1))
         (job_key edge_service "job-1") = None
    /\ exists job_data' w3,
         run_synthesis edge_service "job-1" hello false job_data hello_stream
           (snd (delete_job edge_service "job-1" w1)) = (Ok tt, w3)
         /\ is_terminal (jd_status job_data') = true
         /\ live w3 (job_key edge_service "job-1") = Some job_data'.
Proof.
  assert (E : exists job_data w1,
             accept_job edge_service "job-1" pending_world
             = (Ok (Some job_data), w1))
    by (eexists _, _; vm_compute; reflexivity).
  destruct E as (job_data & w1 & E).
  exists job_data, w1. split; [exact E|].
  destruct (proj2 (executor_and_absent_record edge_service "job-1" hello
                     "en-US-AriaNeural" false hello_stream)
              pending_world job_data w1 eq_refl E
              (snd (delete_job edge_service "job-1" w1)) (or_introl eq_refl))
    as (T1 & jd' & w3 & evs & T2 & _ & _ & _ & T6 & _ & T8).
  split; [exact T1|]. exists jd', w3. auto.
Defined.

Lemma failure_message_recorded_witness :
  exists w' job_data,
    process_job_with_new_redis edge_service "job-1" hello "en-US-AriaNeural"
      false hello_stream
      (set_faults [None; Some "Error 111 connecting to localhost:6379."]
         pending_world)
    = (Ok tt, w')
    /\ live w' (job_key edge_service "job-1") = Some job_data
    /\ jd_status job_data = "failed"
    /\ jd_error job_data = Some "Error 111 connecting to localhost:6379.".
Proof.
  assert (E : exists job_data,
             live (set_faults
                     [None; Some "Error 111 connecting to localhost:6379."]
                     pending_world)
                  (job_key edge_service "job-1") = Some job_data)
    by (eexists; vm_compute; reflexivity).
  destruct E as (job_data & E).
  destruct failure_message_recorded as (_ & _ & _ & _ & _ & T).
  exact (T edge_service "job-1" hello "en-US-AriaNeural" false hello_stream
           (set_faults [None; Some "Error 111 connecting to localhost:6379."]
              pending_world)
           job_data "Error 111 connecting to localhost:6379." eq_refl E).
Defined.

(** * Further properties of the two services *)

(** ** Outcomes, whatever fails *)

Lemma same_store_refl w : same_store w w.
Proof. now repeat split. Qed.

Lemma same_store_trans w1 w2 w3 :
  same_store w1 w2 -> same_store w2 w3 -> same_store w1 w3.
Proof. intros (?&?&?) (?&?&?). repeat split; congruence. Qed.

Lemma same_store_live w w' k : same_store w w' -> live w' k = live w k.
Proof. intros (Hr & _ & Hc). unfold live. now rewrite Hr, Hc. Qed.

Lemma wp_ret {A} (a : A) (Q : result A -> world -> Prop) w :
  Q (Ok a) w -> wp (ret a) Q w.
Proof. exact (fun H => H). Qed.

Lemma wp_raise {A} e (Q : result A -> world -> Prop) w :
  Q (Raise e) w -> wp (raise e) Q w.
Proof. exact (fun H => H). Qed.

Lemma wp_bind {A B} (m : M A) (k : A -> M B) Q w :
  wp m (fun r w' => match r with
                    | Ok a => wp (k a) Q w'
                    | Raise e => Q (Raise e) w'
                    end) w ->
  wp (bind m k) Q w.
Proof. unfold wp, bind. now destruct (m w) as [[a|e] w']. Qed.

Lemma wp_try {A} (m : M A) (h : exn -> M A) Q w :
  wp m (fun r w' => match r with
                    | Ok a => Q (Ok a) w'
                    | Raise e => wp (h e) Q w'
                    end) w ->
  wp (try_except m h) Q w.
Proof. unfold wp, try_except. now destruct (m w) as [[a|e] w']. Qed.

Lemma wp_mono {A} (m : M A) (Q Q' : result A -> world -> Prop) w :
  (forall r w', Q r w' -> Q' r w') -> wp m Q w -> wp m Q' w.
Proof. unfold wp. auto. Qed.

(** An operation consumes one entry of the failure schedule and records
    itself; neither changes the store. *)
Lemma wp_operation {A} e (act : M A) Q w :
  (forall msg w', same_store w w' -> Q (Raise (Exception msg)) w') ->
  (forall w', same_store w w' -> wp act Q w') ->
  wp (fault >> log e >> act) Q w.
Proof.
  intros Hfail Hact. destruct w as [r f c fl tr].
  destruct fl as [|[msg|] rest]; unfold wp, bind, fault, log; cbn.
  - apply Hact. now repeat split.
  - apply Hfail. now repeat split.
  - apply Hact. now repeat split.
Qed.

Lemma wp_r_get k (Q : result (option job_data) -> world -> Prop) w :
  (forall msg w', same_store w w' -> Q (Raise (Exception msg)) w') ->
  (forall w', same_store w w' -> Q (Ok (live w k)) w') ->
  wp (r_get k) Q w.
Proof.
  intros Hfail Hok. apply wp_operation; [exact Hfail|].
  intros w' Hs. unfold wp. cbn. rewrite (same_store_live _ _ k Hs). now apply Hok.
Qed.

Lemma wp_r_set k v ex (Q : result unit -> world -> Prop) w :
  (forall msg w', same_store w w' -> Q (Raise (Exception msg)) w') ->
  (forall w', redis w' = <[k := (v, clock w + ex)]> (redis w) ->
              fs w' = fs w -> clock w' = clock w -> Q (Ok tt) w') ->
  wp (r_set k v ex) Q w.
Proof.
  intros Hfail Hok. apply wp_operation; [exact Hfail|].
  intros w' (Hr & Hf & Hc). unfold wp. cbn. apply Hok; cbn; congruence.
Qed.

Lemma wp_r_delete k (Q : result unit -> world -> Prop) w :
  (forall msg w', same_store w w' -> Q (Raise (Exception msg)) w') ->
  (forall w', redis w' = delete k (redis w) ->
              fs w' = fs w -> clock w' = clock w -> Q (Ok tt) w') ->
  wp (r_delete k) Q w.
Proof.
  intros Hfail Hok. apply wp_operation; [exact Hfail|].
  intros w' (Hr & Hf & Hc). unfold wp. cbn. apply Hok; cbn; congruence.
Qed.

Lemma wp_path_exists p (Q : result bool -> world -> Prop) w :
  (forall msg w', same_store w w' -> Q (Raise (Exception msg)) w') ->
  (forall w', same_store w w' ->
              Q (Ok (bool_decide (is_Some (fs w !! p)))) w') ->
  wp (path_exists p) Q w.
Proof.
  intros Hfail Hok. apply wp_operation; [exact Hfail|].
  intros w' Hs. unfold wp. cbn. destruct Hs as (Hr & Hf & Hc). rewrite Hf.
  apply Hok. now repeat split.
Qed.

Lemma wp_stat_size p (Q : result Z -> world -> Prop) w :
  (forall msg w', same_store w w' -> Q (Raise (Exception msg)) w') ->
  (forall data w', fs w !! p = Some data -> same_store w w' ->
                   Q (Ok (Z.of_nat (length data))) w') ->
  wp (stat_size p) Q w.
Proof.
  intros Hfail Hok. apply wp_operation; [exact Hfail|].
  intros w' Hs. unfold wp. pose proof Hs as (Hr & Hf & Hc).
  rewrite Hf. destruct (fs w !! p) as [data|] eqn:E; cbn.
  - now apply Hok.
  - now apply Hfail.
Qed.

Lemma wp_open_wb p (Q : result unit -> world -> Prop) w :
  (forall msg w', same_store w w' -> Q (Raise (Exception msg)) w') ->
  (forall w', redis w' = redis w -> fs w' = <[p := []]> (fs w) ->
              clock w' = clock w -> Q (Ok tt) w') ->
  wp (open_wb p) Q w.
Proof.
  intros Hfail Hok. apply wp_operation; [exact Hfail|].
  intros w' (Hr & Hf & Hc). unfold wp. cbn. apply Hok; cbn; congruence.
Qed.

Lemma wp_write p data (Q : result unit -> world -> Prop) w :
  (forall msg w', same_store w w' -> Q (Raise (Exception msg)) w') ->
  (forall w', redis w' = redis w ->
              fs w' = <[p := default [] (fs w !! p) ++ data]> (fs w) ->
              clock w' = clock w -> Q (Ok tt) w') ->
  wp (write p data) Q w.
Proof.
  intros Hfail Hok. apply wp_operation; [exact Hfail|].
  intros w' (Hr & Hf & Hc). unfold wp. cbn. apply Hok; cbn; congruence.
Qed.

Lemma wp_unlink p (Q : result unit -> world -> Prop) w :
  (forall msg w', same_store w w' -> Q (Raise (Exception msg)) w') ->
  (forall w', is_Some (fs w !! p) -> redis w' = redis w ->
              fs w' = delete p (fs w) -> clock w' = clock w ->
              Q (Ok tt) w') ->
  wp (unlink p) Q w.
Proof.
  intros Hfail Hok. apply wp_operation; [exact Hfail|].
  intros w' Hs. unfold wp. pose proof Hs as (Hr & Hf & Hc).
  rewrite Hf. destruct (fs w !! p) as [data|] eqn:E; cbn.
  - apply Hok; cbn; eauto; congruence.
  - now apply Hfail.
Qed.

Lemma wp_log e (Q : result unit -> world -> Prop) w :
  (forall w', same_store w w' -> Q (Ok tt) w') -> wp (log e) Q w.
Proof. intros H. apply H. now repeat split. Qed.

Lemma wp_engine_writes p data (Q : result unit -> world -> Prop) w :
  (forall w', redis w' = redis w -> fs w' = <[p := data]> (fs w) ->
              clock w' = clock w -> Q (Ok tt) w') ->
  wp (engine_writes p data) Q w.
Proof. intros H. apply H; reflexivity. Qed.

(** Steps through a computation, leaving the conditions on the worlds it
    can end in. *)
Ltac wp_step :=
  first
    [ apply wp_ret | apply wp_raise
    | apply wp_r_get; [intros ? ? ? | intros ? ?]
    | apply wp_r_set; [intros ? ? ? | intros ? ? ? ?]
    | apply wp_r_delete; [intros ? ? ? | intros ? ? ? ?]
    | apply wp_path_exists; [intros ? ? ? | intros ? ?]
    | apply wp_stat_size; [intros ? ? ? | intros ? ? ? ?]
    | apply wp_open_wb; [intros ? ? ? | intros ? ? ? ?]
    | apply wp_write; [intros ? ? ? | intros ? ? ? ?]
    | apply wp_unlink; [intros ? ? ? | intros ? ? ? ? ?]
    | apply wp_engine_writes; intros ? ? ? ?
    | apply wp_log; intros ? ?
    | apply wp_bind | apply wp_try
    | match goal with
      | |- wp (match ?x with _ => _ end) _ _ => destruct x eqn:?
      | |- wp (if ?x then _ else _) _ _ => destruct x eqn:?
      end ].

Ltac wp_steps := repeat (wp_step; cbv beta iota).

(** ** The routes that only read *)

Lemma get_job_status_reads svc job_id w :
  same_store w (snd (get_job_status svc job_id w)).
Proof.
  change (wp (get_job_status svc job_id) (fun _ w' => same_store w w') w).
  unfold get_job_status, get_job. wp_steps; assumption.
Qed.

Lemma get_segment_audio_reads svc job_id segment_id w :
  same_store w (snd (get_segment_audio svc job_id segment_id w)).
Proof.
  change (wp (get_segment_audio svc job_id segment_id)
             (fun _ w' => same_store w w') w).
  unfold get_segment_audio, get_job. cbv zeta.
  wp_steps; eauto using same_store_trans.
Qed.

Lemma get_job_audio_reads svc job_id w :
  same_store w (snd (Espeak.get_job_audio svc job_id w)).
Proof.
  change (wp (Espeak.get_job_audio svc job_id)
             (fun _ w' => same_store w w') w).
  unfold Espeak.get_job_audio, get_job. cbv zeta.
  wp_steps; eauto using same_store_trans.
Qed.

(** X1. [get_job_status], [get_segment_audio] and [get_job_audio] leave
    Redis, the cache directory and the clock as they found them, whatever
    they answer and whatever fails: a record that is read is served until
    the instant it was to expire at and no longer, and asking for audio
    removes or creates no file. *)
Theorem readers_change_nothing svc job_id segment_id w :
  let after (w' : world) :=
    same_store w w'
    /\ forall j d, 0 <= d -> live (advance d w') j = live (advance d w) j in
  after (snd (get_job_status svc job_id w))
  /\ after (snd (get_segment_audio svc job_id segment_id w))
  /\ after (snd (Espeak.get_job_audio svc job_id w)).
Proof.
  intros after.
  assert (H : forall w', same_store w w' -> after w').
  { intros w' Hs. split; [exact Hs|]. intros j d _.
    destruct Hs as (Hr & _ & Hc). unfold live, advance. cbn.
    now rewrite Hr, Hc. }
  split; [|split]; apply H.
  - apply get_job_status_reads.
  - apply get_segment_audio_reads.
  - apply get_job_audio_reads.
Qed.

(** ** The executor *)

Lemma try_except_total {A} (m : M A) (h : exn -> M A) w :
  (forall e w', exists a, fst (h e w') = Ok a) ->
  exists a, fst (try_except m h w) = Ok a.
Proof.
  intros Hh. unfold try_except. destruct (m w) as [[a|e] w']; [now exists a|].
  apply Hh.
Qed.

(** X2. The [try] statement of [process_job_with_new_redis] never
    raises, whatever Redis, the cache directory and the engine do: a
    failure of the engine is answered by the synthesis function as [False],
    and a failure of the [except] clause itself is swallowed.  So the
    function raises only what the making of its connection or the closing
    of it raises: when [redis.from_url] raises, nothing else has happened;
    otherwise the [try] statement has run to its end, and the exception of
    [r.close()], if any, is the one that leaves the function. *)
Theorem executor_raises_only_for_its_connection svc (c : connection) job_id
    text voice output_path prefer_phonemes (o : outcome (engine svc)) w :
  fst (process_job_with_new_redis svc job_id text voice prefer_phonemes o w)
  = Ok tt
  /\ process_job_sync svc c job_id text voice prefer_phonemes o w
     = match from_url_raises c with
       | Some msg => (Raise (Exception msg), w)
       | None =>
           (match close_raises c with
            | Some msg => Raise (Exception msg)
            | None => Ok tt
            end,
            snd (process_job_with_new_redis svc job_id text voice
                   prefer_phonemes o w))
       end
  /\ (exists success word_timings,
        fst (synthesize svc text voice output_path prefer_phonemes o w)
        = Ok (success, word_timings))
  /\ forall e, fst (on_error svc job_id e w) = Ok tt.
Proof.
  assert (Hunit : forall (m : M unit) w0,
             (exists a, fst (m w0) = Ok a) -> fst (m w0) = Ok tt).
  { intros m w0 [[] H]. exact H. }
  assert (Herr : forall e w0, fst (on_error svc job_id e w0) = Ok tt).
  { intros e w0. apply Hunit. unfold on_error.
    apply try_except_total. intros e2 w'. now exists tt. }
  assert (Htry : fst (process_job_with_new_redis svc job_id text voice
                        prefer_phonemes o w) = Ok tt).
  { apply Hunit. unfold process_job_with_new_redis.
    apply try_except_total. intros e w'. exists tt. apply Herr. }
  split; [exact Htry|]. split; [|split].
  - unfold process_job_sync, with_connection.
    destruct (from_url_raises c) as [msg|]; [reflexivity|].
    destruct (process_job_with_new_redis svc job_id text voice
                prefer_phonemes o w) as [r w'].
    cbn [fst snd] in *. subst r. now destruct (close_raises c).
  - destruct svc as [[] dir dv]; cbn in o; unfold synthesize; cbn [engine].
    + unfold synthesize_text_with_timing.
      match goal with
      | |- context [try_except ?m ?h w] =>
          destruct (try_except_total m h w) as [[s wt] H]
      end.
      { intros e w'. now exists (false, []). }
      now exists s, wt.
    + unfold bind, synthesize_text.
      match goal with
      | |- context [try_except ?m ?h w] =>
          destruct (try_except_total m h w) as [s H];
          [ intros e w'; now exists false
          | destruct (try_except m h w) as [[a|e] w'] ]
      end; cbn in H |- *; [|discriminate].
      now exists a, [].
  - intros e. apply Herr.
Qed.

(** The [try] block of [process_job] is that of
    [process_job_with_new_redis] when the voice it is called with is the
    one the record gives. *)
Lemma process_job_body_agrees dir dv job_id text voice prefer_phonemes
    (o : edge_stream) w :
  let svc := {| engine := EdgeTTS; CACHE_DIR := dir; DEFAULT_VOICE := dv |} in
  (forall job_data,
     live w (job_key svc job_id) = Some job_data ->
     default dv (jd_voice job_data) = voice) ->
  (let* job_data := get_job svc job_id in
   match job_data with
   | None => ret tt
   | Some job_data =>
       let job_data := set_status "processing" job_data in
       store_job svc job_id job_data >>
       let segment_id := generate_segment_id job_id 0 in
       let output_path := get_cache_path svc job_id segment_id in
       let* (success, word_timings) :=
         synthesize_text_with_timing text voice output_path o in
       let* there :=
         (if success then path_exists output_path else ret false) in
       let* job_data :=
         if there then
           let* file_size := stat_size output_path in
           ret (set_segments
                  [{| seg_id := segment_id;
                      seg_index := 0;
                      seg_status := "completed";
                      seg_audio_url :=
                        "/v1/tts/jobs/" +:+ job_id +:+ "/segments/"
                        +:+ segment_id +:+ "/audio";
                      seg_file_size := file_size;
                      seg_format := "audio/mpeg";
                      seg_word_timings := Some word_timings |}]
                  (set_status "completed" job_data))
         else
           ret (set_error "Synthesis failed" (set_status "failed" job_data)) in
       store_job svc job_id job_data
   end) w
  = (let* accepted := accept_job svc job_id in
     match accepted with
     | None => ret tt
     | Some job_data => run_synthesis svc job_id text prefer_phonemes job_data o
     end) w.
Proof.
  intros svc Hvoice. subst svc.
  unfold get_job, store_job, accept_job, run_synthesis, synthesize,
    completed_segment, media_type, bind. cbn [engine DEFAULT_VOICE]. cbv zeta.
  destruct (r_get _ w) as [[[jd|]|e] w1] eqn:Hget; try reflexivity.
  apply r_get_ok in Hget as (Hjd & _).
  destruct (r_set _ (set_status "processing" jd) JOB_EXPIRY_SECONDS w1)
    as [[[]|e] w2]; [|reflexivity].
  unfold ret. cbv beta iota. cbn [jd_voice set_status].
  now rewrite (Hvoice jd) by now symmetry.
Qed.

Lemma try_except_worlds_agree {A} (m1 m2 : M A) (h1 h2 : exn -> M A) w :
  m1 w = m2 w ->
  (forall e w', snd (h1 e w') = snd (h2 e w')) ->
  snd (try_except m1 h1 w) = snd (try_except m2 h2 w).
Proof.
  intros Hm Hh. unfold try_except. rewrite Hm.
  destruct (m2 w) as [[a|e] w']; [reflexivity|apply Hh].
Qed.

Lemma try_except_returns {A} (m1 m2 : M A) (h : exn -> M A) w a :
  m1 w = m2 w ->
  (exists w', m2 w = (Ok a, w')) ->
  fst (try_except m1 h w) = Ok a.
Proof.
  intros Hm [w' H]. unfold try_except. rewrite Hm, H. reflexivity.
Qed.

(** X3. [process_job], called with the voice that the record gives,
    leaves the world that the [try] statement of
    [process_job_with_new_redis] leaves, whatever fails, and returns when
    no store operation fails.  But its [except] clause is not guarded: when
    the first read of Redis fails and the read of the [except] clause fails
    too, the second failure leaves [process_job], where
    [process_job_with_new_redis] swallows it.  What [process_job] raises is
    never an HTTP error. *)
Theorem process_job_agrees dir dv job_id text voice prefer_phonemes
    (o : edge_stream) w :
  let svc := {| engine := EdgeTTS; CACHE_DIR := dir; DEFAULT_VOICE := dv |} in
  (forall job_data,
     live w (job_key svc job_id) = Some job_data ->
     default dv (jd_voice job_data) = voice) ->
  snd (Edge.process_job svc job_id text voice o w)
  = snd (process_job_with_new_redis svc job_id text voice prefer_phonemes o w)
  /\ (faults w = [] ->
      fst (Edge.process_job svc job_id text voice o w) = Ok tt)
  /\ (forall msg msg' rest,
        faults w = Some msg :: Some msg' :: rest ->
        fst (Edge.process_job svc job_id text voice o w)
        = Raise (Exception msg')
        /\ fst (process_job_with_new_redis svc job_id text voice
                  prefer_phonemes o w) = Ok tt)
  /\ (forall e,
        fst (Edge.process_job svc job_id text voice o w) = Raise e ->
        exists msg, e = Exception msg).
Proof.
  intros svc Hvoice.
  pose proof (process_job_body_agrees dir dv job_id text voice prefer_phonemes
                o w Hvoice) as Hbody. fold svc in Hbody.
  split; [|split; [|split]].
  - unfold Edge.process_job, process_job_with_new_redis.
    apply try_except_worlds_agree.
    + exact Hbody.
    + intros e w'. unfold on_error, try_except, get_job, store_job. cbv zeta.
      match goal with |- _ = snd (let (_, _) := ?x in _) => now destruct x as [[]] end.
  - intros Hnf. unfold Edge.process_job.
    apply (try_except_returns _ _ _ _ _ Hbody).
    unfold bind. rewrite (accept_job_nf svc job_id w Hnf).
    destruct (live w (job_key svc job_id)) as [jd|]; [|now eexists].
    match goal with
    | |- context [run_synthesis svc job_id text prefer_phonemes ?j o ?w1] =>
        destruct (run_synthesis_nf svc job_id text prefer_phonemes j o w1 Hnf)
          as (jd' & w' & evs & Hrun & _)
    end.
    exists w'. exact Hrun.
  - intros msg msg' rest Hf. destruct w as [r f c fl tr]. cbn in Hf. subst fl.
    split; reflexivity.
  - change (wp (Edge.process_job svc job_id text voice o)
               (fun r _ => forall e, r = Raise e -> exists msg, e = Exception msg)
               w).
    unfold Edge.process_job. apply wp_try. unfold wp at 1.
    match goal with
    | |- context [fst (?m w)] => destruct (m w) as [[[]|e] w']
    end; cbn [fst snd]; [discriminate|].
    unfold get_job, store_job. wp_steps; try discriminate;
      intros e0 [= <-]; eauto.
Qed.

(** ** Deleting a job *)

(** The loop of [delete_job], whatever fails: Redis and the clock are not
    touched, a file is kept or removed, only files of the segments are
    removed, and when the loop ends without an exception none of them is
    left. *)
Lemma delete_loop_any svc job_id segs :
  forall w,
    wp (for_each segs (fun seg =>
          let audio_path := get_cache_path svc job_id (seg_id seg) in
          let* there := path_exists audio_path in
          if there then unlink audio_path else ret tt))
       (fun r w' =>
          redis w' = redis w /\ clock w' = clock w
          /\ (forall q,
                fs w' !! q = fs w !! q
                \/ fs w' !! q = None
                   /\ exists seg, seg ∈ segs
                                  /\ q = get_cache_path svc job_id (seg_id seg))
          /\ (r = Ok tt ->
              forall seg, seg ∈ segs ->
                fs w' !! get_cache_path svc job_id (seg_id seg) = None)) w.
Proof.
  induction segs as [|seg segs IH]; intros w.
  - cbn [for_each]. apply wp_ret. repeat split; auto.
    intros _ seg Hin. now apply elem_of_nil in Hin.
  - cbn [for_each]. cbv zeta.
    set (p := get_cache_path svc job_id (seg_id seg)).
    assert (Hstop : forall (r : result unit) w',
               same_store w w' -> r <> Ok tt ->
               redis w' = redis w /\ clock w' = clock w
               /\ (forall q,
                     fs w' !! q = fs w !! q
                     \/ fs w' !! q = None
                        /\ exists seg0, seg0 ∈ seg :: segs
                             /\ q = get_cache_path svc job_id (seg_id seg0))
               /\ (r = Ok tt ->
                   forall seg0, seg0 ∈ seg :: segs ->
                     fs w' !! get_cache_path svc job_id (seg_id seg0) = None)).
    { intros r w' (Hr & Hf & Hc) Hne. repeat split; auto.
      - intros q. left. now rewrite Hf.
      - intros ->. contradiction. }
    assert (Hgo : forall w1,
               redis w1 = redis w -> clock w1 = clock w ->
               fs w1 !! p = None ->
               (forall q, q <> p -> fs w1 !! q = fs w !! q) ->
               wp (for_each segs (fun seg0 =>
                     let audio_path := get_cache_path svc job_id (seg_id seg0) in
                     let* there := path_exists audio_path in
                     if there then unlink audio_path else ret tt))
                  (fun r w' =>
                     redis w' = redis w /\ clock w' = clock w
                     /\ (forall q,
                           fs w' !! q = fs w !! q
                           \/ fs w' !! q = None
                              /\ exists seg0, seg0 ∈ seg :: segs
                                   /\ q = get_cache_path svc job_id (seg_id seg0))
                     /\ (r = Ok tt ->
                         forall seg0, seg0 ∈ seg :: segs ->
                           fs w' !! get_cache_path svc job_id (seg_id seg0)
                           = None)) w1).
    { intros w1 Hr Hc Hp Hother.
      eapply wp_mono; [|apply (IH w1)]. cbv beta.
      intros r w' (Hr' & Hc' & Hfiles & Hdone).
      split; [congruence|]. split; [congruence|]. split.
      - intros q. destruct (Hfiles q) as [Hq|[Hq (seg0 & Hin & ->)]].
        + destruct (decide (q = p)) as [->|Hne].
          * right. split; [congruence|]. exists seg. split; [left|reflexivity].
          * left. rewrite Hq. now apply Hother.
        + right. split; [exact Hq|]. exists seg0. split; [now right|reflexivity].
      - intros Hok seg0 Hin. apply elem_of_cons in Hin as [->|Hin].
        + fold p. destruct (Hfiles p) as [Hq|[Hq _]]; congruence.
        + now apply Hdone. }
    apply wp_bind. apply wp_bind.
    apply wp_path_exists; cbv beta iota.
    + intros msg w' Hs. now apply Hstop.
    + intros w1 (Hr1 & Hf1 & Hc1).
      destruct (bool_decide (is_Some (fs w !! p))) eqn:Ex.
      * apply wp_unlink; cbv beta iota.
        -- intros msg w' Hs. apply Hstop; [|discriminate].
           eapply same_store_trans; [|exact Hs]. now repeat split.
        -- intros w2 _ Hr2 Hf2 Hc2. apply Hgo; [congruence|congruence| |].
           ++ now rewrite Hf2, lookup_delete_eq.
           ++ intros q Hne. now rewrite Hf2, lookup_delete_ne, Hf1 by congruence.
      * apply wp_ret. apply bool_decide_eq_false in Ex.
        apply Hgo; [congruence|congruence| |].
        -- rewrite Hf1. destruct (fs w !! p) eqn:E; [|reflexivity].
           exfalso. apply Ex. eauto.
        -- intros q _. now rewrite Hf1.
Qed.

(** [delete_job], whatever fails. *)
Lemma delete_job_any svc job_id w :
  let key := job_key svc job_id in
  wp (delete_job svc job_id)
            (fun r w' =>
               clock w' = clock w
               /\ (forall q,
                     fs w' !! q = fs w !! q
                     \/ fs w' !! q = None
                        /\ exists job_data seg,
                             live w key = Some job_data
                             /\ seg ∈ jd_segments job_data
                             /\ q = get_cache_path svc job_id (seg_id seg))
               /\ match r with
                  | Ok _ =>
                      redis w' = delete key (redis w)
                      /\ exists job_data,
                           live w key = Some job_data
                           /\ forall seg, seg ∈ jd_segments job_data ->
                                fs w' !! get_cache_path svc job_id (seg_id seg)
                                = None
                  | Raise _ => redis w' = redis w
                  end) w.
Proof.
  intros key.
  unfold delete_job, get_job. fold key. apply wp_bind.
  apply wp_r_get; cbv beta iota.
  - intros msg w1 (Hr & Hf & Hc). repeat split; auto. intros q. left.
    now rewrite Hf.
  - intros w1 (Hr1 & Hf1 & Hc1).
    destruct (live w key) as [jd|] eqn:Elive.
    + apply wp_bind.
      eapply wp_mono; [|apply (delete_loop_any svc job_id (jd_segments jd) w1)].
      cbv beta. intros r w2 (Hr2 & Hc2 & Hfiles & Hdone).
      assert (Hfiles' : forall q,
                 fs w2 !! q = fs w !! q
                 \/ fs w2 !! q = None
                    /\ exists job_data seg,
                         Some jd = Some job_data /\ seg ∈ jd_segments job_data
                         /\ q = get_cache_path svc job_id (seg_id seg)).
      { intros q. destruct (Hfiles q) as [Hq|[Hq (seg & Hin & ->)]].
        - left. now rewrite Hq, Hf1.
        - right. split; [exact Hq|]. now exists jd, seg. }
      destruct r as [[]|e].
      * apply wp_bind. apply wp_r_delete; cbv beta iota.
        -- intros msg w3 (Hr3 & Hf3 & Hc3).
           split; [congruence|]. split; [|congruence].
           intros q. rewrite Hf3. apply Hfiles'.
        -- intros w3 Hr3 Hf3 Hc3. apply wp_ret.
           split; [congruence|]. split; [|split].
           ++ intros q. rewrite Hf3. apply Hfiles'.
           ++ now rewrite Hr3, Hr2, Hr1.
           ++ exists jd. split; [reflexivity|]. intros seg Hin.
              rewrite Hf3. now apply Hdone.
      * split; [congruence|]. split; [exact Hfiles'|congruence].
    + apply wp_raise. repeat split; auto. intros q. left. now rewrite Hf1.
Qed.

(** X4. [delete_job], whatever fails: the record is removed exactly when
    the route answers without an exception, and then no file of a listed
    segment is left; when it raises, Redis is as it was.  In either case
    every file is kept or removed, the files removed belong to segments
    that the record lists, and the clock is not touched. *)
Theorem delete_job_all_or_nothing svc job_id w :
  let key := job_key svc job_id in
  let w' := snd (delete_job svc job_id w) in
  clock w' = clock w
  /\ (forall q,
        fs w' !! q = fs w !! q
        \/ fs w' !! q = None
           /\ exists job_data seg,
                live w key = Some job_data /\ seg ∈ jd_segments job_data
                /\ q = get_cache_path svc job_id (seg_id seg))
  /\ match fst (delete_job svc job_id w) with
     | Ok _ =>
         redis w' = delete key (redis w)
         /\ live w' key = None
         /\ exists job_data,
              live w key = Some job_data
              /\ forall seg, seg ∈ jd_segments job_data ->
                   fs w' !! get_cache_path svc job_id (seg_id seg) = None
     | Raise _ => redis w' = redis w
     end.
Proof.
  intros key w'. pose proof (delete_job_any svc job_id w) as H.
  cbv zeta in H. unfold wp in H. fold key w' in H.
  destruct H as (Hc & Hfiles & Hr). split; [exact Hc|]. split; [exact Hfiles|].
  destruct (fst (delete_job svc job_id w)); [|exact Hr].
  destruct Hr as [Hr Hgone]. split; [exact Hr|]. split; [|exact Hgone].
  unfold live. now rewrite Hr, lookup_delete_eq.
Qed.

(** ** More on white space *)

Lemma lstrip_split (s : pystr) :
  exists pre, s = pre ++ lstrip s /\ forallb isspace pre = true.
Proof.
  induction s as [|c s (pre & IH & Hpre)]; [now exists []|].
  cbn [lstrip]. destruct (isspace c) eqn:E.
  - exists (c :: pre). cbn. rewrite E, Hpre. split; [now f_equal|reflexivity].
  - now exists [].
Qed.

Lemma lstrip_head (s : pystr) c rest :
  lstrip s = c :: rest -> isspace c = false.
Proof.
  induction s as [|d s IH]; [discriminate|]. cbn [lstrip].
  destruct (isspace d) eqn:E; [exact IH|]. now intros [= <- _].
Qed.

Lemma rstrip_split (s : pystr) :
  exists post, s = rstrip s ++ post /\ forallb isspace post = true.
Proof.
  unfold rstrip. destruct (lstrip_split (rev s)) as (pre & H & Hpre).
  exists (rev pre). split; [|now rewrite forallb_rev].
  rewrite <- rev_app_distr, <- H. now rewrite rev_involutive.
Qed.

Lemma rstrip_last (s : pystr) :
  rstrip s = [] \/ exists init c, rstrip s = init ++ [c] /\ isspace c = false.
Proof.
  unfold rstrip. destruct (lstrip (rev s)) as [|c rest] eqn:E; [now left|].
  right. exists (rev rest), c. split; [reflexivity|].
  now apply lstrip_head in E.
Qed.

Lemma rstrip_head (s : pystr) c rest :
  s = c :: rest -> isspace c = false -> exists rest', rstrip s = c :: rest'.
Proof.
  intros -> Hc. destruct (rstrip_split (c :: rest)) as (post & H & _).
  destruct (rstrip (c :: rest)) as [|d rest'] eqn:E.
  - apply rstrip_nil_iff in E. cbn in E. now rewrite Hc in E.
  - injection H as <- _. eauto.
Qed.

(** What [strip] keeps: the text between the white space at both ends;
    when something is kept, it starts and ends with a character that is
    not white space. *)
Lemma strip_spec (s : pystr) :
  (exists pre post,
     s = pre ++ strip s ++ post
     /\ forallb isspace pre = true /\ forallb isspace post = true)
  /\ (strip s = []
      \/ (exists c rest, strip s = c :: rest /\ isspace c = false)
         /\ (exists init c, strip s = init ++ [c] /\ isspace c = false)).
Proof.
  unfold strip. split.
  - destruct (lstrip_split s) as (pre & H1 & Hpre).
    destruct (rstrip_split (lstrip s)) as (post & H2 & Hpost).
    exists pre, post. split; [|split; assumption]. now rewrite <- H2.
  - destruct (rstrip_last (lstrip s)) as [E|Hlast]; [now left|right].
    split; [|exact Hlast].
    destruct (lstrip s) as [|c rest] eqn:E.
    + destruct Hlast as (init & c & H & _). unfold rstrip in H. cbn in H.
      now destruct init.
    + pose proof (lstrip_head _ _ _ E) as Hc.
      destruct (rstrip_head (c :: rest) c rest eq_refl Hc) as [rest' H].
      now exists c, rest'.
Qed.

(** ** Creating a job *)

(** [create_job], whatever fails. *)
Lemma create_job_any svc request new_id utcnow w :
  let key := job_key svc new_id in
  wp (create_job svc request new_id utcnow)
     (fun r w' =>
        fs w' = fs w /\ clock w' = clock w
        /\ match r with
           | Ok (c, t) =>
               cr_job_id c = new_id /\ task_job_id t = new_id
               /\ exists job_data,
                    redis w'
                    = <[key := (job_data, clock w + JOB_EXPIRY_SECONDS)]>
                        (redis w)
                    /\ jd_job_id job_data = new_id
                    /\ jd_status job_data = "pending"
                    /\ jd_segments job_data = []
                    /\ jd_error job_data = None
                    /\ jd_voice job_data = Some (task_voice t)
                    /\ jd_text_length job_data = length (req_text request)
           | Raise _ => redis w' = redis w
           end) w.
Proof.
  intros key. unfold create_job, store_job. fold key.
  destruct (_ || _); [now apply wp_raise|].
  apply wp_bind. apply wp_r_set; cbv beta iota.
  - intros msg w' (Hr & Hf & Hc). auto.
  - intros w' Hr Hf Hc. apply wp_ret.
    split; [exact Hf|]. split; [exact Hc|]. split; [reflexivity|].
    split; [reflexivity|]. eexists. split; [exact Hr|]. repeat split.
Qed.

(** X5. [create_job], whatever fails, never touches the cache directory or
    the clock; it hands out the id and the task exactly when the [pending]
    record is stored, and the record then carries the voice of the task
    and the length of the text as it was sent; when it raises, Redis is as
    it was. *)
Theorem create_job_stores_what_it_hands_out svc request new_id utcnow w :
  let key := job_key svc new_id in
  let w' := snd (create_job svc request new_id utcnow w) in
  fs w' = fs w /\ clock w' = clock w
  /\ match fst (create_job svc request new_id utcnow w) with
     | Ok (c, t) =>
         cr_job_id c = new_id /\ task_job_id t = new_id
         /\ exists job_data,
              redis w'
              = <[key := (job_data, clock w + JOB_EXPIRY_SECONDS)]> (redis w)
              /\ live w' key = Some job_data
              /\ jd_job_id job_data = new_id
              /\ jd_status job_data = "pending"
              /\ jd_segments job_data = []
              /\ jd_error job_data = None
              /\ jd_voice job_data = Some (task_voice t)
              /\ jd_text_length job_data = length (req_text request)
     | Raise _ => redis w' = redis w
     end.
Proof.
  intros key w'. pose proof (create_job_any svc request new_id utcnow w) as H.
  cbv zeta in H. unfold wp in H. fold key w' in H.
  destruct H as (Hf & Hc & Hr). split; [exact Hf|]. split; [exact Hc|].
  destruct (fst (create_job svc request new_id utcnow w)) as [[c t]|e];
    [|exact Hr].
  destruct Hr as (Hid & Htask & jd & Hr & Hrest).
  split; [exact Hid|]. split; [exact Htask|]. exists jd.
  split; [exact Hr|]. split; [|exact Hrest].
  eapply live_written. rewrite Hc. exact Hr.
Qed.

Lemma truthy_default (o : option string) : truthy o = true -> default "" o <> "".
Proof.
  destruct o as [s|]; [|discriminate]. cbn.
  destruct (String.eqb_spec s ""); [discriminate|auto].
Qed.

(** X6. What the executor is given by [create_job]: the text of the
    request without the white space at its two ends and nothing else
    removed, so a text that is not empty and that starts and ends with a
    character that is not white space; and a voice that is not the empty
    string when the default voice is not. *)
Theorem create_job_task svc request new_id utcnow w c t w' :
  create_job svc request new_id utcnow w = (Ok (c, t), w') ->
  (exists pre post,
     req_text request = pre ++ task_text t ++ post
     /\ forallb isspace pre = true /\ forallb isspace post = true)
  /\ (exists c0 rest, task_text t = c0 :: rest /\ isspace c0 = false)
  /\ (exists init c1, task_text t = init ++ [c1] /\ isspace c1 = false)
  /\ (DEFAULT_VOICE svc <> "" -> task_voice t <> "")
  /\ task_prefer_phonemes t = default false (req_prefer_phonemes request).
Proof.
  unfold create_job. rewrite blank_rejected.
  destruct (forallb isspace (req_text request)) eqn:Eb; [discriminate|].
  unfold bind. destruct (store_job _ _ _ w) as [[[]|e] w1]; [|discriminate].
  intros [= <- <- <-]. cbn [task_text task_voice task_prefer_phonemes].
  destruct (strip_spec (req_text request)) as [Hparts [Hnil|[Hhead Hlast]]].
  - apply strip_nil_iff in Hnil. congruence.
  - split; [exact Hparts|]. split; [exact Hhead|]. split; [exact Hlast|].
    split; [|reflexivity]. intros Hdv.
    destruct (truthy (req_voice request)) eqn:E1; [now apply truthy_default|].
    destruct (truthy (req_model_id request)) eqn:E2;
      [now apply truthy_default | exact Hdv].
Qed.

(** ** Keys and paths of different jobs and services *)

Lemma append_inj_same_length (a b x y : string) :
  String.length x = String.length y -> a +:+ x = b +:+ y -> a = b /\ x = y.
Proof.
  intros Hlen. revert b. induction a as [|c a IH]; intros [|d b] H.
  - auto.
  - apply (f_equal String.length) in H. rewrite !append_length in H.
    cbn [String.length] in H. lia.
  - apply (f_equal String.length) in H. rewrite !append_length in H.
    cbn [String.length] in H. lia.
  - change (String c (a +:+ x) = String d (b +:+ y)) in H.
    injection H as -> H. destruct (IH b H) as [-> ->]. auto.
Qed.

(** X7. For ids as [uuid4] makes them (no slash in them, so that
    [get_cache_path] is the path that pathlib makes): two jobs of one
    service never share a Redis key or the cache file of their segment;
    and the two services never share a key or a cache file either, even on
    one Redis database and with one cache directory: the key prefixes
    [edge-tts:job:] and [espeak-tts:job:] and the file extensions [.mp3]
    and [.wav] keep them apart. *)
Theorem keys_and_paths_do_not_clash dir dv dv' (a b : string) :
  let edge := {| engine := EdgeTTS; CACHE_DIR := dir; DEFAULT_VOICE := dv |} in
  let espeak :=
    {| engine := EspeakNG; CACHE_DIR := dir; DEFAULT_VOICE := dv' |} in
  plain a = true -> plain b = true ->
  (forall svc, job_key svc a = job_key svc b -> a = b)
  /\ (forall svc, seg_path svc a = seg_path svc b -> a = b)
  /\ String.eqb (job_key edge a) (job_key espeak b) = false
  /\ String.eqb (seg_path edge a) (seg_path espeak b) = false.
Proof.
  intros edge espeak _ _. split; [|split; [|split]].
  - intros svc. apply job_key_inj.
  - intros svc. apply segment_path_inj.
  - reflexivity.
  - apply String.eqb_neq. unfold seg_path, get_cache_path. cbn.
    intros H. apply append_inj_r in H. apply (append_inj_r "/") in H.
    apply append_inj_same_length in H as [_ H]; [discriminate|reflexivity].
Qed.

(** ** The audio of a whole job *)

(** X8. [get_job_audio] of the espeak service is [get_segment_audio] for
    the first segment that the record lists: the same checks in the same
    order, the same operations, the same file and media type, whatever
    fails; only the file name of the download differs.  When the record is
    [completed] and lists no segment, it answers 404 after its one read of
    Redis. *)
Theorem get_job_audio_is_first_segment dir dv job_id w job_data :
  let svc := {| engine := EspeakNG; CACHE_DIR := dir; DEFAULT_VOICE := dv |} in
  live w (job_key svc job_id) = Some job_data ->
  match jd_segments job_data with
  | first :: _ =>
      Espeak.get_job_audio svc job_id w
      = (match fst (get_segment_audio svc job_id (seg_id first) w) with
         | Ok f => Ok {| fr_path := fr_path f;
                         fr_media_type := fr_media_type f;
                         fr_filename := job_id +:+ ".wav" |}
         | Raise e => Raise e
         end,
         snd (get_segment_audio svc job_id (seg_id first) w))
  | [] =>
      jd_status job_data = "completed" -> faults w = [] ->
      Espeak.get_job_audio svc job_id w
      = (Raise (HTTPException 404 "No segments found"),
         add_trace [EvGet (job_key svc job_id)] w)
  end.
Proof.
  intros svc Hlive.
  destruct (jd_segments job_data) as [|first rest] eqn:Esegs.
  - intros Hst Hnf. unfold Espeak.get_job_audio, get_job.
    erewrite bind_ok by (apply r_get_nf; exact Hnf).
    now rewrite Hlive, Hst, Esegs.
  - unfold Espeak.get_job_audio, get_segment_audio, get_job. cbv zeta.
    unfold bind at 1 3 5.
    destruct (r_get (job_key svc job_id) w) as [[jd|e] w1] eqn:Hget;
      [|reflexivity].
    apply r_get_ok in Hget as (-> & _). rewrite Hlive, Esegs.
    destruct (negb (String.eqb (jd_status job_data) "completed"));
      [reflexivity|].
    cbn [find]. rewrite String.eqb_refl. unfold bind.
    destruct (path_exists _ w1) as [[[]|e] w2]; reflexivity.
Qed.

(** ** The engines, whatever fails *)

Lemma touches_only_same p w w' : same_store w w' -> touches_only p w w'.
Proof. intros (Hr & Hf & Hc). repeat split; auto; now rewrite Hf. Qed.

Lemma touches_only_trans p w1 w2 w3 :
  touches_only p w1 w2 -> touches_only p w2 w3 -> touches_only p w1 w3.
Proof.
  intros (Hr & Hc & Hq & Hp) (Hr' & Hc' & Hq' & Hp').
  split; [congruence|]. split; [congruence|]. split; [|auto].
  intros q Hne. now rewrite Hq', Hq.
Qed.

Lemma touches_only_insert p data w w' :
  redis w' = redis w -> fs w' = <[p := data]> (fs w) -> clock w' = clock w ->
  touches_only p w w'.
Proof.
  intros Hr Hf Hc. repeat split; auto.
  - intros q Hne. now rewrite Hf, lookup_insert_ne.
  - intros _. rewrite Hf, lookup_insert_eq. eauto.
Qed.

(** Writing the chunks one after the other, whatever fails: only the file
    at [p] changes, and when every write succeeds it holds what it held,
    followed by the chunks in order. *)
Lemma write_loop_any p chunks :
  forall w,
    wp (for_each chunks (write p))
       (fun r w' =>
          touches_only p w w'
          /\ (r = Ok tt ->
              forall data, fs w !! p = Some data ->
                fs w' !! p = Some (data ++ concat chunks))) w.
Proof.
  induction chunks as [|c chunks IH]; intros w; cbn [for_each].
  - apply wp_ret. split; [apply touches_only_same, same_store_refl|].
    intros _ data H. now rewrite app_nil_r.
  - apply wp_bind. apply wp_write; cbv beta iota.
    + intros msg w' Hs. split; [now apply touches_only_same|discriminate].
    + intros w1 Hr Hf Hc.
      eapply wp_mono; [|apply (IH w1)]. cbv beta.
      intros r w' [Ht Hdone]. split.
      * eapply touches_only_trans; [|exact Ht].
        now apply (touches_only_insert p (default [] (fs w !! p) ++ c)).
      * intros Hok data Hdata. cbn [concat]. rewrite app_assoc.
        apply Hdone; [exact Hok|].
        now rewrite Hf, Hdata, lookup_insert_eq.
Qed.

(** The edge engine, whatever fails: the function always returns; only
    the output file changes; success is reported only when the stream
    ended without an exception after at least one audio chunk, and then the
    file holds the audio chunks in stream order and the timings are those
    of the word boundaries in stream order. *)
Lemma synthesize_text_with_timing_any text voice p (o : edge_stream) w :
  wp (synthesize_text_with_timing text voice p o)
     (fun r w' =>
        touches_only p w w'
        /\ exists success word_timings,
             r = Ok (success, word_timings)
             /\ (success = false -> word_timings = [])
             /\ (success = true ->
                 stream_raised o = None
                 /\ audio_of (stream_chunks o) <> []
                 /\ word_timings = timings_of (stream_chunks o)
                 /\ fs w' !! p = Some (concat (audio_of (stream_chunks o))))) w.
Proof.
  assert (Hfalse : forall w', same_store w w' \/ touches_only p w w' ->
             touches_only p w w'
             /\ exists success word_timings,
                  @Ok (bool * list word_timing) (false, [])
                  = Ok (success, word_timings)
                  /\ (success = false -> word_timings = [])
                  /\ (success = true ->
                      stream_raised o = None
                      /\ audio_of (stream_chunks o) <> []
                      /\ word_timings = timings_of (stream_chunks o)
                      /\ fs w' !! p
                         = Some (concat (audio_of (stream_chunks o))))).
  { intros w' H. split; [destruct H; auto using touches_only_same|].
    exists false, []. split; [reflexivity|]. split; [auto|discriminate]. }
  unfold synthesize_text_with_timing. apply wp_try. apply wp_bind.
  apply wp_log. intros w1 Hs1. cbv beta iota.
  destruct (stream_raised o) as [msg|] eqn:Eraised.
  - apply wp_raise. apply wp_ret. auto.
  - destruct (audio_of (stream_chunks o)) as [|c rest] eqn:Eaudio.
    + apply wp_ret. auto.
    + apply wp_bind. apply wp_open_wb; cbv beta iota.
      * intros m w2 Hs2. apply wp_ret. apply Hfalse. left.
        eapply same_store_trans; eassumption.
      * intros w2 Hr2 Hf2 Hc2.
        assert (Ht2 : touches_only p w w2).
        { eapply touches_only_trans; [apply touches_only_same; exact Hs1|].
          now apply (touches_only_insert p []). }
        apply wp_bind.
        eapply wp_mono; [|apply (write_loop_any p (c :: rest) w2)]. cbv beta.
        intros r w3 [Ht3 Hdone].
        assert (Ht : touches_only p w w3)
          by (eapply touches_only_trans; eassumption).
        destruct r as [[]|e].
        -- apply wp_ret. split; [exact Ht|].
           exists true, (timings_of (stream_chunks o)).
           split; [reflexivity|]. split; [discriminate|]. intros _.
           split; [reflexivity|]. split; [discriminate|].
           split; [reflexivity|].
           apply (Hdone eq_refl []). now rewrite Hf2, lookup_insert_eq.
        -- apply wp_ret. apply Hfalse. now right.
Qed.

(** The espeak engine, whatever fails: the function always returns; only
    the output file changes; success is reported only when espeak-ng
    exited with code 0 and the output path holds a file that is not
    empty. *)
Lemma synthesize_text_any text voice p prefer_phonemes (o : espeak_run) w :
  wp (synthesize_text text voice p prefer_phonemes o)
     (fun r w' =>
        touches_only p w w'
        /\ exists success,
             r = Ok success
             /\ (success = true ->
                 (exists wav, run_exit o = Exited 0 wav)
                 /\ exists data,
                      fs w' !! p = Some data /\ (0 < length data)%nat)) w.
Proof.
  assert (Hfalse : forall w', touches_only p w w' ->
             touches_only p w w'
             /\ exists success,
                  @Ok bool false = Ok success
                  /\ (success = true ->
                      (exists wav, run_exit o = Exited 0 wav)
                      /\ exists data,
                           fs w' !! p = Some data /\ (0 < length data)%nat)).
  { intros w' H. split; [exact H|]. exists false. split; [reflexivity|].
    discriminate. }
  unfold synthesize_text. cbv zeta. apply wp_try. apply wp_bind.
  apply wp_log. intros w1 Hs1. cbv beta iota. apply wp_bind.
  destruct (run_exit o) as [rc wav|msg] eqn:Eexit.
  - assert (Hrun : forall w2, touches_only p w w2 ->
               wp (if negb (rc =? 0) then ret false
                   else
                     let* there := path_exists p in
                     if there then
                       let* st_size := stat_size p in ret (0 <? st_size)
                     else ret false)
                  (fun r w' =>
                     match r with
                     | Ok a =>
                         touches_only p w w'
                         /\ exists success,
                              Ok a = Ok success
                              /\ (success = true ->
                                  (exists wav0, Exited rc wav = Exited 0 wav0)
                                  /\ exists data,
                                       fs w' !! p = Some data
                                       /\ (0 < length data)%nat)
                     | Raise e =>
                         wp (ret false)
                            (fun r0 w'0 =>
                               touches_only p w w'0
                               /\ exists success,
                                    r0 = Ok success
                                    /\ (success = true ->
                                        (exists wav0,
                                           Exited rc wav = Exited 0 wav0)
                                        /\ exists data,
                                             fs w'0 !! p = Some data
                                             /\ (0 < length data)%nat)) w'
                     end) w2).
    { intros w2 Ht2.
      destruct (Z.eqb_spec rc 0) as [->|Hrc]; cbn [negb].
      - apply wp_bind. apply wp_path_exists; cbv beta iota.
        + intros msg w3 Hs3. apply wp_ret. apply Hfalse.
          eapply touches_only_trans; [exact Ht2|now apply touches_only_same].
        + intros w3 Hs3.
          assert (Ht3 : touches_only p w w3).
          { eapply touches_only_trans; [exact Ht2|now apply touches_only_same]. }
          destruct (bool_decide (is_Some (fs w2 !! p))).
          * apply wp_bind.
            assert (Hf3 : fs w3 = fs w2) by apply Hs3.
            apply wp_stat_size; cbv beta iota.
            -- intros msg w4 Hs4. apply wp_ret. apply Hfalse.
               eapply touches_only_trans; [exact Ht3|now apply touches_only_same].
            -- intros data w4 Hdata Hs4. apply wp_ret.
               split.
               { eapply touches_only_trans; [exact Ht3|].
                 now apply touches_only_same. }
               eexists. split; [reflexivity|]. intros Hpos.
               split; [eauto|]. exists data.
               destruct Hs4 as (_ & Hf4 & _).
               rewrite Hf4, <- Hdata, Hf3. split; [|apply Z.ltb_lt in Hpos; lia].
               now rewrite <- Hf3.
          * apply wp_ret. now apply Hfalse.
      - apply wp_ret. now apply Hfalse. }
    apply wp_bind. destruct wav as [data|].
    + apply wp_engine_writes. intros w2 Hr2 Hf2 Hc2. apply wp_ret.
      apply Hrun.
      eapply touches_only_trans; [apply touches_only_same; exact Hs1|].
      now apply (touches_only_insert p data).
    + apply wp_ret. apply wp_ret. apply Hrun. now apply touches_only_same.
  - apply wp_raise. apply wp_ret. apply Hfalse. now apply touches_only_same.
Qed.

(** Either engine, whatever fails. *)
Lemma synthesize_any svc text voice p prefer_phonemes
    (o : outcome (engine svc)) w :
  wp (synthesize svc text voice p prefer_phonemes o)
     (fun r w' =>
        touches_only p w w'
        /\ exists success word_timings,
             r = Ok (success, word_timings)
             /\ (success = true -> engine svc = EspeakNG ->
                 exists data, fs w' !! p = Some data /\ (0 < length data)%nat)) w.
Proof.
  destruct svc as [[] dir dv]; cbn in o; unfold synthesize; cbn [engine].
  - eapply wp_mono;
      [|apply (synthesize_text_with_timing_any text voice p o w)].
    cbv beta. intros r w' (Ht & s & wt & -> & _). split; [exact Ht|].
    exists s, wt. split; [reflexivity|]. discriminate.
  - apply wp_bind.
    eapply wp_mono;
      [|apply (synthesize_text_any text voice p prefer_phonemes o w)].
    cbv beta. intros r w' (Ht & s & -> & Hs). apply wp_ret.
    split; [exact Ht|]. exists s, []. split; [reflexivity|].
    intros Hok _. now apply Hs.
Qed.

(** The second half of the executor, whatever fails: it writes one record
    at most, the last thing it does; a [completed] record gives the size
    that the segment's file has at that instant. *)
Lemma run_synthesis_any svc job_id text prefer_phonemes job_data
    (o : outcome (engine svc)) w :
  let key := job_key svc job_id in
  let p := seg_path svc job_id in
  wp (run_synthesis svc job_id text prefer_phonemes job_data o)
     (fun r w' =>
        clock w' = clock w
        /\ (forall q, q <> p -> fs w' !! q = fs w !! q)
        /\ (is_Some (fs w !! p) -> is_Some (fs w' !! p))
        /\ match r with
           | Ok _ =>
               exists job_data',
                 redis w'
                 = <[key := (job_data', clock w + JOB_EXPIRY_SECONDS)]> (redis w)
                 /\ (job_data'
                     = set_error "Synthesis failed"
                         (set_status "failed" job_data)
                     \/ exists data word_timings,
                          fs w' !! p = Some data
                          /\ (engine svc = EspeakNG -> (0 < length data)%nat)
                          /\ job_data'
                             = set_segments
                                 [completed_segment svc job_id
                                    (generate_segment_id job_id 0)
                                    (Z.of_nat (length data)) word_timings]
                                 (set_status "completed" job_data))
           | Raise _ => redis w' = redis w
           end) w.
Proof.
  intros key p. unfold run_synthesis. cbv zeta. fold key. fold (seg_path svc job_id).
  fold p. apply wp_bind.
  eapply wp_mono; [|apply synthesize_any]. cbv beta.
  intros r w1 ((Hr1 & Hc1 & Hq1 & Hp1) & success & wt & -> & Hsucc).
  assert (Hfail : forall w2, same_store w1 w2 ->
             clock w2 = clock w
             /\ (forall q, q <> p -> fs w2 !! q = fs w !! q)
             /\ (is_Some (fs w !! p) -> is_Some (fs w2 !! p))
             /\ redis w2 = redis w).
  { intros w2 (Hr2 & Hf2 & Hc2). rewrite Hf2. repeat split; auto; congruence. }
  assert (Hset : forall jd' w2,
             same_store w1 w2 ->
             (jd' = set_error "Synthesis failed" (set_status "failed" job_data)
              \/ exists data word_timings,
                   fs w2 !! p = Some data
                   /\ (engine svc = EspeakNG -> (0 < length data)%nat)
                   /\ jd'
                      = set_segments
                          [completed_segment svc job_id
                             (generate_segment_id job_id 0)
                             (Z.of_nat (length data)) word_timings]
                          (set_status "completed" job_data)) ->
             wp (r_set key jd' JOB_EXPIRY_SECONDS)
                (fun r w' =>
                   clock w' = clock w
                   /\ (forall q, q <> p -> fs w' !! q = fs w !! q)
                   /\ (is_Some (fs w !! p) -> is_Some (fs w' !! p))
                   /\ match r with
                      | Ok _ =>
                          exists job_data',
                            redis w'
                            = <[key := (job_data', clock w + JOB_EXPIRY_SECONDS)]>
                                (redis w)
                            /\ (job_data'
                                = set_error "Synthesis failed"
                                    (set_status "failed" job_data)
                                \/ exists data word_timings,
                                     fs w' !! p = Some data
                                     /\ (engine svc = EspeakNG ->
                                         (0 < length data)%nat)
                                     /\ job_data'
                                        = set_segments
                                            [completed_segment svc job_id
                                               (generate_segment_id job_id 0)
                                               (Z.of_nat (length data))
                                               word_timings]
                                            (set_status "completed" job_data))
                      | Raise _ => redis w' = redis w
                      end) w2).
  { intros jd' w2 Hs2 Hjd. apply wp_r_set; cbv beta iota.
    - intros msg w3 Hs3. apply Hfail. eapply same_store_trans; eassumption.
    - intros w3 Hr3 Hf3 Hc3. destruct Hs2 as (Hr2 & Hf2 & Hc2).
      split; [congruence|]. split; [|split].
      + intros q Hne. rewrite Hf3, Hf2. now apply Hq1.
      + intros H. rewrite Hf3, Hf2. now apply Hp1.
      + exists jd'. split; [rewrite Hr3; congruence|].
        rewrite Hf3. exact Hjd. }
  apply wp_bind. destruct success.
  - apply wp_path_exists; cbv beta iota.
    + intros msg w2 Hs2. now apply Hfail.
    + intros w2 Hs2. apply wp_bind.
      destruct (bool_decide (is_Some (fs w1 !! p))).
      * apply wp_bind. apply wp_stat_size; cbv beta iota.
        -- intros msg w3 Hs3. apply Hfail. eapply same_store_trans; eassumption.
        -- intros data w3 Hdata Hs3. apply wp_ret.
           assert (Hs13 : same_store w1 w3)
             by (eapply same_store_trans; eassumption).
           apply Hset; [exact Hs13|]. right. exists data, wt.
           destruct Hs13 as (_ & Hf13 & _), Hs2 as (_ & Hf2 & _).
           rewrite Hf13. split; [congruence|]. split; [|reflexivity].
           intros He. destruct (Hsucc eq_refl He) as (data' & Hd' & Hlen).
           congruence.
      * apply wp_ret. apply Hset; [exact Hs2|now left].
  - apply wp_ret. apply wp_bind. apply wp_ret.
    apply Hset; [apply same_store_refl|now left].
Qed.

(** The first half of the executor, whatever fails. *)
Lemma accept_job_any svc job_id w :
  let key := job_key svc job_id in
  wp (accept_job svc job_id)
     (fun r w' =>
        fs w' = fs w /\ clock w' = clock w
        /\ match r with
           | Ok (Some copy) =>
               exists job_data,
                 live w key = Some job_data
                 /\ copy = set_status "processing" job_data
                 /\ redis w'
                    = <[key := (copy, clock w + JOB_EXPIRY_SECONDS)]> (redis w)
           | Ok None => live w key = None /\ redis w' = redis w
           | Raise _ => redis w' = redis w
           end) w.
Proof.
  intros key. unfold accept_job. cbv zeta. fold key. apply wp_bind.
  apply wp_r_get; cbv beta iota.
  - intros msg w1 (Hr & Hf & Hc). auto.
  - intros w1 (Hr1 & Hf1 & Hc1). destruct (live w key) as [jd|] eqn:Elive.
    + apply wp_bind. apply wp_r_set; cbv beta iota.
      * intros msg w2 (Hr2 & Hf2 & Hc2). repeat split; congruence.
      * intros w2 Hr2 Hf2 Hc2. apply wp_ret.
        split; [congruence|]. split; [congruence|].
        exists jd. repeat split. rewrite Hr2. congruence.
    + apply wp_ret. auto.
Qed.

(** The [except] clause, whatever fails: it returns, and either leaves
    Redis as it was or marks the record it read as [failed], with the text
    of the exception. *)
Lemma on_error_any svc job_id e w :
  let key := job_key svc job_id in
  wp (on_error svc job_id e)
     (fun r w' =>
        fs w' = fs w /\ clock w' = clock w
        /\ (redis w' = redis w
            \/ exists job_data,
                 live w key = Some job_data
                 /\ redis w'
                    = <[key := (set_error (str e) (set_status "failed" job_data),
                                clock w + JOB_EXPIRY_SECONDS)]> (redis w))) w.
Proof.
  intros key. unfold on_error. cbv zeta. fold key. apply wp_try. apply wp_bind.
  apply wp_r_get; cbv beta iota.
  - intros msg w1 (Hr & Hf & Hc). apply wp_ret. auto.
  - intros w1 (Hr1 & Hf1 & Hc1). destruct (live w key) as [jd|] eqn:Elive.
    + apply wp_r_set; cbv beta iota.
      * intros msg w2 (Hr2 & Hf2 & Hc2). apply wp_ret.
        split; [congruence|]. split; [congruence|]. left. congruence.
      * intros w2 Hr2 Hf2 Hc2.
        split; [congruence|]. split; [congruence|]. right.
        exists jd. split; [reflexivity|]. rewrite Hr2. congruence.
    + apply wp_ret. auto.
Qed.

(** ** The shape of the stored records, whatever fails *)

Lemma lookup_other_job svc j j0 (v : job_data * Z)
    (r : gmap string (job_data * Z)) :
  j <> j0 -> <[job_key svc j0 := v]> r !! job_key svc j = r !! job_key svc j.
Proof.
  intros Hne. apply lookup_insert_ne. intros E. apply job_key_inj in E.
  congruence.
Qed.

Lemma seg_path_other svc j j0 : j <> j0 -> seg_path svc j <> seg_path svc j0.
Proof. intros Hne E. apply segment_path_inj in E. contradiction. Qed.

(** A step that works for job [j0] alone. *)
Lemma inv_store_update svc s w' j0 ph' :
  inv_store svc s ->
  (forall j, j <> j0 ->
     redis w' !! job_key svc j = redis (sys_world s) !! job_key svc j) ->
  (forall j data, j <> j0 ->
     fs w' !! seg_path svc j = Some data ->
     fs (sys_world s) !! seg_path svc j = Some data) ->
  (forall jd expires,
     redis w' !! job_key svc j0 = Some (jd, expires) ->
     record_shape svc j0 jd
     /\ match ph' with
        | Queued _ => jd_status jd = "pending"
        | Running _ copy => jd = copy
        | Finished => True
        end
     /\ forall seg data,
          seg ∈ jd_segments jd -> fs w' !! seg_path svc j0 = Some data ->
          seg_file_size seg = Z.of_nat (length data)) ->
  match ph' with
  | Running _ copy => record_shape svc j0 copy /\ jd_status copy = "processing"
  | _ => True
  end ->
  inv_store svc {| sys_world := w'; sys_tasks := <[j0 := ph']> (sys_tasks s) |}.
Proof.
  intros [Hshape Hsizes] Hredis Hfiles Hown Hcopy. split.
  - intros j. cbn [sys_world sys_tasks].
    destruct (decide (j0 = j)) as [<-|Hne].
    + rewrite lookup_insert_eq. split; [|exact Hcopy].
      intros jd e H. destruct (Hown jd e H) as (H1 & H2 & _). auto.
    + rewrite lookup_insert_ne by exact Hne. rewrite Hredis by congruence.
      apply Hshape.
  - intros j jd e seg data Hr Hseg Hfile. cbn [sys_world] in *.
    destruct (decide (j = j0)) as [->|Hne].
    + destruct (Hown jd e Hr) as (_ & _ & H). eauto.
    + rewrite Hredis in Hr by exact Hne. eauto.
Qed.

(** A step that writes no record and no file. *)
Lemma inv_store_shrink svc s w' :
  inv_store svc s ->
  (forall j jd expires,
     redis w' !! job_key svc j = Some (jd, expires) ->
     redis (sys_world s) !! job_key svc j = Some (jd, expires)) ->
  (forall q data, fs w' !! q = Some data -> fs (sys_world s) !! q = Some data) ->
  inv_store svc {| sys_world := w'; sys_tasks := sys_tasks s |}.
Proof.
  intros [Hshape Hsizes] Hredis Hfiles. split.
  - intros j. cbn [sys_world sys_tasks]. specialize (Hshape j).
    destruct (sys_tasks s !! j) as [ph|].
    + destruct Hshape as [Hrec Hcopy]. split; [|exact Hcopy].
      intros jd e H. apply Hrec with e. now apply Hredis.
    + destruct (redis w' !! job_key svc j) as [[jd e]|] eqn:E; [|reflexivity].
      apply Hredis in E. congruence.
  - intros j jd e seg data Hr Hseg Hfile. cbn [sys_world] in *. eauto.
Qed.

Lemma inv_store_same svc s w' :
  inv_store svc s -> same_store (sys_world s) w' ->
  inv_store svc {| sys_world := w'; sys_tasks := sys_tasks s |}.
Proof.
  intros Hinv (Hr & Hf & _). apply inv_store_shrink; [exact Hinv| |].
  - intros j jd e. now rewrite Hr.
  - intros q data. now rewrite Hf.
Qed.

Lemma shape_failed svc j jd msg :
  record_shape svc j jd -> jd_segments jd = [] ->
  record_shape svc j (set_error msg (set_status "failed" jd)).
Proof.
  intros (Hid & Hv & _) Hsegs. split; [exact Hid|]. split; [exact Hv|].
  right. left. cbn. eauto.
Qed.

Lemma shape_open_segments svc j jd :
  record_shape svc j jd ->
  jd_status jd = "pending" \/ jd_status jd = "processing" ->
  jd_segments jd = [] /\ jd_error jd = None.
Proof.
  intros (_ & _ & [(_ & H)|[(Hst & _)|(Hst & _)]]) Hopen; [exact H| |];
    destruct Hopen as [E|E]; rewrite E in Hst; discriminate.
Qed.

(** What the [except] clause leaves when the record it may read has the
    right shape and lists no segment. *)
Lemma on_error_store svc s j0 e w1 :
  inv_store svc s ->
  redis w1 = redis (sys_world s) ->
  clock w1 = clock (sys_world s) ->
  (forall j data, j <> j0 ->
     fs w1 !! seg_path svc j = Some data ->
     fs (sys_world s) !! seg_path svc j = Some data) ->
  (forall jd expires,
     redis (sys_world s) !! job_key svc j0 = Some (jd, expires) ->
     record_shape svc j0 jd /\ jd_segments jd = []) ->
  inv_store svc {| sys_world := snd (on_error svc j0 e w1);
                   sys_tasks := <[j0 := Finished]> (sys_tasks s) |}.
Proof.
  intros Hinv Hr1 Hc1 Hfiles Hrec.
  pose proof (on_error_any svc j0 e w1) as H. cbv zeta in H. unfold wp in H.
  destruct H as (Hf & Hc & Hr).
  apply inv_store_update; [exact Hinv| | | |exact I].
  - intros j Hne. destruct Hr as [->|(jd & _ & ->)]; [now rewrite Hr1|].
    rewrite lookup_other_job by exact Hne. now rewrite Hr1.
  - intros j data Hne. rewrite Hf. now apply Hfiles.
  - intros jd e0 Hjd.
    assert (Hshape : record_shape svc j0 jd /\ jd_segments jd = []).
    { destruct Hr as [Hr|(jd0 & Hlive & Hr)].
      - rewrite Hr, Hr1 in Hjd. eauto.
      - rewrite Hr, lookup_insert_eq in Hjd. injection Hjd as <- <-.
        apply live_Some in Hlive as [e1 Hlive]. rewrite Hr1 in Hlive.
        destruct (Hrec _ _ Hlive) as [Hs Hsegs].
        split; [now apply shape_failed|exact Hsegs]. }
    destruct Hshape as [Hs Hsegs]. split; [exact Hs|]. split; [exact I|].
    intros seg data Hin. rewrite Hsegs in Hin. now apply elem_of_nil in Hin.
Qed.

(** Every step keeps the shape of the records and their sizes, whatever
    fails. *)
Lemma sys_step_store svc l s s' :
  inv_store svc s -> sys_step svc l s = Some s' -> inv_store svc s'.
Proof.
  intros Hinv Hstep. pose proof Hinv as [Hshape Hsizes].
  destruct l as [request new_id utcnow | job_id | job_id o | job_id
                | job_id segment_id | job_id | d]; cbn [sys_step] in Hstep.
  - (* create *)
    destruct (sys_tasks s !! new_id) eqn:Efresh; [discriminate|].
    pose proof (create_job_any svc request new_id utcnow (sys_world s)) as H.
    cbv zeta in H. unfold wp in H. destruct H as (Hf & Hc & Hr).
    destruct (create_job svc request new_id utcnow (sys_world s))
      as [[[c t]|e] w']; injection Hstep as <-; cbn [fst snd] in *.
    + destruct Hr as (_ & _ & jd & Hr & Hid & Hst & Hsegs & Herr & Hv & _).
      apply inv_store_update; [exact Hinv| | | |exact I].
      * intros j Hne. rewrite Hr. now apply lookup_other_job.
      * intros j data _. now rewrite Hf.
      * intros jd' e0. rewrite Hr, lookup_insert_eq. intros [= <- <-].
        split; [|split; [exact Hst|]].
        -- split; [exact Hid|]. split; [rewrite Hv; eauto|]. left. auto.
        -- intros seg data Hin. rewrite Hsegs in Hin.
           now apply elem_of_nil in Hin.
    + apply inv_store_shrink; [exact Hinv| |].
      * intros j jd e0. now rewrite Hr.
      * intros q data. now rewrite Hf.
  - (* the executor's first half *)
    destruct (sys_tasks s !! job_id) as [[t| |]|] eqn:Eq; try discriminate.
    pose proof (Hshape job_id) as Hold. rewrite Eq in Hold.
    destruct Hold as [Hold _].
    pose proof (accept_job_any svc job_id (sys_world s)) as H.
    cbv zeta in H. unfold wp in H. destruct H as (Hf & Hc & Hr).
    destruct (accept_job svc job_id (sys_world s)) as [[[copy|]|e] w'];
      injection Hstep as <-; cbn [fst snd] in *.
    + destruct Hr as (jd & Hlive & -> & Hr).
      apply live_Some in Hlive as [e0 Hlive].
      destruct (Hold _ _ Hlive) as [Hs Hpending].
      destruct (shape_open_segments svc job_id jd Hs (or_introl Hpending))
        as [Hsegs Herr].
      assert (Hcopy : record_shape svc job_id (set_status "processing" jd)).
      { destruct Hs as (Hid & Hv & _). split; [exact Hid|]. split; [exact Hv|].
        left. cbn. auto. }
      apply inv_store_update; [exact Hinv| | | |now split].
      * intros j Hne. rewrite Hr. now apply lookup_other_job.
      * intros j data _. now rewrite Hf.
      * intros jd' e1. rewrite Hr, lookup_insert_eq. intros [= <- <-].
        split; [exact Hcopy|]. split; [reflexivity|].
        intros seg data Hin. cbn in Hin. rewrite Hsegs in Hin.
        now apply elem_of_nil in Hin.
    + destruct Hr as [_ Hr].
      apply inv_store_update; [exact Hinv| | | |exact I].
      * intros j _. now rewrite Hr.
      * intros j data _. now rewrite Hf.
      * intros jd e0 Hjd. rewrite Hr in Hjd.
        destruct (Hold _ _ Hjd) as [Hs _]. split; [exact Hs|]. split; [exact I|].
        intros seg data Hin Hfile. rewrite Hf in Hfile. eauto.
    + apply on_error_store; [exact Hinv|exact Hr|exact Hc| |].
      * intros j data _. now rewrite Hf.
      * intros jd e0 Hjd. destruct (Hold _ _ Hjd) as [Hs Hpending].
        split; [exact Hs|].
        now destruct (shape_open_segments svc job_id jd Hs (or_introl Hpending)).
  - (* the executor's second half *)
    destruct (sys_tasks s !! job_id) as [[|t copy|]|] eqn:Eq; try discriminate.
    pose proof (Hshape job_id) as Hold. rewrite Eq in Hold.
    destruct Hold as [Hold [Hcopy Hprocessing]].
    destruct (shape_open_segments svc job_id copy Hcopy (or_intror Hprocessing))
      as [Hsegs Herr].
    injection Hstep as <-. unfold try_except.
    pose proof (run_synthesis_any svc job_id (task_text t)
                  (task_prefer_phonemes t) copy o (sys_world s)) as H.
    cbv zeta in H. unfold wp in H. destruct H as (Hc & Hq & Hp & Hr).
    assert (Hothers : forall w1,
               (forall q, q <> seg_path svc job_id ->
                  fs w1 !! q = fs (sys_world s) !! q) ->
               forall j data, j <> job_id ->
                 fs w1 !! seg_path svc j = Some data ->
                 fs (sys_world s) !! seg_path svc j = Some data).
    { intros w1 H j data Hne. rewrite H; [auto|]. now apply seg_path_other. }
    destruct (run_synthesis svc job_id (task_text t) (task_prefer_phonemes t)
                copy o (sys_world s)) as [[[]|e] w1]; cbn [fst snd] in *.
    + destruct Hr as (jd' & Hr & Hcase).
      apply inv_store_update; [exact Hinv| | | |exact I].
      * intros j Hne. rewrite Hr. now apply lookup_other_job.
      * now apply Hothers.
      * intros jd e0. rewrite Hr, lookup_insert_eq. intros [= <- <-].
        destruct Hcase as [->|(data & wt & Hdata & Hlen & ->)].
        -- split; [now apply shape_failed|]. split; [exact I|].
           intros seg data Hin. cbn in Hin. rewrite Hsegs in Hin.
           now apply elem_of_nil in Hin.
        -- split; [|split; [exact I|]].
           ++ destruct Hcopy as (Hid & Hv & _). split; [exact Hid|].
              split; [exact Hv|]. right. right. cbn.
              split; [reflexivity|]. split; [exact Herr|].
              exists (Z.of_nat (length data)), wt.
              split; [lia|]. split; [|reflexivity].
              intros He. specialize (Hlen He). lia.
           ++ intros seg data' Hin Hfile. cbn in Hin.
              apply list_elem_of_singleton in Hin as ->. cbn.
              congruence.
    + apply on_error_store;
        [exact Hinv|exact Hr|exact Hc|now apply Hothers|].
      intros jd e0 Hjd. destruct (Hold _ _ Hjd) as [Hs ->]. auto.
  - (* status *)
    injection Hstep as <-. apply inv_store_same; [exact Hinv|].
    apply get_job_status_reads.
  - (* audio *)
    injection Hstep as <-. apply inv_store_same; [exact Hinv|].
    apply get_segment_audio_reads.
  - (* delete *)
    injection Hstep as <-.
    pose proof (delete_job_any svc job_id (sys_world s)) as H.
    cbv zeta in H. unfold wp in H. destruct H as (Hc & Hfiles & Hr).
    apply inv_store_shrink; [exact Hinv| |].
    + intros j jd e0.
      destruct (fst (delete_job svc job_id (sys_world s))).
      * destruct Hr as [-> _]. intros H.
        destruct (decide (job_key svc job_id = job_key svc j)) as [E|Hne].
        -- rewrite E, lookup_delete_eq in H. discriminate.
        -- now rewrite lookup_delete_ne in H.
      * now rewrite Hr.
    + intros q data H. destruct (Hfiles q) as [E|[E _]]; congruence.
  - (* time passes *)
    destruct (0 <=? d); [|discriminate]. injection Hstep as <-.
    apply inv_store_shrink; [exact Hinv| |]; auto.
Qed.

Lemma sys_run_store svc ls :
  forall s s', inv_store svc s -> sys_run svc ls s = Some s' -> inv_store svc s'.
Proof.
  induction ls as [|l ls IH]; intros s s' Hinv Hrun; cbn in Hrun.
  - now injection Hrun as <-.
  - destruct (sys_step svc l s) as [s1|] eqn:E; [|discriminate].
    eapply IH; [|exact Hrun]. eapply sys_step_store; eassumption.
Qed.

Lemma boot_store svc t failures : inv_store svc (boot t failures).
Proof.
  split.
  - intros j. unfold boot. cbn [sys_tasks sys_world redis].
    now rewrite !lookup_empty.
  - intros j jd e seg data H. unfold boot in H. cbn in H.
    rewrite lookup_empty in H. discriminate.
Qed.

Lemma get_job_status_ok svc job_id w job_data :
  fst (get_job_status svc job_id w) = Ok job_data ->
  live w (job_key svc job_id) = Some job_data.
Proof.
  assert (H : wp (get_job_status svc job_id)
                (fun r _ => forall jd, r = Ok jd ->
                                       live w (job_key svc job_id) = Some jd) w).
  { unfold get_job_status, get_job. wp_steps; try discriminate.
    intros jd [= <-]. reflexivity. }
  intros E. now apply H.
Qed.

(** X9. In every state the service reaches, whatever store operations
    fail on the way, a record is served only under an id that [create_job]
    handed out, and it has the shape that the services give it: the job's
    id and a voice; an error exactly when it is [failed]; no segment unless
    it is [completed], and then the job's one segment, in the format of
    the service, with a size that for espeak is not zero. *)
Theorem records_keep_their_shape svc ls t failures s :
  sys_run svc ls (boot t failures) = Some s ->
  forall job_id job_data,
    fst (get_job_status svc job_id (sys_world s)) = Ok job_data ->
    is_Some (sys_tasks s !! job_id) /\ record_shape svc job_id job_data.
Proof.
  intros Hrun job_id jd Hget.
  destruct (sys_run_store svc ls _ _ (boot_store svc t failures) Hrun)
    as [Hshape _].
  apply get_job_status_ok, live_Some in Hget as [e Hjd].
  specialize (Hshape job_id).
  destruct (sys_tasks s !! job_id) as [ph|]; [|congruence].
  split; [eauto|]. destruct Hshape as [Hrec _]. now destruct (Hrec _ _ Hjd).
Qed.

Lemma shape_segment svc j jd seg :
  record_shape svc j jd -> seg ∈ jd_segments jd ->
  seg_id seg = generate_segment_id j 0
  /\ (engine svc = EspeakNG -> 0 < seg_file_size seg).
Proof.
  intros (_ & _ & [(_ & Hs & _)|[(_ & Hs & _)|(_ & _ & sz & wt & _ & Hpos & Hs)]])
    Hin; rewrite Hs in Hin.
  - now apply elem_of_nil in Hin.
  - now apply elem_of_nil in Hin.
  - apply list_elem_of_singleton in Hin as ->. now split.
Qed.

(** X10. In every state the service reaches, whatever fails, the size that
    a served record gives for a segment is the size of the file that
    [get_segment_audio] would send for it, when that file is there; for
    espeak the file is then not empty. *)
Theorem recorded_size_is_file_size svc ls t failures s :
  sys_run svc ls (boot t failures) = Some s ->
  forall job_id job_data seg data,
    fst (get_job_status svc job_id (sys_world s)) = Ok job_data ->
    seg ∈ jd_segments job_data ->
    fs (sys_world s) !! get_cache_path svc job_id (seg_id seg) = Some data ->
    seg_file_size seg = Z.of_nat (length data)
    /\ (engine svc = EspeakNG -> (0 < length data)%nat).
Proof.
  intros Hrun job_id jd seg data Hget Hin Hfile.
  destruct (sys_run_store svc ls _ _ (boot_store svc t failures) Hrun)
    as [Hshape Hsizes].
  apply get_job_status_ok, live_Some in Hget as [e Hjd].
  assert (Hs : record_shape svc job_id jd).
  { specialize (Hshape job_id).
    destruct (sys_tasks s !! job_id) as [ph|]; [|congruence].
    destruct Hshape as [Hrec _]. now destruct (Hrec _ _ Hjd). }
  destruct (shape_segment svc job_id jd seg Hs Hin) as [Hid Hpos].
  rewrite Hid in Hfile.
  pose proof (Hsizes job_id jd e seg data Hjd Hin Hfile) as Hsize.
  split; [exact Hsize|]. intros He. specialize (Hpos He). lia.
Qed.

(** ** Files that no record lists any more *)

Lemma live_same_record w w' k :
  redis w' !! k = redis w !! k -> clock w' = clock w -> live w' k = live w k.
Proof. intros Hr Hc. unfold live. now rewrite Hr, Hc. Qed.

Lemma forgotten_keep svc j data s w' tasks' :
  forgotten svc j data s ->
  tasks' !! j = sys_tasks s !! j ->
  redis w' !! job_key svc j = redis (sys_world s) !! job_key svc j ->
  clock w' = clock (sys_world s) ->
  fs w' !! seg_path svc j = fs (sys_world s) !! seg_path svc j ->
  forgotten svc j data {| sys_world := w'; sys_tasks := tasks' |}.
Proof.
  intros (Ht & Hl & Hf) Ht' Hr Hc Hf'. unfold forgotten. cbn [sys_world sys_tasks].
  split; [congruence|]. split; [|congruence].
  intros jd. rewrite (live_same_record _ _ _ Hr Hc). apply Hl.
Qed.

Lemma on_error_other svc j j0 e w :
  j <> j0 ->
  redis (snd (on_error svc j0 e w)) !! job_key svc j = redis w !! job_key svc j
  /\ clock (snd (on_error svc j0 e w)) = clock w
  /\ fs (snd (on_error svc j0 e w)) = fs w.
Proof.
  intros Hne. pose proof (on_error_any svc j0 e w) as H. cbv zeta in H.
  unfold wp in H. destruct H as (Hf & Hc & Hr). split; [|auto].
  destruct Hr as [->|(jd & _ & ->)]; [reflexivity|].
  now apply lookup_other_job.
Qed.

(** No step removes or rewrites the file of a job that is over, and none
    brings back a record that lists a segment. *)
Lemma forgotten_step svc l s s' j data :
  inv_store svc s -> forgotten svc j data s ->
  sys_step svc l s = Some s' -> forgotten svc j data s'.
Proof.
  intros [Hshape _] Hj Hstep. pose proof Hj as (Ht & Hl & Hf).
  destruct l as [request new_id utcnow | job_id | job_id o | job_id
                | job_id segment_id | job_id | d]; cbn [sys_step] in Hstep.
  - destruct (sys_tasks s !! new_id) eqn:Efresh; [discriminate|].
    assert (Hne : j <> new_id) by congruence.
    pose proof (create_job_any svc request new_id utcnow (sys_world s)) as H.
    cbv zeta in H. unfold wp in H. destruct H as (Hfs & Hc & Hr).
    destruct (create_job svc request new_id utcnow (sys_world s))
      as [[[c t0]|e] w']; injection Hstep as <-; cbn [fst snd] in *.
    + destruct Hr as (_ & _ & jd & Hr & _).
      apply (forgotten_keep svc j data s); [exact Hj| | |exact Hc|now rewrite Hfs].
      * cbn. now rewrite lookup_insert_ne by congruence.
      * rewrite Hr. now apply lookup_other_job.
    + apply (forgotten_keep svc j data s); [exact Hj|reflexivity| |exact Hc|now rewrite Hfs].
      now rewrite Hr.
  - destruct (sys_tasks s !! job_id) as [[t0| |]|] eqn:Eq; try discriminate.
    assert (Hne : j <> job_id) by congruence.
    pose proof (accept_job_any svc job_id (sys_world s)) as H.
    cbv zeta in H. unfold wp in H. destruct H as (Hfs & Hc & Hr).
    destruct (accept_job svc job_id (sys_world s)) as [[[copy|]|e] w'];
      injection Hstep as <-; cbn [fst snd] in *.
    + destruct Hr as (jd & _ & _ & Hr).
      apply (forgotten_keep svc j data s); [exact Hj| | |exact Hc|now rewrite Hfs].
      * cbn. now rewrite lookup_insert_ne by congruence.
      * rewrite Hr. now apply lookup_other_job.
    + destruct Hr as [_ Hr].
      apply (forgotten_keep svc j data s); [exact Hj| | |exact Hc|now rewrite Hfs].
      * cbn. now rewrite lookup_insert_ne by congruence.
      * now rewrite Hr.
    + destruct (on_error_other svc j job_id e w' Hne) as (Hr' & Hc' & Hf').
      apply (forgotten_keep svc j data s); [exact Hj| | | |].
      * cbn. now rewrite lookup_insert_ne by congruence.
      * now rewrite Hr', Hr.
      * congruence.
      * now rewrite Hf', Hfs.
  - destruct (sys_tasks s !! job_id) as [[|t0 copy|]|] eqn:Eq; try discriminate.
    assert (Hne : j <> job_id) by congruence.
    injection Hstep as <-. unfold try_except.
    pose proof (run_synthesis_any svc job_id (task_text t0)
                  (task_prefer_phonemes t0) copy o (sys_world s)) as H.
    cbv zeta in H. unfold wp in H. destruct H as (Hc & Hq & _ & Hr).
    specialize (Hq (seg_path svc j) (seg_path_other svc j job_id Hne)).
    destruct (run_synthesis svc job_id (task_text t0) (task_prefer_phonemes t0)
                copy o (sys_world s)) as [[[]|e] w1]; cbn [fst snd] in *.
    + destruct Hr as (jd' & Hr & _).
      apply (forgotten_keep svc j data s); [exact Hj| | |exact Hc|exact Hq].
      * cbn. now rewrite lookup_insert_ne by congruence.
      * rewrite Hr. now apply lookup_other_job.
    + destruct (on_error_other svc j job_id e w1 Hne) as (Hr' & Hc' & Hf').
      apply (forgotten_keep svc j data s); [exact Hj| | | |].
      * cbn. now rewrite lookup_insert_ne by congruence.
      * now rewrite Hr', Hr.
      * congruence.
      * now rewrite Hf'.
  - injection Hstep as <-.
    destruct (get_job_status_reads svc job_id (sys_world s)) as (Hr & Hfs & Hc).
    apply (forgotten_keep svc j data s); [exact Hj|reflexivity| |exact Hc|];
      [now rewrite Hr | now rewrite Hfs].
  - injection Hstep as <-.
    destruct (get_segment_audio_reads svc job_id segment_id (sys_world s))
      as (Hr & Hfs & Hc).
    apply (forgotten_keep svc j data s); [exact Hj|reflexivity| |exact Hc|];
      [now rewrite Hr | now rewrite Hfs].
  - injection Hstep as <-.
    pose proof (delete_job_any svc job_id (sys_world s)) as H.
    cbv zeta in H. unfold wp in H. destruct H as (Hc & Hfiles & Hr).
    set (w' := snd (delete_job svc job_id (sys_world s))) in *.
    assert (Hkept : fs w' !! seg_path svc j = Some data).
    { destruct (Hfiles (seg_path svc j)) as [E|[_ (jd & seg & Hlive & Hin & E)]];
        [congruence|]. exfalso.
      destruct (decide (job_id = j)) as [->|Hne].
      - rewrite (Hl _ Hlive) in Hin. now apply elem_of_nil in Hin.
      - apply live_Some in Hlive as [e0 Hjd].
        specialize (Hshape job_id).
        destruct (sys_tasks s !! job_id) as [ph|]; [|congruence].
        destruct Hshape as [Hrec _]. destruct (Hrec _ _ Hjd) as [Hs _].
        destruct (shape_segment svc job_id jd seg Hs Hin) as [Hid _].
        rewrite Hid in E. apply segment_path_inj in E. congruence. }
    unfold forgotten. cbn [sys_world sys_tasks].
    split; [exact Ht|]. split; [|exact Hkept].
    intros jd Hlive. apply Hl. revert Hlive. unfold live. rewrite Hc.
    destruct (fst (delete_job svc job_id (sys_world s))).
    + destruct Hr as [-> _].
      destruct (decide (job_key svc job_id = job_key svc j)) as [E|Hne].
      * now rewrite E, lookup_delete_eq.
      * now rewrite lookup_delete_ne.
    + now rewrite Hr.
  - destruct (Z.leb_spec 0 d) as [Hd|]; [|discriminate]. injection Hstep as <-.
    unfold forgotten. cbn [sys_world sys_tasks].
    split; [exact Ht|]. split; [|exact Hf].
    intros jd Hlive. apply Hl. revert Hlive. unfold live, advance. cbn.
    destruct (redis (sys_world s) !! job_key svc j) as [[v e]|]; [|discriminate].
    destruct (Z.leb_spec (clock (sys_world s) + d) e); [|discriminate].
    intros [= <-].
    destruct (Z.leb_spec (clock (sys_world s)) e); [reflexivity|lia].
Qed.

(** X11. Once the executor of a job has finished, a file at the job's
    cache path whose record is no longer served (it has expired) or lists
    no segment (the job failed) stays for ever, with its content, whatever
    the clients and the other executors do and whatever fails: no
    operation of the services removes it, [get_segment_audio] never sends
    it, and the record never lists a segment again. *)
Theorem forgotten_file_is_never_removed svc ls0 t failures s job_id data ls s' :
  sys_run svc ls0 (boot t failures) = Some s ->
  sys_tasks s !! job_id = Some Finished ->
  (forall job_data,
     live (sys_world s) (job_key svc job_id) = Some job_data ->
     jd_segments job_data = []) ->
  fs (sys_world s) !! seg_path svc job_id = Some data ->
  sys_run svc ls s = Some s' ->
  fs (sys_world s') !! seg_path svc job_id = Some data
  /\ (forall segment_id f,
        fst (get_segment_audio svc job_id segment_id (sys_world s')) <> Ok f)
  /\ forall job_data,
       live (sys_world s') (job_key svc job_id) = Some job_data ->
       jd_segments job_data = [].
Proof.
  intros Hrun0 Ht Hl Hf Hrun.
  pose proof (sys_run_store svc ls0 _ _ (boot_store svc t failures) Hrun0)
    as Hinv.
  assert (Hj : forgotten svc job_id data s) by (repeat split; assumption).
  clear Hrun0 Ht Hl Hf.
  assert (Hend : forgotten svc job_id data s').
  { revert s Hinv Hj Hrun. induction ls as [|l ls IH]; intros s Hinv Hj Hrun;
      cbn in Hrun.
    - now injection Hrun as <-.
    - destruct (sys_step svc l s) as [s1|] eqn:E; [|discriminate].
      apply (IH s1); [| |exact Hrun].
      + eapply sys_step_store; eassumption.
      + eapply forgotten_step; eassumption. }
  destruct Hend as (_ & Hl' & Hf'). split; [exact Hf'|]. split; [|exact Hl'].
  intros segment_id f.
  assert (H : wp (get_segment_audio svc job_id segment_id)
                (fun r _ => forall f, r <> Ok f) (sys_world s')).
  { unfold get_segment_audio, get_job. cbv zeta. apply wp_bind.
    apply wp_r_get; cbv beta iota; [discriminate|]. intros w1 _.
    destruct (live (sys_world s') (job_key svc job_id)) as [jd|] eqn:El;
      [|apply wp_raise; discriminate].
    destruct (negb _); [apply wp_raise; discriminate|].
    rewrite (Hl' jd eq_refl). cbn [find]. apply wp_raise. discriminate. }
  apply H.
Qed.

(** ** Listing the voices of edge-tts *)

Lemma getitem_some (v : gmap string string) key x w :
  v !! key = Some x -> Edge.getitem v key w = (Ok x, w).
Proof. intros H. unfold Edge.getitem. now rewrite H. Qed.

(** The loop over voices that all have their fields. *)
Lemma voices_loop_ok voices :
  forall result w,
    forallb Edge.has_fields voices = true ->
    exists infos,
      Edge.voices_loop voices result w = (Ok (result ++ infos), w)
      /\ Forall2 (fun v info =>
                    v !! "ShortName" = Some (Edge.id info)
                    /\ Edge.short_name info = Edge.id info
                    /\ v !! "FriendlyName" = Some (Edge.name info)
                    /\ v !! "Gender" = Some (Edge.gender info)
                    /\ v !! "Locale" = Some (Edge.locale info)) voices infos.
Proof.
  induction voices as [|v voices IH]; intros result w Hall.
  - exists []. cbn. rewrite app_nil_r. split; [reflexivity|constructor].
  - cbn in Hall. rewrite andb_true_r in Hall.
    apply andb_true_iff in Hall as [Hv Hall].
    repeat (apply andb_true_iff in Hv as [?%bool_decide_eq_true Hv]).
    apply bool_decide_eq_true in Hv.
    destruct (v !! "ShortName") as [i|] eqn:Ei; [|now destruct H].
    destruct (v !! "FriendlyName") as [n|] eqn:En; [|now destruct H0].
    destruct (v !! "Gender") as [g|] eqn:Eg; [|now destruct H1].
    destruct (v !! "Locale") as [l|] eqn:El; [|now destruct Hv].
    cbn [Edge.voices_loop].
    erewrite bind_ok by (apply getitem_some; exact Ei).
    erewrite bind_ok by (apply getitem_some; exact En).
    erewrite bind_ok by (apply getitem_some; exact Ei).
    erewrite bind_ok by (apply getitem_some; exact Eg).
    erewrite bind_ok by (apply getitem_some; exact El).
    destruct (IH (result ++ [{| Edge.id := i; Edge.name := n;
                                Edge.short_name := i; Edge.gender := g;
                                Edge.locale := l |}]) w Hall)
      as (infos & Hloop & Hinfos).
    eexists (_ :: infos). split.
    + rewrite Hloop, <- app_assoc. reflexivity.
    + constructor; [|exact Hinfos]. cbn. auto.
Qed.

(** The loop stops at the first voice that lacks a field, with the
    [KeyError] of the first field that is missing. *)
Lemma voices_loop_fails voices :
  forall result w,
    forallb Edge.has_fields voices = false ->
    exists key,
      key ∈ ["ShortName"; "FriendlyName"; "Gender"; "Locale"]
      /\ Edge.voices_loop voices result w
         = (Raise (Exception ("'" +:+ key +:+ "'")), w).
Proof.
  induction voices as [|v voices IH]; intros result w Hall; [discriminate|].
  cbn [forallb] in Hall. cbn [Edge.voices_loop].
  destruct (v !! "ShortName") as [i|] eqn:Ei.
  2: { exists "ShortName". split; [set_solver|].
       unfold bind, Edge.getitem. now rewrite Ei. }
  erewrite bind_ok by (apply getitem_some; exact Ei).
  destruct (v !! "FriendlyName") as [n|] eqn:En.
  2: { exists "FriendlyName". split; [set_solver|].
       unfold bind, Edge.getitem. now rewrite En. }
  erewrite bind_ok by (apply getitem_some; exact En).
  erewrite bind_ok by (apply getitem_some; exact Ei).
  destruct (v !! "Gender") as [g|] eqn:Eg.
  2: { exists "Gender". split; [set_solver|].
       unfold bind, Edge.getitem. now rewrite Eg. }
  erewrite bind_ok by (apply getitem_some; exact Eg).
  destruct (v !! "Locale") as [l|] eqn:El.
  2: { exists "Locale". split; [set_solver|].
       unfold bind, Edge.getitem. now rewrite El. }
  erewrite bind_ok by (apply getitem_some; exact El).
  apply IH.
  unfold Edge.has_fields in Hall. cbn [forallb] in Hall.
  rewrite Ei, En, Eg, El in Hall.
  rewrite !bool_decide_true in Hall by eauto. exact Hall.
Qed.

(** X13. [list_voices] of the edge service touches nothing.  When edge-tts
    lists its voices and each has the four fields read, the answer has one
    entry for each voice, in the order of the engine, with [id] and
    [short_name] both the short name, and [count] is their number; when
    edge-tts raises, or a voice lacks a field, the answer is 500 with the
    text of the exception after [Failed to list voices: ]. *)
Theorem edge_list_voices_answers (o : Edge.voices_outcome) w :
  snd (Edge.list_voices o w) = w
  /\ match o with
     | Edge.VoicesFailed msg =>
         fst (Edge.list_voices o w)
         = Raise (HTTPException 500 ("Failed to list voices: " +:+ msg))
     | Edge.Voices voices =>
         if forallb Edge.has_fields voices then
           exists infos,
             fst (Edge.list_voices o w)
             = Ok {| Edge.voices := infos; Edge.count := length voices |}
             /\ Forall2 (fun v info =>
                           v !! "ShortName" = Some (Edge.id info)
                           /\ Edge.short_name info = Edge.id info
                           /\ v !! "FriendlyName" = Some (Edge.name info)
                           /\ v !! "Gender" = Some (Edge.gender info)
                           /\ v !! "Locale" = Some (Edge.locale info))
                        voices infos
         else
           exists key,
             key ∈ ["ShortName"; "FriendlyName"; "Gender"; "Locale"]
             /\ fst (Edge.list_voices o w)
                = Raise (HTTPException 500
                           ("Failed to list voices: '" +:+ key +:+ "'"))
     end.
Proof.
  destruct o as [voices|msg]; [|now cbn].
  destruct (forallb Edge.has_fields voices) eqn:Eall.
  - destruct (voices_loop_ok voices [] w Eall) as (infos & Hloop & Hinfos).
    assert (E : Edge.list_voices (Edge.Voices voices) w
                = (Ok {| Edge.voices := infos; Edge.count := length infos |}, w)).
    { unfold Edge.list_voices. apply try_ok.
      erewrite bind_ok by reflexivity. erewrite bind_ok by exact Hloop.
      reflexivity. }
    rewrite E. split; [reflexivity|]. exists infos. split; [|exact Hinfos].
    now rewrite (Forall2_length _ _ _ Hinfos).
  - destruct (voices_loop_fails voices [] w Eall) as (key & Hkey & Hloop).
    assert (E : Edge.list_voices (Edge.Voices voices) w
                = (Raise (HTTPException 500
                            ("Failed to list voices: '" +:+ key +:+ "'")), w)).
    { unfold Edge.list_voices, try_except.
      erewrite bind_ok by reflexivity. unfold bind. rewrite Hloop. reflexivity. }
    rewrite E. split; [reflexivity|]. now exists key.
Qed.

(** ** Words and lines *)

Lemma split_cons c rest :
  split (c :: rest)
  = if isspace c then split rest
    else match rest with
         | [] => [[c]]
         | d :: _ =>
             if isspace d then [c] :: split rest
             else match split rest with
                  | word :: more => (c :: word) :: more
                  | [] => [[c]]
                  end
         end.
Proof. reflexivity. Qed.

Lemma split_blank s : forallb isspace s = true -> split s = [].
Proof.
  induction s as [|c s IH]; [reflexivity|]. cbn [forallb].
  intros [Hc Hs]%andb_true_iff. rewrite split_cons, Hc. auto.
Qed.

Lemma is_word_cons c s :
  is_word (c :: s) = negb (isspace c) && forallb (fun c => negb (isspace c)) s.
Proof. reflexivity. Qed.

(** [split] gives words. *)
Lemma split_words s : Forall (fun x => is_word x = true) (split s).
Proof.
  induction s as [|c s IH]; [constructor|]. rewrite split_cons.
  destruct (isspace c) eqn:Ec; [exact IH|].
  assert (Hc : is_word [c] = true) by (rewrite is_word_cons, Ec; reflexivity).
  destruct s as [|d s']; [now repeat constructor|].
  destruct (isspace d) eqn:Ed; [now constructor|].
  destruct (split (d :: s')) as [|word more]; [now repeat constructor|].
  inversion IH as [|? ? Hword Hmore]; subst. constructor; [|exact Hmore].
  destruct word as [|x word]; [discriminate|].
  rewrite is_word_cons in Hword |- *. cbn [forallb]. now rewrite Ec.
Qed.

(** White space at the end of a line adds no word. *)
Lemma split_app_space x ws :
  forallb isspace ws = true -> split (x ++ ws) = split x.
Proof.
  intros Hws. induction x as [|c x IH]; [now apply split_blank|].
  cbn [app]. rewrite !split_cons, IH.
  destruct (isspace c); [reflexivity|].
  destruct x as [|d x']; [|reflexivity]. cbn [app].
  destruct ws as [|d ws']; [reflexivity|].
  cbn [forallb] in Hws. apply andb_true_iff in Hws as [Hd _]. now rewrite Hd.
Qed.

Lemma split_word x : is_word x = true -> split x = [x].
Proof.
  induction x as [|c x IH]; [discriminate|]. rewrite is_word_cons.
  intros [Hc Hx]%andb_true_iff. apply negb_true_iff in Hc.
  rewrite split_cons, Hc. destruct x as [|d x']; [reflexivity|].
  cbn [forallb] in Hx. pose proof Hx as [Hd _]%andb_true_iff.
  apply negb_true_iff in Hd. rewrite Hd.
  rewrite IH; [reflexivity|]. now rewrite is_word_cons.
Qed.

Lemma split_word_space x d rest :
  is_word x = true -> isspace d = true ->
  split (x ++ d :: rest) = x :: split rest.
Proof.
  intros Hx Hd. induction x as [|c x IH]; [discriminate|].
  rewrite is_word_cons in Hx. apply andb_true_iff in Hx as [Hc Hx].
  apply negb_true_iff in Hc. cbn [app]. rewrite split_cons, Hc.
  destruct x as [|c2 x'].
  - cbn [app]. rewrite Hd. now rewrite (split_cons d), Hd.
  - cbn [app]. cbn [forallb] in Hx. pose proof Hx as [Hc2 _]%andb_true_iff.
    apply negb_true_iff in Hc2. rewrite Hc2.
    cbn [app] in IH. rewrite IH; [reflexivity|]. now rewrite is_word_cons.
Qed.

(** Splitting what [unwords] joined gives the words back. *)
Lemma split_unwords words :
  Forall (fun x => is_word x = true) words -> split (unwords words) = words.
Proof.
  induction 1 as [|x words Hx Hwords IH]; [reflexivity|].
  destruct words as [|y words]; [now apply split_word|].
  change (unwords (x :: y :: words)) with (x ++ 32%N :: unwords (y :: words)).
  rewrite split_word_space by (exact Hx || reflexivity). now rewrite IH.
Qed.

Lemma split_on_cons sep c rest :
  split_on sep (c :: rest)
  = if (c =? sep)%N then [] :: split_on sep rest
    else match split_on sep rest with
         | line :: more => (c :: line) :: more
         | [] => [[c]]
         end.
Proof. reflexivity. Qed.

Lemma split_on_nonempty sep s : split_on sep s <> [].
Proof.
  destruct s as [|c s]; [discriminate|]. rewrite split_on_cons.
  destruct (c =? sep)%N; [discriminate|].
  now destruct (split_on sep s).
Qed.

(** The lines of a text followed by another: the last line of the first
    is continued by the first line of the second. *)
Lemma split_on_app sep a b :
  split_on sep (a ++ b)
  = removelast (split_on sep a)
    ++ (List.last (split_on sep a) [] ++ hd [] (split_on sep b))
    :: tail (split_on sep b).
Proof.
  induction a as [|c a IH].
  - cbn. pose proof (split_on_nonempty sep b). now destruct (split_on sep b).
  - cbn [app]. rewrite !split_on_cons, IH.
    pose proof (split_on_nonempty sep a) as Hne.
    destruct (split_on sep a) as [|l1 rest] eqn:Ea; [contradiction|].
    destruct (c =? sep)%N; [reflexivity|].
    destruct rest as [|r rs]; reflexivity.
Qed.

Lemma split_on_line sep line :
  forallb (fun c => negb (c =? sep)%N) line = true ->
  split_on sep line = [line].
Proof.
  induction line as [|c line IH]; [reflexivity|]. cbn [forallb].
  intros [Hc Hl]%andb_true_iff. apply negb_true_iff in Hc.
  now rewrite split_on_cons, Hc, IH.
Qed.

(** Splitting what [unlines] joined gives the lines back. *)
Lemma split_on_unlines sep line lines :
  forallb (fun c => negb (c =? sep)%N) line = true ->
  Forall (fun l => forallb (fun c => negb (c =? sep)%N) l = true) lines ->
  split_on sep
    (line ++ concat (map (fun l => sep :: l) lines)) = line :: lines.
Proof.
  intros Hline Hlines. revert line Hline.
  induction Hlines as [|l lines Hl Hlines IH]; intros line Hline.
  - cbn. rewrite app_nil_r. now apply split_on_line.
  - cbn [map concat]. rewrite split_on_app, (split_on_line sep line Hline).
    cbn [removelast List.last app]. change (sep :: l ++ ?x) with ((sep :: l) ++ x).
    cbn [app]. rewrite split_on_cons, N.eqb_refl. cbn [hd tail].
    rewrite app_nil_r. now rewrite IH.
Qed.

Lemma unlines_cons line lines :
  unlines (line :: lines) = line ++ concat (map (fun l => 10%N :: l) lines).
Proof.
  revert line. induction lines as [|l lines IH]; intros line.
  - cbn. now rewrite app_nil_r.
  - change (unlines (line :: l :: lines)) with (line ++ 10%N :: unlines (l :: lines)).
    rewrite IH. reflexivity.
Qed.

(** ** Listing the voices of espeak-ng *)

Lemma voice_of_line_app_space line ws :
  forallb isspace ws = true ->
  Espeak.voice_of_line (line ++ ws) = Espeak.voice_of_line line.
Proof.
  intros H. unfold Espeak.voice_of_line. now rewrite split_app_space.
Qed.

Lemma voice_of_line_blank line :
  forallb isspace line = true -> Espeak.voice_of_line line = None.
Proof.
  intros H. unfold Espeak.voice_of_line. now rewrite split_blank.
Qed.

Lemma split_on_blank sep s :
  forallb isspace s = true ->
  Forall (fun l => forallb isspace l = true) (split_on sep s).
Proof.
  induction s as [|c s IH]; [now repeat constructor|]. cbn [forallb].
  intros [Hc Hs]%andb_true_iff. specialize (IH Hs). rewrite split_on_cons.
  destruct (c =? sep)%N; [now constructor|].
  destruct (split_on sep s) as [|l more].
  - constructor; [cbn; now rewrite Hc | constructor].
  - inversion IH; subst. constructor; [|assumption]. cbn. now rewrite Hc.
Qed.

Lemma omap_voices_blank lines :
  Forall (fun l => forallb isspace l = true) lines ->
  omap Espeak.voice_of_line lines = [].
Proof.
  induction 1 as [|l lines Hl _ IH]; [reflexivity|].
  cbn. now rewrite (voice_of_line_blank l Hl).
Qed.

(** White space after the text adds no voice. *)
Lemma voices_app_space a post :
  forallb isspace post = true ->
  omap Espeak.voice_of_line (tail (split_on 10 (a ++ post)))
  = omap Espeak.voice_of_line (tail (split_on 10 a)).
Proof.
  intros Hpost. rewrite split_on_app.
  pose proof (split_on_blank 10 post Hpost) as Hblank.
  pose proof (split_on_nonempty 10 post) as Hp.
  destruct (split_on 10 post) as [|p1 ps]; [contradiction|].
  inversion Hblank as [|? ? Hp1 Hps]; subst. cbn [hd tail].
  pose proof (split_on_nonempty 10 a) as Ha.
  destruct (@exists_last _ (split_on 10 a) Ha) as (init & l & ->).
  rewrite removelast_last, last_last.
  destruct init as [|l0 init]; cbn [app tail].
  - now apply omap_voices_blank.
  - rewrite !omap_app. cbn [omap list_omap].
    rewrite voice_of_line_app_space by exact Hp1.
    rewrite (omap_voices_blank ps Hps).
    now destruct (Espeak.voice_of_line l).
Qed.

Lemma lstrip_app a b : lstrip a <> [] -> lstrip (a ++ b) = lstrip a ++ b.
Proof.
  induction a as [|c a IH]; [contradiction|]. cbn [lstrip app].
  destruct (isspace c); [exact IH|reflexivity].
Qed.

Lemma forallb_lstrip_keeps (P : N -> bool) s :
  forallb P s = true -> forallb P (lstrip s) = true.
Proof.
  induction s as [|c s IH]; [reflexivity|]. cbn [forallb lstrip].
  intros [Hc Hs]%andb_true_iff. destruct (isspace c); [auto|].
  cbn. now rewrite Hc, Hs.
Qed.

(** The table of [espeak-ng --voices] is read line by line after its
    first line, when that line is not blank. *)
Lemma voices_of_lines header lines :
  existsb (fun c => negb (isspace c)) header = true ->
  forallb (fun c => negb (c =? 10)%N) header = true ->
  Forall (fun l => forallb (fun c => negb (c =? 10)%N) l = true) lines ->
  Espeak.get_available_voices
    (Espeak.VoicesExited 0 (unlines (header :: lines)))
  = omap Espeak.voice_of_line lines.
Proof.
  intros Hhead Hone Hlines. unfold Espeak.get_available_voices.
  cbn [Z.eqb negb]. cbv zeta. unfold strip.
  rewrite unlines_cons.
  assert (Hne : lstrip header <> []).
  { intros E. apply lstrip_nil_iff in E.
    apply existsb_exists in Hhead as (c & Hin & Hc).
    rewrite forallb_forall in E. rewrite (E c Hin) in Hc. discriminate. }
  rewrite lstrip_app by exact Hne.
  set (text := lstrip header ++ concat (map (fun l => 10%N :: l) lines)).
  destruct (rstrip_split text) as (post & Htext & Hpost).
  rewrite <- (voices_app_space (rstrip text) post Hpost), <- Htext.
  subst text. rewrite split_on_unlines; [reflexivity| |exact Hlines].
  now apply forallb_lstrip_keeps.
Qed.

Lemma word_one_line x :
  is_word x = true -> forallb (fun c => negb (c =? 10)%N) x = true.
Proof.
  unfold is_word. intros [_ H]%andb_true_iff.
  rewrite forallb_forall in H |- *. intros c Hin. specialize (H c Hin).
  destruct (N.eqb_spec c 10) as [->|]; [discriminate|reflexivity].
Qed.

Lemma unwords_one_line words :
  Forall (fun x => is_word x = true) words ->
  forallb (fun c => negb (c =? 10)%N) (unwords words) = true.
Proof.
  induction 1 as [|x words Hx Hwords IH]; [reflexivity|].
  destruct words as [|y words]; [now apply word_one_line|].
  change (unwords (x :: y :: words)) with (x ++ 32%N :: unwords (y :: words)).
  rewrite forallb_app. cbn [forallb]. rewrite IH, (word_one_line x Hx).
  reflexivity.
Qed.

(** X14. The table that [espeak-ng --voices] prints is read back: when
    the first line is not blank and every other line is made of words
    separated by a space, [get_available_voices] gives, in order, one voice
    for every line of four words or more: the fourth word as its id and
    name, the second as its language; shorter lines, the first line, and
    white space around the table count for nothing. *)
Theorem espeak_voices_are_read_back header rows :
  existsb (fun c => negb (isspace c)) header = true ->
  forallb (fun c => negb (c =? 10)%N) header = true ->
  Forall (Forall (fun x => is_word x = true)) rows ->
  forall before after,
    forallb isspace before = true -> forallb isspace after = true ->
    Espeak.get_available_voices
      (Espeak.VoicesExited 0
         (before ++ unlines (header :: map unwords rows) ++ after))
    = omap (fun words =>
              if (4 <=? length words)%nat then
                Some {| Espeak.id := nth 3 words [];
                        Espeak.name := nth 3 words [];
                        Espeak.language := nth 1 words [] |}
              else None) rows.
Proof.
  intros Hhead Hone Hrows before after Hbefore Hafter.
  assert (Hstrip : strip (before ++ unlines (header :: map unwords rows) ++ after)
                   = strip (unlines (header :: map unwords rows))).
  { unfold strip. rewrite unlines_cons.
    assert (Hne : lstrip header <> []).
    { intros E. apply lstrip_nil_iff in E.
      apply existsb_exists in Hhead as (c & Hin & Hc).
      rewrite forallb_forall in E. rewrite (E c Hin) in Hc. discriminate. }
    assert (Hl : forall x y, forallb isspace x = true ->
                             lstrip (x ++ y) = lstrip y).
    { intros x y Hx. induction x as [|c x IH]; [reflexivity|].
      cbn [forallb] in Hx. apply andb_true_iff in Hx as [Hc Hx].
      cbn [app lstrip]. rewrite Hc. auto. }
    rewrite Hl by exact Hbefore. rewrite <- !app_assoc.
    rewrite !lstrip_app by exact Hne.
    set (x := lstrip header). set (y := concat _).
    unfold rstrip. rewrite (app_assoc x y after), (rev_app_distr (x ++ y) after).
    rewrite (Hl (rev after) (rev (x ++ y))); [reflexivity|].
    now rewrite forallb_rev. }
  unfold Espeak.get_available_voices at 1. cbn [Z.eqb negb]. cbv zeta.
  rewrite Hstrip.
  pose proof (voices_of_lines header (map unwords rows) Hhead Hone) as H.
  unfold Espeak.get_available_voices in H. cbn [Z.eqb negb] in H.
  cbv zeta in H. rewrite H.
  - clear H Hstrip. induction Hrows as [|words rows Hwords Hrows IH];
      [reflexivity|].
    cbn [map omap list_omap]. rewrite IH. unfold Espeak.voice_of_line at 1.
    now rewrite (split_unwords words Hwords).
  - apply Forall_map. eapply Forall_impl; [exact Hrows|].
    intros words Hwords. now apply unwords_one_line.
Qed.

(** X15. Whatever [espeak-ng --voices] prints: every voice that
    [get_available_voices] gives has its name as its id, and an id and a
    language that are not empty and hold no white space; a non-zero exit
    code or a failure to run the program gives no voice; and
    [list_voices] never answers 500: it returns these voices and their
    number, and touches nothing. *)
Theorem espeak_voices_are_words (o : Espeak.voices_run) w :
  Forall (fun v => Espeak.id v = Espeak.name v
                   /\ is_word (Espeak.id v) = true
                   /\ is_word (Espeak.language v) = true)
         (Espeak.get_available_voices o)
  /\ match o with
     | Espeak.VoicesExited 0 _ => True
     | _ => Espeak.get_available_voices o = []
     end
  /\ Espeak.list_voices o w
     = (Ok {| Espeak.voices := Espeak.get_available_voices o;
              Espeak.count := length (Espeak.get_available_voices o) |}, w).
Proof.
  split; [|split].
  - destruct o as [rc out|msg]; [|constructor].
    unfold Espeak.get_available_voices.
    destruct (negb (rc =? 0)); [constructor|]. cbv zeta.
    induction (tail (split_on 10 (strip out))) as [|line lines IH];
      [constructor|].
    cbn [omap list_omap]. unfold Espeak.voice_of_line at 1.
    pose proof (split_words line) as Hwords.
    destruct (Nat.leb_spec 4 (length (split line))) as [Hlen|_]; [|exact IH].
    cbv zeta. constructor; [|exact IH]. cbn.
    rewrite Forall_forall in Hwords. split; [reflexivity|].
    split; apply Hwords, list_elem_of_In, nth_In; lia.
  - destruct o as [[| |] out|msg]; reflexivity.
  - reflexivity.
Qed.

(** ** What the engines are given and what they leave *)

(** X16. For a stream whose offsets and durations are within the range
    of [float]: [synthesize_text_with_timing], whatever fails, always
    returns and changes nothing but the output file.  It reports success
    only when the stream ended without an exception after at least one
    audio chunk; the file then holds the audio chunks, and only them, in
    the order of the stream, and the timings are those of the word
    boundaries, in that order, each with its offset and its duration
    divided by 10000.  A failure comes with no timing.  When no store
    operation fails, a stream that ends with some audio chunk is a
    success. *)
Theorem edge_synthesis_writes_the_stream text voice p (o : edge_stream) w :
  in_range (stream_chunks o) = true ->
  let r := synthesize_text_with_timing text voice p o w in
  touches_only p w (snd r)
  /\ exists success word_timings,
       fst r = Ok (success, word_timings)
       /\ (success = false -> word_timings = [])
       /\ (success = true ->
           stream_raised o = None
           /\ audio_of (stream_chunks o) <> []
           /\ word_timings = timings_of (stream_chunks o)
           /\ fs (snd r) !! p = Some (concat (audio_of (stream_chunks o))))
       /\ (faults w = [] -> stream_raised o = None ->
           audio_of (stream_chunks o) <> [] -> success = true).
Proof.
  intros _ r.
  pose proof (synthesize_text_with_timing_any text voice p o w) as H.
  unfold wp in H. fold r in H. destruct H as (Ht & success & wt & Hr & Hf & Hs).
  split; [exact Ht|]. exists success, wt. split; [exact Hr|].
  split; [exact Hf|]. split; [exact Hs|].
  intros Hnf Hraised Haudio. subst r.
  rewrite synthesize_text_with_timing_nf in Hr by exact Hnf.
  rewrite Hraised in Hr.
  destruct (audio_of (stream_chunks o)); [contradiction|].
  now injection Hr as <- _.
Qed.

(** X17. [synthesize_text] of the espeak service, whatever fails, always
    returns and changes nothing but the output file.  It reports success
    only when espeak-ng exited with code 0 and a file that is not empty is
    at the output path; when no store operation fails and espeak-ng wrote
    its file, success is exactly that: exit code 0 and at least one
    byte. *)
Theorem espeak_synthesis_reports_the_file text voice p prefer_phonemes
    (o : espeak_run) w :
  let r := synthesize_text text voice p prefer_phonemes o w in
  touches_only p w (snd r)
  /\ exists success,
       fst r = Ok success
       /\ (success = true ->
           (exists wav, run_exit o = Exited 0 wav)
           /\ exists data, fs (snd r) !! p = Some data /\ (0 < length data)%nat)
       /\ (faults w = [] ->
           forall returncode data,
             run_exit o = Exited returncode (Some data) ->
             success = (returncode =? 0) && negb (bool_decide (data = []))).
Proof.
  intros r. pose proof (synthesize_text_any text voice p prefer_phonemes o w) as H.
  unfold wp in H. fold r in H. destruct H as (Ht & success & Hr & Hs).
  split; [exact Ht|]. exists success. split; [exact Hr|]. split; [exact Hs|].
  intros Hnf rc data Hexit. subst r.
  rewrite synthesize_text_nf in Hr by exact Hnf. cbv zeta in Hr.
  rewrite Hexit in Hr. destruct (rc =? 0); cbn [negb] in Hr.
  - cbn [fs set_fs] in Hr. rewrite lookup_insert_eq in Hr.
    injection Hr as <-. destruct data; reflexivity.
  - now injection Hr as <-.
Qed.

Lemma synthesize_text_trace text voice p prefer_phonemes (o : espeak_run) w :
  exists evs,
    trace (snd (synthesize_text text voice p prefer_phonemes o w))
    = trace w
      ++ EvSynth voice
           (if prefer_phonemes then
              match phonemes o with
              | Some (c :: ph) => c :: ph
              | _ => text
              end
            else text) :: evs.
Proof.
  unfold synthesize_text. cbv zeta.
  set (spoken := if prefer_phonemes then _ else text).
  match goal with
  | |- context [try_except (log ?e >> ?rest) ?h w] =>
      change (try_except (log e >> rest) h w)
        with (try_except rest h (add_trace [e] w));
      assert (Hq : quiet (try_except rest h))
  end.
  { quiet_steps. }
  destruct (Hq (add_trace [EvSynth voice spoken] w)) as (evs & Ht & _).
  exists evs. rewrite Ht. cbn. now rewrite <- app_assoc.
Qed.

(** X18. What espeak-ng is asked to speak.  [convert_text_to_phonemes]
    gives phonemes only for an answer with status 200 whose body has a
    [phonemes] string that is not empty; [synthesize_text] then speaks the
    phonemes when [prefer_phonemes] is set, and in every other case (the
    option is not set, the request failed or timed out, another status, a
    body that does not parse or has no phonemes) it speaks the text
    itself. *)
Theorem espeak_speaks_phonemes_or_text text voice p prefer_phonemes
    (api : Espeak.phonemize_outcome) exit w :
  let o := {| phonemes := Espeak.convert_text_to_phonemes text api;
              run_exit := exit |} in
  let spoken :=
    match api with
    | Espeak.Responded status (Some data) =>
        if prefer_phonemes && (status =? 200) then
          match data !! "phonemes" with
          | Some (c :: ph) => c :: ph
          | _ => text
          end
        else text
    | _ => text
    end in
  exists evs,
    trace (snd (synthesize_text text voice p prefer_phonemes o w))
    = trace w ++ EvSynth voice spoken :: evs.
Proof.
  intros o spoken.
  destruct (synthesize_text_trace text voice p prefer_phonemes o w)
    as (evs & Ht).
  exists evs. rewrite Ht. do 3 f_equal. subst o spoken. cbn [phonemes].
  destruct prefer_phonemes; cbn [andb].
  - destruct api as [status [data|]| |]; cbn; try reflexivity.
    + destruct (status =? 200); [|reflexivity].
      now destruct (data !! "phonemes") as [[|c ph]|].
    + now destruct (status =? 200).
  - now destruct api as [status [data|]| |].
Qed.

(** ** The record of a job whose executor has finished *)

(** No step writes the record of a job whose executor has finished. *)
Lemma finished_step svc l s s' j :
  sys_tasks s !! j = Some Finished ->
  sys_step svc l s = Some s' ->
  sys_tasks s' !! j = Some Finished
  /\ clock (sys_world s) <= clock (sys_world s')
  /\ (redis (sys_world s') !! job_key svc j
      = redis (sys_world s) !! job_key svc j
      \/ redis (sys_world s') !! job_key svc j = None).
Proof.
  intros Ht Hstep.
  destruct l as [request new_id utcnow | job_id | job_id o | job_id
                | job_id segment_id | job_id | d]; cbn [sys_step] in Hstep.
  - destruct (sys_tasks s !! new_id) eqn:Efresh; [discriminate|].
    assert (Hne : j <> new_id) by congruence.
    pose proof (create_job_any svc request new_id utcnow (sys_world s)) as H.
    cbv zeta in H. unfold wp in H. destruct H as (_ & Hc & Hr).
    destruct (create_job svc request new_id utcnow (sys_world s))
      as [[[c t0]|e] w']; injection Hstep as <-; cbn [fst snd sys_world sys_tasks] in *.
    + destruct Hr as (_ & _ & jd & -> & _).
      rewrite lookup_insert_ne by congruence.
      rewrite lookup_other_job by exact Hne. split; [exact Ht|]. split; [lia|auto].
    + rewrite Hr. split; [exact Ht|]. split; [lia|auto].
  - destruct (sys_tasks s !! job_id) as [[t0| |]|] eqn:Eq; try discriminate.
    assert (Hne : j <> job_id) by congruence.
    pose proof (accept_job_any svc job_id (sys_world s)) as H.
    cbv zeta in H. unfold wp in H. destruct H as (_ & Hc & Hr).
    destruct (accept_job svc job_id (sys_world s)) as [[[copy|]|e] w'];
      injection Hstep as <-; cbn [fst snd sys_world sys_tasks] in *;
      rewrite lookup_insert_ne by congruence; (split; [exact Ht|]).
    + destruct Hr as (jd & _ & _ & ->).
      rewrite lookup_other_job by exact Hne. split; [lia|auto].
    + destruct Hr as [_ ->]. split; [lia|auto].
    + destruct (on_error_other svc j job_id e w' Hne) as (Hr' & Hc' & _).
      rewrite Hr', Hr. split; [lia|auto].
  - destruct (sys_tasks s !! job_id) as [[|t0 copy|]|] eqn:Eq; try discriminate.
    assert (Hne : j <> job_id) by congruence.
    injection Hstep as <-. unfold try_except.
    pose proof (run_synthesis_any svc job_id (task_text t0)
                  (task_prefer_phonemes t0) copy o (sys_world s)) as H.
    cbv zeta in H. unfold wp in H. destruct H as (Hc & _ & _ & Hr).
    destruct (run_synthesis svc job_id (task_text t0) (task_prefer_phonemes t0)
                copy o (sys_world s)) as [[[]|e] w1];
      cbn [fst snd sys_world sys_tasks] in *;
      rewrite lookup_insert_ne by congruence; (split; [exact Ht|]).
    + destruct Hr as (jd' & -> & _).
      rewrite lookup_other_job by exact Hne. split; [lia|auto].
    + destruct (on_error_other svc j job_id e w1 Hne) as (Hr' & Hc' & _).
      rewrite Hr', Hr. split; [lia|auto].
  - injection Hstep as <-. cbn [sys_world sys_tasks].
    destruct (get_job_status_reads svc job_id (sys_world s)) as (-> & _ & Hc).
    split; [exact Ht|]. split; [lia|auto].
  - injection Hstep as <-. cbn [sys_world sys_tasks].
    destruct (get_segment_audio_reads svc job_id segment_id (sys_world s))
      as (-> & _ & Hc).
    split; [exact Ht|]. split; [lia|auto].
  - injection Hstep as <-. cbn [sys_world sys_tasks].
    pose proof (delete_job_any svc job_id (sys_world s)) as H.
    cbv zeta in H. unfold wp in H. destruct H as (Hc & _ & Hr).
    split; [exact Ht|]. split; [lia|].
    destruct (fst (delete_job svc job_id (sys_world s))).
    + destruct Hr as [-> _].
      destruct (decide (job_key svc job_id = job_key svc j)) as [E|Hne].
      * right. now rewrite E, lookup_delete_eq.
      * left. now rewrite lookup_delete_ne.
    + rewrite Hr. auto.
  - destruct (Z.leb_spec 0 d) as [Hd|]; [|discriminate]. injection Hstep as <-.
    cbn. split; [exact Ht|]. split; [lia|auto].
Qed.

(** X19. Once the executor of a job has finished, nothing writes the
    job's record again, whatever the clients and the other executors do and
    whatever fails: the record stays as the executor left it, with the
    instant of expiry it had, until it is deleted; so every later read of
    the status gives that very record or finds none, and after its expiry
    finds none for ever. *)
Theorem finished_record_is_final svc ls s s' job_id :
  sys_tasks s !! job_id = Some Finished ->
  sys_run svc ls s = Some s' ->
  (redis (sys_world s') !! job_key svc job_id
   = redis (sys_world s) !! job_key svc job_id
   \/ redis (sys_world s') !! job_key svc job_id = None)
  /\ (forall job_data,
        fst (get_job_status svc job_id (sys_world s')) = Ok job_data ->
        exists expires,
          redis (sys_world s) !! job_key svc job_id = Some (job_data, expires)
          /\ clock (sys_world s') <= expires)
  /\ (live (sys_world s) (job_key svc job_id) = None ->
      live (sys_world s') (job_key svc job_id) = None).
Proof.
  intros Ht Hrun.
  assert (H : clock (sys_world s) <= clock (sys_world s')
              /\ (redis (sys_world s') !! job_key svc job_id
                  = redis (sys_world s) !! job_key svc job_id
                  \/ redis (sys_world s') !! job_key svc job_id = None)).
  { revert s Ht Hrun. induction ls as [|l ls IH]; intros s Ht Hrun;
      cbn in Hrun.
    - injection Hrun as <-. split; [lia|auto].
    - destruct (sys_step svc l s) as [s1|] eqn:E; [|discriminate].
      destruct (finished_step svc l s s1 job_id Ht E) as (Ht1 & Hc1 & Hr1).
      destruct (IH s1 Ht1 Hrun) as [Hc Hr]. split; [lia|].
      destruct Hr as [Hr|Hr]; [|now right].
      rewrite Hr. exact Hr1. }
  destruct H as [Hc Hr]. split; [exact Hr|]. split.
  - intros jd Hget. apply get_job_status_ok in Hget. unfold live in Hget.
    destruct (redis (sys_world s') !! job_key svc job_id) as [[v e]|] eqn:E;
      [|discriminate].
    destruct (Z.leb_spec (clock (sys_world s')) e); [|discriminate].
    injection Hget as ->. exists e. split; [|assumption].
    destruct Hr as [Hr|Hr]; congruence.
  - unfold live. destruct Hr as [-> | ->]; [|reflexivity].
    destruct (redis (sys_world s) !! job_key svc job_id) as [[v e]|];
      [|reflexivity].
    destruct (Z.leb_spec (clock (sys_world s)) e); [discriminate|]. intros _.
    destruct (Z.leb_spec (clock (sys_world s')) e); [lia|reflexivity].
Qed.

(** ** Deleting a job that is gone *)

(** The parts of the handlers, whatever fails. *)
Lemma delete_job_files_any svc job_id w :
  wp (delete_job_files svc job_id)
     (fun r w' =>
        redis w' = redis w /\ clock w' = clock w
        /\ (forall q data, fs w' !! q = Some data -> fs w !! q = Some data)
        /\ (forall u, r = Ok u ->
            exists job_data, live w (job_key svc job_id) = Some job_data)) w.
Proof.
  unfold delete_job_files, get_job. apply wp_bind.
  apply wp_r_get; cbv beta iota.
  - intros msg w1 (Hr & Hf & Hc). repeat split; auto; [|discriminate].
    intros q data. now rewrite Hf.
  - intros w1 (Hr1 & Hf1 & Hc1).
    destruct (live w (job_key svc job_id)) as [jd|] eqn:Elive.
    + eapply wp_mono; [|apply (delete_loop_any svc job_id (jd_segments jd) w1)].
      cbv beta. intros r w2 (Hr2 & Hc2 & Hfiles & _).
      split; [congruence|]. split; [congruence|]. split; [|eauto].
      intros q data Hq. destruct (Hfiles q) as [E|[E _]]; congruence.
    + apply wp_raise. repeat split; auto; [|discriminate].
      intros q data. now rewrite Hf1.
Qed.

Lemma delete_job_record_any svc job_id w :
  wp (delete_job_record svc job_id)
     (fun _ w' =>
        fs w' = fs w /\ clock w' = clock w
        /\ (redis w' = redis w
            \/ redis w' = delete (job_key svc job_id) (redis w))) w.
Proof.
  unfold delete_job_record. apply wp_bind. apply wp_r_delete; cbv beta iota.
  - intros msg w1 (Hr & Hf & Hc). auto.
  - intros w1 Hr Hf Hc. apply wp_ret. auto.
Qed.

Lemma serve_segment_reads svc job_id segment_id job_data w :
  same_store w (snd (serve_segment svc job_id segment_id job_data w)).
Proof.
  change (wp (serve_segment svc job_id segment_id job_data)
             (fun _ w' => same_store w w') w).
  unfold serve_segment. cbv zeta.
  wp_steps; eauto using same_store_refl, same_store_trans.
Qed.

Lemma get_job_reads svc job_id w : same_store w (snd (get_job svc job_id w)).
Proof.
  change (wp (get_job svc job_id) (fun _ w' => same_store w w') w).
  unfold get_job. wp_steps; eauto.
Qed.

(** The steps of the handlers that overlap keep the shape of the
    records, whatever fails. *)
Lemma ov_step_store svc l s s' :
  inv_store svc (ov_system s) -> ov_step svc l s = Some s' ->
  inv_store svc (ov_system s').
Proof.
  intros Hinv Hstep.
  destruct l as [l | job_id | job_id segment_id | i]; cbn [ov_step] in Hstep.
  - destruct (sys_step svc l (ov_system s)) as [s1|] eqn:E; [|discriminate].
    injection Hstep as <-. exact (sys_step_store svc l _ _ Hinv E).
  - pose proof (delete_job_files_any svc job_id (sys_world (ov_system s))) as H.
    unfold wp in H. destruct H as (Hr & Hc & Hf & _).
    assert (Hgo : inv_store svc
                    (ov_world (snd (delete_job_files svc job_id
                                      (sys_world (ov_system s)))) s)).
    { apply inv_store_shrink; [exact Hinv| |exact Hf].
      intros j jd e. now rewrite Hr. }
    destruct (delete_job_files svc job_id (sys_world (ov_system s)))
      as [[u|e] w']; injection Hstep as <-; exact Hgo.
  - pose proof (get_job_reads svc job_id (sys_world (ov_system s))) as H.
    assert (Hgo : inv_store svc
                    (ov_world (snd (get_job svc job_id
                                      (sys_world (ov_system s)))) s))
      by now apply inv_store_same.
    destruct (get_job svc job_id (sys_world (ov_system s))) as [[jd|e] w'];
      injection Hstep as <-; exact Hgo.
  - destruct (ov_suspended s !! i) as [[job_id | job_id segment_id jd]|];
      [| |discriminate]; injection Hstep as <-; cbn [ov_system].
    + pose proof (delete_job_record_any svc job_id (sys_world (ov_system s)))
        as H.
      unfold wp in H. destruct H as (Hf & Hc & Hr).
      apply inv_store_shrink; [exact Hinv| |intros q data; now rewrite Hf].
      intros j jd e. destruct Hr as [-> | ->]; [auto|].
      intros H. apply lookup_delete_Some in H. apply H.
    + apply inv_store_same; [exact Hinv|]. apply serve_segment_reads.
Qed.







(** ** A segment that the record does not list *)

(** What [get_segment_audio] has checked when it answers with a file,
    whatever fails. *)
Lemma serve_segment_checks svc job_id segment_id job_data w :
  wp (serve_segment svc job_id segment_id job_data)
     (fun r _ =>
        forall f, r = Ok f ->
          exists jd seg,
            job_data = Some jd /\ jd_status jd = "completed"
            /\ seg ∈ jd_segments jd /\ seg_id seg = segment_id
            /\ fr_path f = get_cache_path svc job_id segment_id) w.
Proof.
  unfold serve_segment. cbv zeta.
  destruct job_data as [jd|]; [|apply wp_raise; discriminate].
  destruct (negb (String.eqb (jd_status jd) "completed")) eqn:Est;
    [apply wp_raise; discriminate|].
  destruct (find _ (jd_segments jd)) as [seg|] eqn:Efind;
    [|apply wp_raise; discriminate].
  apply find_some in Efind as [Hin Hid]. apply String.eqb_eq in Hid.
  apply negb_false_iff, String.eqb_eq in Est.
  apply wp_bind. apply wp_path_exists; cbv beta iota; [discriminate|].
  intros w1 _. destruct (negb _); [apply wp_raise; discriminate|].
  apply wp_ret. intros f [= <-]. exists jd, seg.
  split; [reflexivity|]. split; [exact Est|].
  split; [now apply list_elem_of_In|]. split; [exact Hid|reflexivity].
Qed.

Lemma get_segment_audio_ok svc job_id segment_id w f :
  fst (get_segment_audio svc job_id segment_id w) = Ok f ->
  exists jd seg,
    live w (job_key svc job_id) = Some jd /\ jd_status jd = "completed"
    /\ seg ∈ jd_segments jd /\ seg_id seg = segment_id
    /\ fr_path f = get_cache_path svc job_id segment_id.
Proof.
  assert (H : wp (get_segment_audio svc job_id segment_id)
                (fun r _ =>
                   forall f, r = Ok f ->
                     exists jd seg,
                       live w (job_key svc job_id) = Some jd
                       /\ jd_status jd = "completed"
                       /\ seg ∈ jd_segments jd /\ seg_id seg = segment_id
                       /\ fr_path f = get_cache_path svc job_id segment_id) w).
  { change (get_segment_audio svc job_id segment_id)
      with (let* job_data := get_job svc job_id in
            serve_segment svc job_id segment_id job_data).
    unfold get_job. apply wp_bind. apply wp_r_get; cbv beta iota;
      [discriminate|].
    intros w1 _.
    eapply wp_mono; [|apply serve_segment_checks]. cbv beta.
    intros r _ Hr f0 E.
    destruct (Hr f0 E) as (jd & seg & Hjd & H). now exists jd, seg. }
  intros E. now apply H.
Qed.

(** The records that suspended handlers hold keep their shape. *)
Lemma ov_step_copies svc l s s' :
  inv_store svc (ov_system s) -> inv_copies svc s ->
  ov_step svc l s = Some s' -> inv_copies svc s'.
Proof.
  intros [Hshape _] Hcopies Hstep.
  destruct l as [l | job_id | job_id segment_id | i]; cbn [ov_step] in Hstep.
  - destruct (sys_step svc l (ov_system s)) as [s1|]; [|discriminate].
    injection Hstep as <-. exact Hcopies.
  - destruct (delete_job_files svc job_id (sys_world (ov_system s)))
      as [[u|e] w']; injection Hstep as <-; [|exact Hcopies].
    intros j sid jd H. cbn [ov_suspended] in H.
    apply elem_of_app in H as [H|H]; [exact (Hcopies _ _ _ H)|].
    apply list_elem_of_singleton in H. discriminate.
  - pose proof (r_get_ok (job_key svc job_id) (sys_world (ov_system s))) as Hget.
    unfold get_job in Hstep.
    destruct (r_get (job_key svc job_id) (sys_world (ov_system s)))
      as [[jd0|e] w']; injection Hstep as <-; [|exact Hcopies].
    destruct (Hget jd0 w' eq_refl) as (Hjd & _).
    intros j sid jd H. cbn [ov_suspended] in H.
    apply elem_of_app in H as [H|H]; [exact (Hcopies _ _ _ H)|].
    apply list_elem_of_singleton in H. injection H as -> -> <-.
    symmetry in Hjd. apply live_Some in Hjd as [e Hjd].
    specialize (Hshape job_id).
    destruct (sys_tasks (ov_system s) !! job_id) as [ph|]; [|congruence].
    destruct Hshape as [Hr _]. now destruct (Hr _ _ Hjd).
  - destruct (ov_suspended s !! i) as [[job_id | job_id segment_id jd]|];
      [| |discriminate]; injection Hstep as <-;
      intros j sid jd0 H; cbn [ov_suspended] in H;
      apply elem_of_delete_index in H; exact (Hcopies _ _ _ H).
Qed.

Lemma ov_run_copies svc ls :
  forall s s',
    inv_store svc (ov_system s) -> inv_copies svc s ->
    ov_run svc ls s = Some s' ->
    inv_store svc (ov_system s') /\ inv_copies svc s'.
Proof.
  induction ls as [|l ls IH]; intros s s' Hinv Hcopies Hrun; cbn in Hrun.
  - injection Hrun as <-. now split.
  - destruct (ov_step svc l s) as [s1|] eqn:E; [|discriminate].
    apply (IH s1 s'); [eapply ov_step_store; eassumption
                      | eapply ov_step_copies; eassumption | exact Hrun].
Qed.

(** C10, as amended.  When the record of the job lists no segment with the
    id asked for, [get_segment_audio] fails after its one read of Redis,
    before any path of the cache directory is formed or looked at: with 400
    when the job is not [completed], with 404 otherwise.  So in every state
    that the service reaches, whatever fails and however the handlers
    overlap, a file that [get_segment_audio] answers with is the file of
    the one segment of the job asked for, a job that [create_job] handed
    out: the file at the job's own cache path, which is the path of no
    other job. *)
Theorem unlisted_segment_refused svc job_id segment_id :
  (forall w job_data,
     faults w = [] ->
     live w (job_key svc job_id) = Some job_data ->
     (forall seg, seg ∈ jd_segments job_data -> seg_id seg <> segment_id) ->
     exists w',
       get_segment_audio svc job_id segment_id w
       = (Raise (if String.eqb (jd_status job_data) "completed"
                 then HTTPException 404 "Segment not found"
                 else HTTPException 400
                        ("Job is " +:+ jd_status job_data +:+ ", not completed")),
          w')
       /\ trace w' = trace w ++ [EvGet (job_key svc job_id)]
       /\ fs w' = fs w /\ redis w' = redis w)
  /\ (forall ls t failures s,
        ov_run svc ls (ov_boot t failures) = Some s ->
        let w := sys_world (ov_system s) in
        let own (f : FileResponse) :=
          segment_id = generate_segment_id job_id 0
          /\ fr_path f = seg_path svc job_id
          /\ forall j, plain job_id = true -> plain j = true -> j <> job_id ->
               fr_path f <> seg_path svc j in
        (forall f,
           fst (get_segment_audio svc job_id segment_id w) = Ok f ->
           is_Some (sys_tasks (ov_system s) !! job_id) /\ own f)
        /\ (forall i job_data f,
              ov_suspended s !! i = Some (Serving job_id segment_id job_data) ->
              fst (serve_segment svc job_id segment_id job_data w) = Ok f ->
              own f)).
Proof.
  split.
  - intros w job_data Hnf Hlive Hno.
    rewrite get_segment_audio_nf by exact Hnf. cbv zeta.
    rewrite Hlive.
    destruct (String.eqb (jd_status job_data) "completed"); cbn [negb].
    + rewrite find_segment_none by exact Hno. eexists. split; [reflexivity|].
      now cbn.
    + eexists. split; [reflexivity|]. now cbn.
  - intros ls t failures s Hrun w own.
    destruct (ov_run_copies svc ls (ov_boot t failures) s
                (boot_store svc t failures)) as [[Hshape _] Hcopies];
      [intros j sid jd H; now apply elem_of_nil in H | exact Hrun |].
    assert (Hown : forall jd seg f,
               record_shape svc job_id jd ->
               seg ∈ jd_segments jd -> seg_id seg = segment_id ->
               fr_path f = get_cache_path svc job_id segment_id -> own f).
    { intros jd seg f Hs Hin Hid Hp.
      destruct (shape_segment svc job_id jd seg Hs Hin) as [Hid' _].
      assert (E : segment_id = generate_segment_id job_id 0) by congruence.
      split; [exact E|]. rewrite Hp, E. fold (seg_path svc job_id).
      split; [reflexivity|]. intros j _ _ Hne Hp'. apply Hne.
      symmetry. exact (segment_path_inj svc _ _ Hp'). }
    split.
    + intros f Hok.
      destruct (get_segment_audio_ok svc job_id segment_id w f Hok)
        as (jd & seg & Hlive & _ & Hin & Hid & Hp).
      apply live_Some in Hlive as [e Hjd].
      specialize (Hshape job_id). fold w in Hjd.
      destruct (sys_tasks (ov_system s) !! job_id) as [ph|] eqn:Et;
        [|unfold w in Hjd; congruence].
      split; [eauto|].
      destruct Hshape as [Hr _]. destruct (Hr _ _ Hjd) as [Hs _].
      exact (Hown jd seg f Hs Hin Hid Hp).
    + intros i job_data f Hi Hok.
      pose proof (serve_segment_checks svc job_id segment_id job_data w) as H.
      unfold wp in H. destruct (H f Hok) as (jd & seg & -> & _ & Hin & Hid & Hp).
      apply list_elem_of_lookup_2 in Hi.
      exact (Hown jd seg f (Hcopies _ _ _ Hi) Hin Hid Hp).
Qed.

(** C10 as it is stated fails: for a job that is still [pending], a
    segment id that its record does not list is answered with 400, not
    with 404. *)
Lemma unlisted_segment_of_pending_job :
  faults pending_world = []
  /\ (exists job_data,
        live pending_world (job_key edge_service "job-1") = Some job_data
        /\ jd_segments job_data = [])
  /\ fst (get_segment_audio edge_service "job-1" "job-2-seg-0" pending_world)
     = Raise (HTTPException 400 "Job is pending, not completed")
  /\ (400 <> 404)%Z.
Proof.
  split; [reflexivity|]. split; [|split].
  - eexists. split; [vm_compute; reflexivity|reflexivity].
  - vm_compute. reflexivity.
  - discriminate.
Qed.

Lemma unlisted_segment_refused_witness :
  faults completed_world = []
  /\ (exists w',
        get_segment_audio edge_service "job-1" "job-2-seg-0" completed_world
        = (Raise (HTTPException 404 "Segment not found"), w')
        /\ trace w'
           = trace completed_world ++ [EvGet (job_key edge_service "job-1")]
        /\ fs w' = fs completed_world /\ redis w' = redis completed_world)
  /\ ov_run edge_service served_run (ov_boot 0 []) = Some served_system
  /\ exists f,
       fst (get_segment_audio edge_service "job-1" "job-1-seg-0"
              (sys_world (ov_system served_system))) = Ok f
       /\ fr_path f = "/data/cache/job-1-seg-0.mp3"
       /\ plain "job-1" = true /\ plain "job-2" = true
       /\ fr_path f <> seg_path edge_service "job-2".
Proof.
  split; [reflexivity|].
  assert (E : exists job_data seg,
             live completed_world (job_key edge_service "job-1")
             = Some job_data
             /\ jd_status job_data = "completed"
             /\ jd_segments job_data = [seg]
             /\ seg_id seg = "job-1-seg-0")
    by (eexists _, _; split; [vm_compute; reflexivity | repeat split]).
  destruct E as (job_data & seg & E1 & E2 & E3 & E4).
  assert (Hno : forall s, s ∈ jd_segments job_data -> seg_id s <> "job-2-seg-0").
  { intros s Hin. rewrite E3 in Hin. apply list_elem_of_singleton in Hin.
    subst s. rewrite E4. discriminate. }
  split.
  { pose proof (proj1 (unlisted_segment_refused edge_service "job-1"
                         "job-2-seg-0")
                  completed_world job_data eq_refl E1 Hno) as T.
    rewrite E2 in T. exact T. }
  assert (Hrun : ov_run edge_service served_run (ov_boot 0 [])
                 = Some served_system) by (vm_compute; reflexivity).
  split; [exact Hrun|].
  assert (Hok : exists f,
             fst (get_segment_audio edge_service "job-1" "job-1-seg-0"
                    (sys_world (ov_system served_system))) = Ok f)
    by (eexists; vm_compute; reflexivity).
  destruct Hok as [f Hok]. exists f. split; [exact Hok|].
  destruct (proj2 (unlisted_segment_refused edge_service "job-1"
                     "job-1-seg-0")
              served_run 0 [] served_system Hrun) as [Hread _].
  destruct (Hread f Hok) as (_ & _ & Hp & Hother).
  split; [rewrite Hp; reflexivity|].
  split; [reflexivity|]. split; [reflexivity|].
  apply Hother; [reflexivity|reflexivity|discriminate].
Defined.

(** * The further properties on the sample runs *)

Lemma espeak_run_reaches :
  sys_run espeak_service espeak_run_labels (boot 0 []) = Some espeak_system.
Proof. vm_compute. reflexivity. Qed.

Lemma expired_run_reaches :
  sys_run edge_service expired_run (boot 0 []) = Some expired_system.
Proof. vm_compute. reflexivity. Qed.

Lemma late_run_reaches :
  sys_run edge_service late_run expired_system = Some late_system.
Proof. vm_compute. reflexivity. Qed.

Lemma reading_run_reaches :
  sys_run edge_service reading_run hello_system = Some reading_system.
Proof. vm_compute. reflexivity. Qed.

Lemma process_job_agrees_witness :
  let w := set_faults [Some "Connection reset by peer"; Some "Broken pipe"]
             pending_world in
  snd (Edge.process_job edge_service "job-1" hello "en-US-AriaNeural"
         hello_stream w)
  = snd (process_job_with_new_redis edge_service "job-1" hello
           "en-US-AriaNeural" false hello_stream w)
  /\ fst (Edge.process_job edge_service "job-1" hello "en-US-AriaNeural"
            hello_stream w) = Raise (Exception "Broken pipe")
  /\ fst (process_job_with_new_redis edge_service "job-1" hello
            "en-US-AriaNeural" false hello_stream w) = Ok tt.
Proof.
  intros w.
  destruct (process_job_agrees "/data/cache" "en-US-AriaNeural" "job-1" hello
              "en-US-AriaNeural" false hello_stream w) as (H1 & _ & H3 & _).
  { intros job_data H. vm_compute in H. injection H as <-. reflexivity. }
  split; [exact H1|]. exact (H3 _ _ [] eq_refl).
Defined.

Lemma keys_and_paths_do_not_clash_witness :
  plain "3f2b8c1e-job" = true /\ plain "9d4e7a10-job" = true
  /\ seg_path edge_service "3f2b8c1e-job"
     = "/data/cache/3f2b8c1e-job-seg-0.mp3"
  /\ String.eqb (job_key edge_service "3f2b8c1e-job")
                (job_key espeak_service "9d4e7a10-job") = false
  /\ String.eqb (seg_path edge_service "3f2b8c1e-job")
                (seg_path espeak_service "9d4e7a10-job") = false.
Proof.
  split; [reflexivity|]. split; [reflexivity|]. split; [reflexivity|].
  exact (proj2 (proj2 (keys_and_paths_do_not_clash "/data/cache"
                         "en-US-AriaNeural" "en-us" "3f2b8c1e-job"
                         "9d4e7a10-job" eq_refl eq_refl))).
Defined.

Lemma edge_synthesis_writes_the_stream_witness :
  let r := synthesize_text_with_timing hello "en-US-AriaNeural"
             "/data/cache/job-1-seg-0.mp3" hello_stream pending_world in
  in_range (stream_chunks hello_stream) = true
  /\ touches_only "/data/cache/job-1-seg-0.mp3" pending_world (snd r)
  /\ exists word_timings,
       fst r = Ok (true, word_timings)
       /\ map wt_text word_timings = ["Hello"; "world"]
       /\ map wt_offset word_timings
          = [binary_normalize 53 1024 100 0 false;
             binary_normalize 53 1024 500 0 false]
       /\ map wt_duration word_timings
          = [binary_normalize 53 1024 350 0 false;
             binary_normalize 53 1024 400 0 false]
       /\ fs (snd r) !! "/data/cache/job-1-seg-0.mp3"
          = Some [x49; x44; x33; xff; xfb]%byte.
Proof.
  intros r.
  destruct (edge_synthesis_writes_the_stream hello "en-US-AriaNeural"
              "/data/cache/job-1-seg-0.mp3" hello_stream pending_world
              eq_refl)
    as (Ht & success & wt & Hr & _ & Hs & Hok).
  fold r in Ht, Hr, Hs.
  assert (E : success = true) by (apply Hok; [reflexivity|reflexivity|discriminate]).
  subst success. destruct (Hs eq_refl) as (_ & _ & -> & Hfile).
  split; [reflexivity|]. split; [exact Ht|].
  eexists. split; [exact Hr|]. split; [reflexivity|].
  split; [vm_compute; reflexivity|]. split; [vm_compute; reflexivity|].
  exact Hfile.
Defined.

Lemma create_job_task_witness :
  exists c t w',
    create_job edge_service padded_request "job-1" "2024-05-01T10:00:00"
      empty_world = (Ok (c, t), w')
    /\ task_text t = hello
    /\ task_voice t = "en-GB-SoniaNeural"
    /\ (exists pre post,
          req_text padded_request = pre ++ task_text t ++ post
          /\ forallb isspace pre = true /\ forallb isspace post = true)
    /\ (exists c0 rest, task_text t = c0 :: rest /\ isspace c0 = false)
    /\ (exists init c1, task_text t = init ++ [c1] /\ isspace c1 = false)
    /\ (DEFAULT_VOICE edge_service <> "" -> task_voice t <> "")
    /\ task_prefer_phonemes t = default false (req_prefer_phonemes padded_request).
Proof.
  assert (E : exists c t w',
             create_job edge_service padded_request "job-1"
               "2024-05-01T10:00:00" empty_world = (Ok (c, t), w')
             /\ task_text t = hello /\ task_voice t = "en-GB-SoniaNeural")
    by (eexists _, _, _; split; [vm_compute; reflexivity | split; reflexivity]).
  destruct E as (c & t & w' & E & Htext & Hvoice).
  exists c, t, w'. split; [exact E|]. split; [exact Htext|].
  split; [exact Hvoice|].
  exact (create_job_task edge_service padded_request "job-1"
           "2024-05-01T10:00:00" empty_world c t w' E).
Defined.

Lemma get_job_audio_is_first_segment_witness :
  Espeak.get_job_audio espeak_service "job-1" (sys_world espeak_system)
  = (match fst (get_segment_audio espeak_service "job-1" "job-1-seg-0"
                  (sys_world espeak_system)) with
     | Ok f => Ok {| fr_path := fr_path f;
                     fr_media_type := fr_media_type f;
                     fr_filename := "job-1.wav" |}
     | Raise e => Raise e
     end,
     snd (get_segment_audio espeak_service "job-1" "job-1-seg-0"
            (sys_world espeak_system))).
Proof.
  assert (E : exists job_data seg,
             live (sys_world espeak_system) (job_key espeak_service "job-1")
             = Some job_data
             /\ jd_segments job_data = [seg]
             /\ seg_id seg = "job-1-seg-0")
    by (eexists _, _; split; [vm_compute; reflexivity | split; reflexivity]).
  destruct E as (job_data & seg & E & Hsegs & Hid).
  pose proof (get_job_audio_is_first_segment "/data/cache" "en-us" "job-1"
                (sys_world espeak_system) job_data E) as T.
  cbv zeta in T. rewrite Hsegs, Hid in T. exact T.
Defined.

Lemma records_keep_their_shape_witness :
  sys_run edge_service refused_run (boot 0 refused_failures)
  = Some refused_system
  /\ exists job_data,
       fst (get_job_status edge_service "job-1" (sys_world refused_system))
       = Ok job_data
       /\ jd_status job_data = "failed"
       /\ is_Some (sys_tasks refused_system !! "job-1")
       /\ record_shape edge_service "job-1" job_data.
Proof.
  split; [exact refused_run_reaches|].
  assert (E : exists job_data,
             fst (get_job_status edge_service "job-1" (sys_world refused_system))
             = Ok job_data /\ jd_status job_data = "failed")
    by (eexists; split; [vm_compute; reflexivity | reflexivity]).
  destruct E as (job_data & E & Hst). exists job_data.
  split; [exact E|]. split; [exact Hst|].
  exact (records_keep_their_shape edge_service refused_run 0 refused_failures
           refused_system refused_run_reaches "job-1" job_data E).
Defined.

Lemma recorded_size_is_file_size_witness :
  sys_run edge_service hello_run (boot 0 []) = Some hello_system
  /\ exists job_data seg data,
       fst (get_job_status edge_service "job-1" (sys_world hello_system))
       = Ok job_data
       /\ seg ∈ jd_segments job_data
       /\ fs (sys_world hello_system)
          !! get_cache_path edge_service "job-1" (seg_id seg) = Some data
       /\ length data = 5%nat
       /\ seg_file_size seg = Z.of_nat (length data)
       /\ (engine edge_service = EspeakNG -> (0 < length data)%nat).
Proof.
  split; [exact hello_run_reaches|].
  assert (E : exists job_data seg data,
             fst (get_job_status edge_service "job-1" (sys_world hello_system))
             = Ok job_data
             /\ jd_segments job_data = [seg]
             /\ fs (sys_world hello_system)
                !! get_cache_path edge_service "job-1" (seg_id seg) = Some data
             /\ length data = 5%nat)
    by (eexists _, _, _; split; [vm_compute; reflexivity|];
        split; [reflexivity|]; split; [vm_compute; reflexivity|reflexivity]).
  destruct E as (job_data & seg & data & E & Hsegs & Hfile & Hlen).
  assert (Hin : seg ∈ jd_segments job_data) by (rewrite Hsegs; left).
  exists job_data, seg, data. split; [exact E|]. split; [exact Hin|].
  split; [exact Hfile|]. split; [exact Hlen|].
  exact (recorded_size_is_file_size edge_service hello_run 0 [] hello_system
           hello_run_reaches "job-1" job_data seg data E Hin Hfile).
Defined.

Lemma forgotten_file_is_never_removed_witness :
  sys_run edge_service expired_run (boot 0 []) = Some expired_system
  /\ sys_run edge_service late_run expired_system = Some late_system
  /\ sys_tasks expired_system !! "job-1" = Some Finished
  /\ live (sys_world expired_system) (job_key edge_service "job-1") = None
  /\ fs (sys_world late_system) !! seg_path edge_service "job-1"
     = Some [x49; x44; x33; xff; xfb]%byte
  /\ (forall segment_id f,
        fst (get_segment_audio edge_service "job-1" segment_id
               (sys_world late_system)) <> Ok f)
  /\ forall job_data,
       live (sys_world late_system) (job_key edge_service "job-1")
       = Some job_data ->
       jd_segments job_data = [].
Proof.
  assert (Ht : sys_tasks expired_system !! "job-1" = Some Finished)
    by (vm_compute; reflexivity).
  assert (Hl : live (sys_world expired_system) (job_key edge_service "job-1")
               = None) by (vm_compute; reflexivity).
  assert (Hf : fs (sys_world expired_system) !! seg_path edge_service "job-1"
               = Some [x49; x44; x33; xff; xfb]%byte)
    by (vm_compute; reflexivity).
  split; [exact expired_run_reaches|]. split; [exact late_run_reaches|].
  split; [exact Ht|]. split; [exact Hl|].
  apply (forgotten_file_is_never_removed edge_service expired_run 0 []
           expired_system "job-1" [x49; x44; x33; xff; xfb]%byte late_run
           late_system expired_run_reaches Ht);
    [|exact Hf|exact late_run_reaches].
  intros job_data H. rewrite Hl in H. discriminate.
Defined.

Lemma espeak_voices_are_read_back_witness :
  Espeak.get_available_voices
    (Espeak.VoicesExited 0
       ([10]%N ++ unlines (voices_header :: map unwords voices_rows)
        ++ [32; 10]%N))
  = [{| Espeak.id := pystr_of "Afrikaans";
        Espeak.name := pystr_of "Afrikaans";
        Espeak.language := pystr_of "af" |};
     {| Espeak.id := pystr_of "English_(America)";
        Espeak.name := pystr_of "English_(America)";
        Espeak.language := pystr_of "en-us" |}].
Proof.
  assert (H1 : existsb (fun c => negb (isspace c)) voices_header = true)
    by reflexivity.
  assert (H2 : forallb (fun c => negb (c =? 10)%N) voices_header = true)
    by reflexivity.
  assert (H3 : Forall (Forall (fun x => is_word x = true)) voices_rows)
    by (repeat constructor).
  exact (espeak_voices_are_read_back voices_header voices_rows H1 H2 H3
           [10]%N [32; 10]%N eq_refl eq_refl).
Defined.

Lemma finished_record_is_final_witness :
  sys_tasks hello_system !! "job-1" = Some Finished
  /\ sys_run edge_service reading_run hello_system = Some reading_system
  /\ (redis (sys_world reading_system) !! job_key edge_service "job-1"
      = redis (sys_world hello_system) !! job_key edge_service "job-1"
      \/ redis (sys_world reading_system) !! job_key edge_service "job-1"
         = None)
  /\ (forall job_data,
        fst (get_job_status edge_service "job-1" (sys_world reading_system))
        = Ok job_data ->
        exists expires,
          redis (sys_world hello_system) !! job_key edge_service "job-1"
          = Some (job_data, expires)
          /\ clock (sys_world reading_system) <= expires)
  /\ (live (sys_world hello_system) (job_key edge_service "job-1") = None ->
      live (sys_world reading_system) (job_key edge_service "job-1") = None).
Proof.
  assert (Ht : sys_tasks hello_system !! "job-1" = Some Finished)
    by (vm_compute; reflexivity).
  split; [exact Ht|]. split; [exact reading_run_reaches|].
  exact (finished_record_is_final edge_service reading_run hello_system
           reading_system "job-1" Ht reading_run_reaches).
Defined.
